(** * SketchPad: the freehand sketch surface of the pose painter

    A shallow embedding of [src/components/SketchPad.tsx] (and of the
    [AspectRatio] state that [src/App.tsx] owns), followed by the
    properties of the stroke log, the input tracker, the renderer, the
    exporter and the surface controller.

    Conventions.
    - A JavaScript [number] is an IEEE 754 binary64 value: Rocq's
      primitive [float].
    - A React state slot is a field of [State]. A handler reads the
      slots of the render it was created in and queues updates: a value
      passed to a setter comes from the handler's render, an updater
      function receives the queued state. React renders the updates of a
      press, a release, a click or a change before the next event is
      handled, and those of a move or a leave in a later task
      ([dispatch], [flush]). [step] is an event together with the render
      of its updates, and [run] the schedule in which every event is
      rendered before the next one arrives.
    - DOM objects live in a store indexed by handles, so that two
      references to one canvas alias. The bitmap of a canvas is kept as
      the list of what was painted on it.
    - The browser is modelled as far as the component uses it: the 2D
      context ignores the attribute values and coordinates the standard
      tells it to ignore, [drawImage] refuses a source without pixels,
      a range control reports a value between its bounds. *)

From Stdlib Require Import ZArith List Bool Ascii String Lia.
From Stdlib Require Import Floats.PrimFloat Floats.SpecFloat Floats.FloatOps.
From stdpp Require Import base option list gmap strings.

Local Open Scope string_scope.
Local Open Scope Z_scope.
Local Open Scope list_scope.
Set Warnings "-register-all".

(* ===================================================================== *)
(** ** JavaScript values *)
(* ===================================================================== *)

Module JS.

Abbreviation number := float.

(** The Number value of a mathematical integer (round to nearest, ties
    to even). *)
Definition of_Z (z : Z) : number :=
  SF2Prim (binary_normalize prec emax z 0 false).

Definition isFinite (v : number) : bool := PrimFloat.is_finite v.

(** Completion of a piece of code: a value, or a thrown exception. *)
Inductive completion (A : Type) : Type :=
| Normal (a : A)
| Throw (error : string).
Arguments Normal {A} a.
Arguments Throw {A} error.

(** [Array.prototype.slice(start, end)]: negative indices count from the
    end, both bounds are clamped to the array. *)
Definition slice {A} (l : list A) (start end_ : Z) : list A :=
  let len := Z.of_nat (length l) in
  let k := if start <? 0 then Z.max (len + start) 0 else Z.min start len in
  let final := if end_ <? 0 then Z.max (len + end_) 0 else Z.min end_ len in
  let count := Z.max (final - k) 0 in
  take (Z.to_nat count) (drop (Z.to_nat k) l).

(** Code units; the model keeps those below 256. *)
Definition isStrWhiteSpaceChar (c : ascii) : bool :=
  let n := nat_of_ascii c in
  ((9 <=? n) && (n <=? 13) || (n =? 32) || (n =? 160))%nat.

Fixpoint trimStart (s : string) : string :=
  match s with
  | String c s' => if isStrWhiteSpaceChar c then trimStart s' else s
  | EmptyString => EmptyString
  end.

(** Value of a code unit as a digit of the given radix, if it is one. *)
Definition digitValue (radix : Z) (c : ascii) : option Z :=
  let n := Z.of_nat (nat_of_ascii c) in
  let v := if (48 <=? n) && (n <=? 57) then Some (n - 48)
           else if (97 <=? n) && (n <=? 122) then Some (n - 87)
           else if (65 <=? n) && (n <=? 90) then Some (n - 55)
           else None in
  match v with
  | Some d => if d <? radix then Some d else None
  | None => None
  end.

(** Longest prefix of radix digits, accumulated most significant first:
    the number of digits read and their value. *)
Fixpoint readDigits (radix : Z) (s : string) (n : nat) (acc : Z) : nat * Z :=
  match s with
  | String c s' =>
      match digitValue radix c with
      | Some d => readDigits radix s' (S n) (acc * radix + d)
      | None => (n, acc)
      end
  | EmptyString => (n, acc)
  end.

(** [parseInt(string)] with the radix left undefined. *)
Definition parseInt (input : string) : number :=
  let s := trimStart input in
  let '(sign, s) :=
    match s with
    | String "-" s' => (-1, s')
    | String "+" s' => (1, s')
    | _ => (1, s)
    end in
  let '(radix, s) :=
    match s with
    | String "0" (String "x" s') => (16, s')
    | String "0" (String "X" s') => (16, s')
    | _ => (10, s)
    end in
  match readDigits radix s 0 0 with
  | (O, _) => PrimFloat.nan
  | (_, mathInt) =>
      if mathInt =? 0
      then (if sign =? -1 then PrimFloat.neg_zero else PrimFloat.zero)
      else of_Z (sign * mathInt)
  end.

(** Decimal digits of a non-negative integer, as [Number::toString]
    prints an integer below 10^21. *)
Fixpoint digitsOf (fuel : nat) (n : Z) (acc : string) : string :=
  match fuel with
  | O => acc
  | S fuel' =>
      let acc' := String (ascii_of_nat (Z.to_nat (48 + n mod 10))) acc in
      if n <? 10 then acc' else digitsOf fuel' (n / 10) acc'
  end.

Definition integerToString (z : Z) : string :=
  if z <? 0 then String "-" (digitsOf 22 (- z) "") else digitsOf 22 z "".

End JS.

(* ===================================================================== *)
(** ** The browser: canvas elements and their 2D contexts *)
(* ===================================================================== *)

Module DOM.

Import JS.

Record DOMRect := { left : number; top : number }.

Inductive LineCap := CapButt | CapRound | CapSquare.
Inductive LineJoin := JoinMiter | JoinRound | JoinBevel.

(** The two compositing keywords the component assigns. *)
Inductive CompositeOp := SourceOver | DestinationOut.

Record RGBA := { red : Z; green : Z; blue : Z; alpha : Z }.

Fixpoint hexDigits (s : string) : option (list Z) :=
  match s with
  | EmptyString => Some []
  | String c s' =>
      match digitValue 16 c, hexDigits s' with
      | Some d, Some ds => Some (d :: ds)
      | _, _ => None
      end
  end.

(** A CSS colour in hexadecimal notation ([#rgb], [#rgba], [#rrggbb],
    [#rrggbbaa]); the other notations of CSS are not modelled, every
    colour the component writes is six-digit hexadecimal. *)
Definition parseColor (s : string) : option RGBA :=
  match s with
  | String "#" s' =>
      match hexDigits s' with
      | Some [r; g; b] =>
          Some {| red := 17 * r; green := 17 * g; blue := 17 * b; alpha := 255 |}
      | Some [r; g; b; a] =>
          Some {| red := 17 * r; green := 17 * g; blue := 17 * b; alpha := 17 * a |}
      | Some [r1; r0; g1; g0; b1; b0] =>
          Some {| red := 16 * r1 + r0; green := 16 * g1 + g0;
                  blue := 16 * b1 + b0; alpha := 255 |}
      | Some [r1; r0; g1; g0; b1; b0; a1; a0] =>
          Some {| red := 16 * r1 + r0; green := 16 * g1 + g0;
                  blue := 16 * b1 + b0; alpha := 16 * a1 + a0 |}
      | _ => None
      end
  | _ => None
  end.

Definition opaqueBlack : RGBA :=
  {| red := 0; green := 0; blue := 0; alpha := 255 |}.

Definition Subpath := list (number * number).

(** What has been painted on a bitmap since it was last reset to
    transparent black, oldest first. *)
Inductive PaintOp :=
| OpClearRect (x y w h : number)
| OpFillRect (x y w h : number) (style : RGBA) (op : CompositeOp)
| OpStroke (path : list Subpath) (style : RGBA) (lineWidth : number)
    (cap : LineCap) (join : LineJoin) (op : CompositeOp)
| OpDrawImage (sw sh : Z) (source : list PaintOp) (dx dy : number)
    (op : CompositeOp).

Record Context2D := {
  strokeStyle : RGBA;
  fillStyle : RGBA;
  lineWidth : number;
  lineCap : LineCap;
  lineJoin : LineJoin;
  globalCompositeOperation : CompositeOp;
  path : list Subpath
}.

Definition defaultContext : Context2D :=
  {| strokeStyle := opaqueBlack; fillStyle := opaqueBlack;
     lineWidth := 1%float; lineCap := CapButt; lineJoin := JoinMiter;
     globalCompositeOperation := SourceOver; path := [] |}.

(** The context a canvas is bound to: none yet, a 2D context, or one of
    another type (for which [getContext('2d')] answers [null]). *)
Inductive ContextMode :=
| NoContext
| Context2d (c : Context2D)
| ContextOther.

Record HTMLCanvasElement := {
  width : Z;
  height : Z;
  boundingClientRect : DOMRect;
  contextMode : ContextMode;
  bitmap : list PaintOp
}.

Abbreviation CanvasRef := nat.
Abbreviation Store := (gmap nat HTMLCanvasElement).

(** Code that reads and writes DOM objects, and may throw. *)
Definition Dom (A : Type) : Type := Store -> completion A * Store.

Definition ret {A} (a : A) : Dom A := fun σ => (Normal a, σ).

Definition bind {A B} (m : Dom A) (k : A -> Dom B) : Dom B :=
  fun σ =>
    match m σ with
    | (Normal a, σ') => k a σ'
    | (Throw e, σ') => (Throw e, σ')
    end.

Definition throw {A} (e : string) : Dom A := fun σ => (Throw e, σ).

Declare Scope dom_scope.
Delimit Scope dom_scope with dom.
Notation "x <- m ;; k" := (bind m (fun x => k))
  (at level 100, m at next level, right associativity) : dom_scope.
Notation "m ;; k" := (bind m (fun _ => k))
  (at level 100, right associativity) : dom_scope.

(** [Array.prototype.forEach] with a callback that acts on the DOM. *)
Fixpoint forEach {A} (l : list A) (f : A -> Dom unit) : Dom unit :=
  match l with
  | [] => ret tt
  | a :: l' => (f a ;; forEach l' f)%dom
  end.

Definition withContext (f : Context2D -> Context2D) (cv : HTMLCanvasElement)
  : HTMLCanvasElement :=
  match contextMode cv with
  | Context2d c =>
      {| width := width cv; height := height cv;
         boundingClientRect := boundingClientRect cv;
         contextMode := Context2d (f c); bitmap := bitmap cv |}
  | _ => cv
  end.

Definition paint (mk : Context2D -> PaintOp) (cv : HTMLCanvasElement)
  : HTMLCanvasElement :=
  match contextMode cv with
  | Context2d c =>
      {| width := width cv; height := height cv;
         boundingClientRect := boundingClientRect cv;
         contextMode := contextMode cv; bitmap := bitmap cv ++ [mk c] |}
  | _ => cv
  end.

Definition update (ctx : CanvasRef) (f : HTMLCanvasElement -> HTMLCanvasElement)
  : Dom unit :=
  fun σ => (Normal tt, alter f ctx σ).

(** [document.createElement('canvas')]: a new 300 x 150 canvas, not in
    the document. *)
Definition createCanvas : Dom CanvasRef :=
  fun σ =>
    let id := fresh (dom σ) in
    (Normal id,
     <[id := {| width := 300; height := 150;
                boundingClientRect := {| left := 0%float; top := 0%float |};
                contextMode := NoContext; bitmap := [] |}]> σ).

(** Reading [canvas.width] and [canvas.height]. *)
Definition getWidth (canvas : CanvasRef) : Dom Z :=
  fun σ => (Normal (from_option width 0 (σ !! canvas)), σ).

Definition getHeight (canvas : CanvasRef) : Dom Z :=
  fun σ => (Normal (from_option height 0 (σ !! canvas)), σ).

(** Assigning a dimension resets the bitmap to transparent black and the
    context to its default state. *)
Definition resetContext (m : ContextMode) : ContextMode :=
  match m with
  | Context2d _ => Context2d defaultContext
  | _ => m
  end.

Definition setWidth (canvas : CanvasRef) (w : Z) : Dom unit :=
  update canvas (fun cv =>
    {| width := w; height := height cv;
       boundingClientRect := boundingClientRect cv;
       contextMode := resetContext (contextMode cv); bitmap := [] |}).

Definition setHeight (canvas : CanvasRef) (h : Z) : Dom unit :=
  update canvas (fun cv =>
    {| width := width cv; height := h;
       boundingClientRect := boundingClientRect cv;
       contextMode := resetContext (contextMode cv); bitmap := [] |}).

Definition getBoundingClientRect (canvas : HTMLCanvasElement) : DOMRect :=
  boundingClientRect canvas.

(** [canvas.getContext('2d')]: the canvas' 2D context, created on first
    use; [null] when the canvas is bound to a context of another type.
    The context is referred to through its canvas. *)
Definition getContext2d (canvas : CanvasRef) : Dom (option CanvasRef) :=
  fun σ =>
    match σ !! canvas with
    | Some cv =>
        match contextMode cv with
        | NoContext =>
            (Normal (Some canvas),
             <[canvas := {| width := width cv; height := height cv;
                            boundingClientRect := boundingClientRect cv;
                            contextMode := Context2d defaultContext;
                            bitmap := bitmap cv |}]> σ)
        | Context2d _ => (Normal (Some canvas), σ)
        | ContextOther => (Normal None, σ)
        end
    | None => (Normal None, σ)
    end.

Definition allFinite (vs : list number) : bool := forallb isFinite vs.

(** Assignments to context attributes; an invalid value is ignored. *)
Definition set_strokeStyle (ctx : CanvasRef) (v : string) : Dom unit :=
  match parseColor v with
  | Some c =>
      update ctx (withContext (fun s =>
        {| strokeStyle := c; fillStyle := fillStyle s;
           lineWidth := lineWidth s; lineCap := lineCap s;
           lineJoin := lineJoin s;
           globalCompositeOperation := globalCompositeOperation s;
           path := path s |}))
  | None => ret tt
  end.

Definition set_fillStyle (ctx : CanvasRef) (v : string) : Dom unit :=
  match parseColor v with
  | Some c =>
      update ctx (withContext (fun s =>
        {| strokeStyle := strokeStyle s; fillStyle := c;
           lineWidth := lineWidth s; lineCap := lineCap s;
           lineJoin := lineJoin s;
           globalCompositeOperation := globalCompositeOperation s;
           path := path s |}))
  | None => ret tt
  end.

Definition set_lineWidth (ctx : CanvasRef) (v : number) : Dom unit :=
  if isFinite v && (0 <? v)%float
  then update ctx (withContext (fun s =>
        {| strokeStyle := strokeStyle s; fillStyle := fillStyle s;
           lineWidth := v; lineCap := lineCap s; lineJoin := lineJoin s;
           globalCompositeOperation := globalCompositeOperation s;
           path := path s |}))
  else ret tt.

Definition set_lineCap (ctx : CanvasRef) (v : LineCap) : Dom unit :=
  update ctx (withContext (fun s =>
    {| strokeStyle := strokeStyle s; fillStyle := fillStyle s;
       lineWidth := lineWidth s; lineCap := v; lineJoin := lineJoin s;
       globalCompositeOperation := globalCompositeOperation s;
       path := path s |})).

Definition set_lineJoin (ctx : CanvasRef) (v : LineJoin) : Dom unit :=
  update ctx (withContext (fun s =>
    {| strokeStyle := strokeStyle s; fillStyle := fillStyle s;
       lineWidth := lineWidth s; lineCap := lineCap s; lineJoin := v;
       globalCompositeOperation := globalCompositeOperation s;
       path := path s |})).

Definition set_globalCompositeOperation (ctx : CanvasRef) (v : CompositeOp)
  : Dom unit :=
  update ctx (withContext (fun s =>
    {| strokeStyle := strokeStyle s; fillStyle := fillStyle s;
       lineWidth := lineWidth s; lineCap := lineCap s; lineJoin := lineJoin s;
       globalCompositeOperation := v; path := path s |})).

Definition setPath (p : list Subpath) (s : Context2D) : Context2D :=
  {| strokeStyle := strokeStyle s; fillStyle := fillStyle s;
     lineWidth := lineWidth s; lineCap := lineCap s; lineJoin := lineJoin s;
     globalCompositeOperation := globalCompositeOperation s; path := p |}.

(** Path building. Non-finite coordinates are ignored; [lineTo] on an
    empty path starts a subpath, otherwise it extends the last one. *)
Definition beginPath (ctx : CanvasRef) : Dom unit :=
  update ctx (withContext (setPath [])).

Definition moveTo (ctx : CanvasRef) (x y : number) : Dom unit :=
  if allFinite [x; y]
  then update ctx (withContext (fun s => setPath (path s ++ [[(x, y)]]) s))
  else ret tt.

Definition extendLast (pt : number * number) (p : list Subpath)
  : list Subpath :=
  match p with
  | [] => [[pt]]
  | _ => alter (fun sp : Subpath => sp ++ [pt]) (length p - 1)%nat p
  end.

Definition lineTo (ctx : CanvasRef) (x y : number) : Dom unit :=
  if allFinite [x; y]
  then update ctx (withContext (fun s => setPath (extendLast (x, y) (path s)) s))
  else ret tt.

(** [ctx.stroke()]: the subpaths that have a line are painted with the
    current stroke attributes. *)
Definition stroke (ctx : CanvasRef) : Dom unit :=
  update ctx (paint (fun s =>
    OpStroke (filter (fun sp : Subpath => 2 <= length sp)%nat (path s))
      (strokeStyle s) (lineWidth s) (lineCap s) (lineJoin s)
      (globalCompositeOperation s))).

Definition clearRect (ctx : CanvasRef) (x y w h : number) : Dom unit :=
  if allFinite [x; y; w; h]
  then update ctx (paint (fun _ => OpClearRect x y w h))
  else ret tt.

Definition fillRect (ctx : CanvasRef) (x y w h : number) : Dom unit :=
  if allFinite [x; y; w; h] && negb (is_zero w) && negb (is_zero h)
  then update ctx (paint (fun s =>
         OpFillRect x y w h (fillStyle s) (globalCompositeOperation s)))
  else ret tt.

(** [ctx.drawImage(image, dx, dy)] with a canvas as the image: drawn at
    its own size; a source without pixels is an error. *)
Definition drawImage (ctx : CanvasRef) (image : CanvasRef) (dx dy : number)
  : Dom unit :=
  fun σ =>
    match σ !! image with
    | Some src =>
        if (width src =? 0) || (height src =? 0)
        then (Throw "InvalidStateError", σ)
        else if allFinite [dx; dy]
        then update ctx (paint (fun s =>
               OpDrawImage (width src) (height src) (bitmap src) dx dy
                 (globalCompositeOperation s))) σ
        else (Normal tt, σ)
    | None => (Throw "TypeError", σ)
    end.

(** A [data:] URL, kept as the image it encodes rather than as its
    base64 text; [DataEmpty] is the URL [data:,] of a canvas without
    pixels. *)
Inductive DataURL :=
| DataEmpty
| DataImage (type : string) (w h : Z) (pixels : list PaintOp).

Definition toDataURL (canvas : CanvasRef) (type : string) : Dom DataURL :=
  fun σ =>
    match σ !! canvas with
    | Some cv =>
        if (width cv =? 0) || (height cv =? 0)
        then (Normal DataEmpty, σ)
        else (Normal (DataImage type (width cv) (height cv) (bitmap cv)), σ)
    | None => (Throw "TypeError", σ)
    end.

End DOM.

(** An [<input type="range">] with integer bounds and the default step:
    whatever position is asked for, the value the control reports is an
    integer between [min] and [max] ([min] when the bounds are
    inverted), printed in decimal. *)
Module RangeInput.

Definition value (min max requested : Z) : string :=
  JS.integerToString
    (if max <? min then min else Z.max min (Z.min requested max)).

End RangeInput.

(* ===================================================================== *)
(** ** The component *)
(* ===================================================================== *)

Module SketchPad.

Import JS DOM.

(** [AspectRatio] of [App.tsx]: ['1:1' | '2:3' | '3:2']. *)
Inductive AspectRatio := Ratio_1_1 | Ratio_2_3 | Ratio_3_2.

Inductive Tool := brush | eraser.

Record Point := { x : number; y : number }.

Record Stroke := {
  points : list Point;
  color : string;
  width : number;
  tool : Tool
}.

Definition ASPECT_RATIO_MAP (key : AspectRatio) : number :=
  match key with
  | Ratio_1_1 => 1
  | Ratio_2_3 => 2 / 3
  | Ratio_3_2 => 3 / 2
  end%float.

(** The [useState] slots of the component, with the [aspectRatio] slot
    of [App] that reaches it as a prop. *)
Record State := {
  aspectRatio : AspectRatio;
  isDrawing : bool;
  strokes : list Stroke;
  currentPath : option Stroke;
  activeTool : Tool;
  brushColor : string;
  brushSize : number;
  eraserSize : number
}.

Definition initialState : State :=
  {| aspectRatio := Ratio_3_2;
     isDrawing := false;
     strokes := [];
     currentPath := None;
     activeTool := brush;
     brushColor := "#EF4444";
     brushSize := 5%float;
     eraserSize := 20%float |}.

Record Color := { name : string; value : string }.

Definition colors : list Color :=
  [ {| name := "Red"; value := "#EF4444" |};
    {| name := "Blue"; value := "#3B82F6" |};
    {| name := "Green"; value := "#22C55E" |};
    {| name := "White"; value := "#FFFFFF" |} ].

(** *** State updates *)

(** A call of a state setter, with a value or with an updater function. *)
Inductive Update :=
| setAspectRatio (v : AspectRatio)
| setIsDrawing (v : bool)
| setStrokes (v : list Stroke)
| setStrokesWith (f : list Stroke -> list Stroke)
| setCurrentPath (v : option Stroke)
| setCurrentPathWith (f : option Stroke -> option Stroke)
| setActiveTool (v : Tool)
| setBrushColor (v : string)
| setBrushSize (v : number)
| setEraserSize (v : number).

Definition withStrokes (v : list Stroke) (st : State) : State :=
  {| aspectRatio := aspectRatio st; isDrawing := isDrawing st;
     strokes := v; currentPath := currentPath st;
     activeTool := activeTool st; brushColor := brushColor st;
     brushSize := brushSize st; eraserSize := eraserSize st |}.

Definition withCurrentPath (v : option Stroke) (st : State) : State :=
  {| aspectRatio := aspectRatio st; isDrawing := isDrawing st;
     strokes := strokes st; currentPath := v;
     activeTool := activeTool st; brushColor := brushColor st;
     brushSize := brushSize st; eraserSize := eraserSize st |}.

Definition applyUpdate (st : State) (u : Update) : State :=
  match u with
  | setAspectRatio v =>
      {| aspectRatio := v; isDrawing := isDrawing st;
         strokes := strokes st; currentPath := currentPath st;
         activeTool := activeTool st; brushColor := brushColor st;
         brushSize := brushSize st; eraserSize := eraserSize st |}
  | setIsDrawing v =>
      {| aspectRatio := aspectRatio st; isDrawing := v;
         strokes := strokes st; currentPath := currentPath st;
         activeTool := activeTool st; brushColor := brushColor st;
         brushSize := brushSize st; eraserSize := eraserSize st |}
  | setStrokes v => withStrokes v st
  | setStrokesWith f => withStrokes (f (strokes st)) st
  | setCurrentPath v => withCurrentPath v st
  | setCurrentPathWith f => withCurrentPath (f (currentPath st)) st
  | setActiveTool v =>
      {| aspectRatio := aspectRatio st; isDrawing := isDrawing st;
         strokes := strokes st; currentPath := currentPath st;
         activeTool := v; brushColor := brushColor st;
         brushSize := brushSize st; eraserSize := eraserSize st |}
  | setBrushColor v =>
      {| aspectRatio := aspectRatio st; isDrawing := isDrawing st;
         strokes := strokes st; currentPath := currentPath st;
         activeTool := activeTool st; brushColor := v;
         brushSize := brushSize st; eraserSize := eraserSize st |}
  | setBrushSize v =>
      {| aspectRatio := aspectRatio st; isDrawing := isDrawing st;
         strokes := strokes st; currentPath := currentPath st;
         activeTool := activeTool st; brushColor := brushColor st;
         brushSize := v; eraserSize := eraserSize st |}
  | setEraserSize v =>
      {| aspectRatio := aspectRatio st; isDrawing := isDrawing st;
         strokes := strokes st; currentPath := currentPath st;
         activeTool := activeTool st; brushColor := brushColor st;
         brushSize := brushSize st; eraserSize := v |}
  end.

(** The state of the next render: the queued updates applied in order. *)
Definition applyUpdates (st : State) (queue : list Update) : State :=
  fold_left applyUpdate queue st.

(** An event handler: the updates it queued, and how it completed. A
    handler that throws keeps what it queued before. *)
Definition Handler (A : Type) : Type := (list Update * completion A)%type.

Definition hret {A} (a : A) : Handler A := ([], Normal a).

Definition hbind {A B} (m : Handler A) (k : A -> Handler B) : Handler B :=
  match m with
  | (q, Normal a) => let '(q', r) := k a in (q ++ q', r)
  | (q, Throw e) => (q, Throw e)
  end.

Definition call (u : Update) : Handler unit := ([u], Normal tt).

Definition eval {A} (c : completion A) : Handler A := ([], c).

Declare Scope handler_scope.
Delimit Scope handler_scope with handler.
Notation "x <- m ;; k" := (hbind m (fun x => k))
  (at level 100, m at next level, right associativity) : handler_scope.
Notation "m ;; k" := (hbind m (fun _ => k))
  (at level 100, right associativity) : handler_scope.

(** *** Pointer input *)

Record Touch := { clientX : number; clientY : number }.

(** [React.MouseEvent | React.TouchEvent]. *)
Inductive PointerInput :=
| MouseEvent (clientX clientY : number)
| TouchEvent (touches : list Touch).

(** [canvas] is [canvasRef.current]. Reading [clientX] of a missing first
    touch is a [TypeError]. *)
Definition getCanvasCoordinates (canvas : option HTMLCanvasElement)
    (e : PointerInput) : completion Point :=
  match canvas with
  | None => Normal {| x := 0; y := 0 |}
  | Some canvas =>
      let rect := getBoundingClientRect canvas in
      let touch :=
        match e with
        | TouchEvent touches => touches !! 0%nat
        | MouseEvent cx cy => Some {| clientX := cx; clientY := cy |}
        end in
      match touch with
      | Some touch =>
          Normal {| x := clientX touch - left rect;
                    y := clientY touch - top rect |}
      | None => Throw "TypeError"
      end
  end%float.

(** *** Event handlers

    Each takes the state of the render it closes over. *)

Definition handleMouseDown (canvas : option HTMLCanvasElement) (st : State)
    (e : PointerInput) : Handler unit :=
  (call (setIsDrawing true) ;;
   point <- eval (getCanvasCoordinates canvas e) ;;
   call (setCurrentPath (Some
     {| points := [point];
        color := brushColor st;
        width := match activeTool st with
                 | brush => brushSize st
                 | eraser => eraserSize st
                 end;
        tool := activeTool st |})))%handler.

Definition handleMouseMove (canvas : option HTMLCanvasElement) (st : State)
    (e : PointerInput) : Handler unit :=
  if negb (isDrawing st) || negb (bool_decide (is_Some (currentPath st)))
  then hret tt
  else
    (point <- eval (getCanvasCoordinates canvas e) ;;
     call (setCurrentPathWith (fun prev =>
       match prev with
       | Some prev =>
           Some {| points := points prev ++ [point]; color := color prev;
                   width := width prev; tool := tool prev |}
       | None => None
       end)))%handler.

Definition handleMouseUp (st : State) : Handler unit :=
  ((match currentPath st with
    | Some currentPath => call (setStrokesWith (fun prev => prev ++ [currentPath]))
    | None => hret tt
    end) ;;
   call (setCurrentPath None) ;;
   call (setIsDrawing false))%handler.

Definition handleUndo (st : State) : Handler unit :=
  call (setStrokes (slice (strokes st) 0 (-1))).

Definition handleClear (st : State) : Handler unit :=
  call (setStrokes []).

(** The [onClick] of a colour button, of the eraser button and of an
    aspect-ratio button; the [onChange] of the two sliders, given
    [e.target.value]. *)
Definition onClickColor (color : Color) : Handler unit :=
  (call (setBrushColor (value color)) ;; call (setActiveTool brush))%handler.

Definition onClickEraser : Handler unit := call (setActiveTool eraser).

Definition onClickRatio (ratio : AspectRatio) : Handler unit :=
  call (setAspectRatio ratio).

Definition onChangeBrushSize (targetValue : string) : Handler unit :=
  call (setBrushSize (parseInt targetValue)).

Definition onChangeEraserSize (targetValue : string) : Handler unit :=
  call (setEraserSize (parseInt targetValue)).

(** *** Rendering *)

Definition draw (canvasRef : option CanvasRef) (strokes : list Stroke)
    (currentPath : option Stroke) : Dom unit :=
  match canvasRef with
  | None => ret tt
  | Some canvas =>
      (ctx <- getContext2d canvas ;;
       match ctx with
       | None => ret tt
       | Some ctx =>
           w <- getWidth canvas ;;
           h <- getHeight canvas ;;
           clearRect ctx 0 0 (of_Z w) (of_Z h) ;;
           forEach (map Some strokes ++ [currentPath]) (fun stroke =>
             match stroke with
             | None => ret tt
             | Some stroke =>
                 match points stroke with
                 | [] => ret tt
                 | first :: _ =>
                     beginPath ctx ;;
                     set_strokeStyle ctx (color stroke) ;;
                     set_lineWidth ctx (width stroke) ;;
                     set_lineCap ctx CapRound ;;
                     set_lineJoin ctx JoinRound ;;
                     set_globalCompositeOperation ctx
                       (match tool stroke with
                        | eraser => DestinationOut
                        | brush => SourceOver
                        end) ;;
                     moveTo ctx (x first) (y first) ;;
                     forEach (points stroke) (fun point =>
                       lineTo ctx (x point) (y point)) ;;
                     DOM.stroke ctx
                 end
             end) ;;
           set_globalCompositeOperation ctx SourceOver
       end)%dom
  end.

(** *** Export *)

Definition getCanvasData (canvasRef : option CanvasRef)
  : Dom (option DataURL) :=
  match canvasRef with
  | Some canvas =>
      (tempCanvas <- createCanvas ;;
       w <- getWidth canvas ;;
       setWidth tempCanvas w ;;
       h <- getHeight canvas ;;
       setHeight tempCanvas h ;;
       tempCtx <- getContext2d tempCanvas ;;
       match tempCtx with
       | None => ret None
       | Some tempCtx =>
           set_fillStyle tempCtx "#0D1117" ;;
           tw <- getWidth tempCanvas ;;
           th <- getHeight tempCanvas ;;
           fillRect tempCtx 0 0 (of_Z tw) (of_Z th) ;;
           drawImage tempCtx canvas 0 0 ;;
           url <- toDataURL tempCanvas "image/png" ;;
           ret (Some url)
       end)%dom
  | None => ret None
  end.

(** *** The component in the page *)

(** The dimension a canvas takes from a numeric [width] or [height]
    attribute: the integer part of a non-negative number (printed
    without an exponent, that is below 10^21), the default otherwise. *)
Definition dimensionOfAttribute (v : number) (default : Z) : Z :=
  match Prim2SF v with
  | S754_zero _ => 0
  | S754_finite false m e =>
      let n := if 0 <=? e then Z.pos m * 2 ^ e else Z.pos m / 2 ^ (- e) in
      if n <=? 2147483647 then n else default
  | _ => default
  end.

(** [width={800 * ASPECT_RATIO_MAP[aspectRatio]}] and [height={800}]. *)
Definition canvasWidth (aspectRatio : AspectRatio) : Z :=
  dimensionOfAttribute (800 * ASPECT_RATIO_MAP aspectRatio)%float 300.

Definition canvasHeight : Z := dimensionOfAttribute 800%float 150.

Record World := {
  state : State;
  canvasRef : option CanvasRef;
  store : Store
}.

(** [canvasRef.current]. *)
Definition current (w : World) : option HTMLCanvasElement :=
  canvasRef w ≫= (fun canvas => store w !! canvas).

(** What can happen to the mounted component: the listeners of the
    canvas, the buttons and sliders of the toolbar, and the page moving
    the canvas on the screen. *)
Inductive Event :=
| onMouseDown (clientX clientY : number)
| onMouseMove (clientX clientY : number)
| onMouseUp
| onMouseLeave
| onTouchStart (touches : list Touch)
| onTouchMove (touches : list Touch)
| onTouchEnd
| clickUndo
| clickClear
| clickColor (index : nat)
| clickEraser
| clickRatio (ratio : AspectRatio)
| changeBrushSize (requested : Z)
| changeEraserSize (requested : Z)
| layout (rect : DOMRect).

Definition handlerOf (w : World) (ev : Event) : Handler unit :=
  match ev with
  | onMouseDown cx cy => handleMouseDown (current w) (state w) (MouseEvent cx cy)
  | onMouseMove cx cy => handleMouseMove (current w) (state w) (MouseEvent cx cy)
  | onMouseUp => handleMouseUp (state w)
  | onMouseLeave => handleMouseUp (state w)
  | onTouchStart touches => handleMouseDown (current w) (state w) (TouchEvent touches)
  | onTouchMove touches => handleMouseMove (current w) (state w) (TouchEvent touches)
  | onTouchEnd => handleMouseUp (state w)
  | clickUndo => handleUndo (state w)
  | clickClear => handleClear (state w)
  | clickColor index =>
      match colors !! index with
      | Some color => onClickColor color
      | None => hret tt
      end
  | clickEraser => onClickEraser
  | clickRatio ratio => onClickRatio ratio
  | changeBrushSize requested => onChangeBrushSize (RangeInput.value 1 50 requested)
  | changeEraserSize requested => onChangeEraserSize (RangeInput.value 1 100 requested)
  | layout _ => hret tt
  end.

(** Whether an update leaves [strokes] or [currentPath] holding another
    object than before: the arrays and stroke records the handlers build
    are new objects, [null] is [null]. These two slots are the
    dependencies of the [draw] callback. *)
Definition replacesDrawInput (st : State) (u : Update) : bool :=
  match u with
  | setStrokes _ => true
  | setStrokesWith _ => true
  | setCurrentPath v =>
      bool_decide (is_Some v) || bool_decide (is_Some (currentPath st))
  | setCurrentPathWith f =>
      bool_decide (is_Some (f (currentPath st)))
      || bool_decide (is_Some (currentPath st))
  | _ => false
  end.

Fixpoint drawInputChanged (st : State) (queue : list Update) : bool :=
  match queue with
  | [] => false
  | u :: queue' =>
      replacesDrawInput st u || drawInputChanged (applyUpdate st u) queue'
  end.

Definition ratio_eqb (a b : AspectRatio) : bool :=
  match a, b with
  | Ratio_1_1, Ratio_1_1 | Ratio_2_3, Ratio_2_3 | Ratio_3_2, Ratio_3_2 => true
  | _, _ => false
  end.

Definition exec {A} (m : Dom A) (σ : Store) : Store := (m σ).2.

Definition moveCanvas (rect : DOMRect) (cv : HTMLCanvasElement)
  : HTMLCanvasElement :=
  {| DOM.width := DOM.width cv; height := height cv;
     boundingClientRect := rect;
     contextMode := contextMode cv; bitmap := bitmap cv |}.

(** One event together with the render of its updates: the handler runs
    on the current render, its updates give the next state, and the next
    render is committed: the [width] attribute of the canvas is
    rewritten when its value changed, and the effect calls [draw] when
    the callback was rebuilt. For a move or a leave that render is a
    later task, and further events may be handled before it: [dispatch]
    and [flush] below take the event and the render apart. *)
Definition step (w : World) (ev : Event) : World :=
  let queue := (handlerOf w ev).1 in
  let st' := applyUpdates (state w) queue in
  let σ0 :=
    match ev, canvasRef w with
    | layout rect, Some canvas => alter (moveCanvas rect) canvas (store w)
    | _, _ => store w
    end in
  let σ1 :=
    match canvasRef w with
    | Some canvas =>
        if ratio_eqb (aspectRatio st') (aspectRatio (state w)) then σ0
        else exec (setWidth canvas (canvasWidth (aspectRatio st'))) σ0
    | None => σ0
    end in
  let σ2 :=
    if drawInputChanged (state w) queue
    then exec (draw (canvasRef w) (strokes st') (currentPath st')) σ1
    else σ1 in
  {| state := st'; canvasRef := canvasRef w; store := σ2 |}.

Definition run (w : World) (evs : list Event) : World :=
  fold_left step evs w.

(** [getCanvasData] called through the imperative handle, as the
    generate action of [App] does: it runs on the DOM and calls no state
    setter. *)
Definition exportNow (w : World) : completion (option DataURL) * World :=
  let '(result, σ) := getCanvasData (canvasRef w) (store w) in
  (result, {| state := state w; canvasRef := canvasRef w; store := σ |}).

(** The component once mounted: the canvas element is in the document at
    [rect], sized for the initial aspect ratio, and the effect has drawn
    the empty log. *)
Definition mounted (rect : DOMRect) : World :=
  let canvas : CanvasRef := 0%nat in
  let σ : Store :=
    {[ canvas :=
         {| DOM.width := canvasWidth (aspectRatio initialState);
            height := canvasHeight;
            boundingClientRect := rect;
            contextMode := NoContext;
            bitmap := [] |} ]} in
  {| state := initialState;
     canvasRef := Some canvas;
     store := exec (draw (Some canvas) [] None) σ |}.

(** *** Renders that wait

    React renders the updates of a press, a release, a click or a change
    before it returns to the browser. The updates of a move or of a
    leave wait for a task of React's scheduler: an event that arrives
    before that task is handled on the render before it, and a render
    made meanwhile for the updates of a press, release, click or change
    skips the waiting updates and keeps them for the task, each with
    every later update of its slot behind it. [step] is an event
    together with the render of its updates; what follows takes the two
    apart. *)

(** The priority of an update: queued by a discrete event, queued by a
    continuous event, or rendered before and kept behind a skipped
    update of its slot. *)
Inductive Lane := NoLane | SyncLane | InputContinuousLane.

(** The priority React gives the updates of an event: a move and a
    leave are continuous events, every other event of the component is
    discrete. ([layout] is no event of React and queues nothing.) *)
Definition eventPriority (ev : Event) : Lane :=
  match ev with
  | onMouseMove _ _ | onMouseLeave | onTouchMove _ => InputContinuousLane
  | _ => SyncLane
  end.

(** Whether a render at [renderLanes] applies an update of [lane]. *)
Definition isSubsetOfLanes (renderLanes lane : Lane) : bool :=
  match lane, renderLanes with
  | NoLane, _ => true
  | SyncLane, SyncLane => true
  | InputContinuousLane, InputContinuousLane => true
  | _, _ => false
  end.

(** The [useState] slot an update is queued on. *)
Inductive Slot :=
| AspectRatioSlot | IsDrawingSlot | StrokesSlot | CurrentPathSlot
| ActiveToolSlot | BrushColorSlot | BrushSizeSlot | EraserSizeSlot.

#[global] Instance Slot_eq_dec : EqDecision Slot.
Proof. solve_decision. Defined.

Definition slotOf (u : Update) : Slot :=
  match u with
  | setAspectRatio _ => AspectRatioSlot
  | setIsDrawing _ => IsDrawingSlot
  | setStrokes _ | setStrokesWith _ => StrokesSlot
  | setCurrentPath _ | setCurrentPathWith _ => CurrentPathSlot
  | setActiveTool _ => ActiveToolSlot
  | setBrushColor _ => BrushColorSlot
  | setBrushSize _ => BrushSizeSlot
  | setEraserSize _ => EraserSizeSlot
  end.

(** The component between two renders: the render that is committed,
    whose state the handlers close over, with the document; and what
    waits. [baseQueue] holds, for each slot, the updates from the first
    skipped one on, and [baseState] the state before them. *)
Record Fiber := {
  committed : World;
  baseState : State;
  baseQueue : list (Lane * Update)
}.

(** One update of the queue in a render at [renderLanes], as React's
    [updateReducer] treats it: [acc] is the new state, the new base
    state and the new base queue so far. An update the render skips is
    kept; an update it applies is kept too, at [NoLane], when an update
    of its slot was skipped before, and is final otherwise. *)
Definition processUpdate (renderLanes : Lane)
    (acc : State * State * list (Lane * Update)) (entry : Lane * Update)
  : State * State * list (Lane * Update) :=
  let newState := acc.1.1 in
  let newBaseState := acc.1.2 in
  let newBaseQueue := acc.2 in
  let u := entry.2 in
  if isSubsetOfLanes renderLanes entry.1 then
    if existsb (fun e => bool_decide (slotOf e.2 = slotOf u)) newBaseQueue
    then (applyUpdate newState u, newBaseState, newBaseQueue ++ [(NoLane, u)])
    else (applyUpdate newState u, applyUpdate newBaseState u, newBaseQueue)
  else (newState, newBaseState, newBaseQueue ++ [entry]).

Definition processQueue (renderLanes : Lane) (base : State)
    (entries : list (Lane * Update)) : State * State * list (Lane * Update) :=
  fold_left (processUpdate renderLanes) entries (base, base, []).

(** The last update of a slot that a render applied. *)
Definition lastWrite (slot : Slot) (applied : list (Lane * Update))
  : option (Lane * Update) :=
  last (filter (fun e => slotOf e.2 = slot) applied).

(** Whether a render leaves [strokes] or [currentPath] holding another
    object than the render before, so that the [draw] callback is
    rebuilt: the value of a setter call is the same object however often
    it is applied, an updater function builds a new object each time it
    runs, [null] is [null]. *)
Definition drawRebuilt (before after : State) (applied : list (Lane * Update))
  : bool :=
  match lastWrite StrokesSlot applied with
  | None | Some (NoLane, setStrokes _) => false
  | Some _ => true
  end
  || match lastWrite CurrentPathSlot applied with
     | None | Some (NoLane, setCurrentPath _) => false
     | Some _ =>
         bool_decide (is_Some (currentPath after))
         || bool_decide (is_Some (currentPath before))
     end.

(** A render at [renderLanes], with the updates [queued] by the event
    that asked for it, and its commit: the [width] attribute of the
    canvas is rewritten when its value changed, and the effect calls
    [draw] when the callback was rebuilt. *)
Definition renderAt (renderLanes : Lane) (f : Fiber) (queued : list Update)
  : Fiber :=
  let w := committed f in
  let entries := baseQueue f ++ map (pair renderLanes) queued in
  let result := processQueue renderLanes (baseState f) entries in
  let st' := result.1.1 in
  let applied :=
    filter (fun e => isSubsetOfLanes renderLanes e.1 = true) entries in
  let σ1 :=
    match canvasRef w with
    | Some canvas =>
        if ratio_eqb (aspectRatio st') (aspectRatio (state w)) then store w
        else exec (setWidth canvas (canvasWidth (aspectRatio st'))) (store w)
    | None => store w
    end in
  let σ2 :=
    if drawRebuilt (state w) st' applied
    then exec (draw (canvasRef w) (strokes st') (currentPath st')) σ1
    else σ1 in
  {| committed := {| state := st'; canvasRef := canvasRef w; store := σ2 |};
     baseState := result.1.2;
     baseQueue := result.2 |}.

(** An event reaches the component: its handler runs on the committed
    render. The updates of a discrete event are rendered at once, those
    of a continuous event wait; a handler that queues nothing asks for
    no render. The page moving the canvas involves neither. *)
Definition dispatch (f : Fiber) (ev : Event) : Fiber :=
  let w := committed f in
  match ev with
  | layout rect =>
      {| committed :=
           {| state := state w; canvasRef := canvasRef w;
              store := match canvasRef w with
                       | Some canvas => alter (moveCanvas rect) canvas (store w)
                       | None => store w
                       end |};
         baseState := baseState f;
         baseQueue := baseQueue f |}
  | _ =>
      match (handlerOf w ev).1, eventPriority ev with
      | [], _ => f
      | queue, InputContinuousLane =>
          {| committed := w;
             baseState := baseState f;
             baseQueue := baseQueue f ++ map (pair InputContinuousLane) queue |}
      | queue, _ => renderAt SyncLane f queue
      end
  end.

(** The task of the scheduler: the render of everything that waits. *)
Definition flush (f : Fiber) : Fiber :=
  match baseQueue f with
  | [] => f
  | _ => renderAt InputContinuousLane f []
  end.

(** What the browser runs, one after the other. *)
Inductive Task :=
| handle (ev : Event)
| scheduledRender.

Definition perform (f : Fiber) (task : Task) : Fiber :=
  match task with
  | handle ev => dispatch f ev
  | scheduledRender => flush f
  end.

Definition schedule (f : Fiber) (tasks : list Task) : Fiber :=
  fold_left perform tasks f.

Definition mountedFiber (rect : DOMRect) : Fiber :=
  {| committed := mounted rect; baseState := initialState; baseQueue := [] |}.

End SketchPad.

(* ===================================================================== *)
(** ** The image service ([src/services/geminiService.ts]) *)
(* ===================================================================== *)

Module GeminiService.

Import JS.

(** [s || fallback] on strings: the empty string is falsy. *)
Definition orElse (s fallback : string) : string :=
  match s with
  | EmptyString => fallback
  | _ => s
  end.

(** [s.split(separator)] with a separator of one code unit. *)
Fixpoint split (s : string) (separator : ascii) : list string :=
  match s with
  | EmptyString => [EmptyString]
  | String c s' =>
      if Ascii.eqb c separator then EmptyString :: split s' separator
      else match split s' separator with
           | piece :: pieces => String c piece :: pieces
           | [] => [String c EmptyString]
           end
  end.

(** The regular expression [/:(.*?);/]: [.] is any code unit but a line
    terminator, [*?] takes as few as possible. [lazyToSemicolon s] is
    the capture when [(.*?);] matches at the start of [s];
    [matchColonSemicolon s] is the capture of the leftmost match in
    [s], if there is one. *)
Definition isLineTerminator (c : ascii) : bool :=
  let n := nat_of_ascii c in ((n =? 10) || (n =? 13))%nat.

Fixpoint lazyToSemicolon (s : string) : option string :=
  match s with
  | EmptyString => None
  | String c s' =>
      if Ascii.eqb c ";" then Some EmptyString
      else if isLineTerminator c then None
      else match lazyToSemicolon s' with
           | Some capture => Some (String c capture)
           | None => None
           end
  end.

Fixpoint matchColonSemicolon (s : string) : option string :=
  match s with
  | EmptyString => None
  | String c s' =>
      if Ascii.eqb c ":"
      then match lazyToSemicolon s' with
           | Some capture => Some capture
           | None => matchColonSemicolon s'
           end
      else matchColonSemicolon s'
  end.

(** A part of a request: [{ text }] or [{ inlineData: { data, mimeType } }];
    [data] is [undefined] when the data URL had no comma. *)
Inductive Part :=
| TextPart (text : string)
| InlineDataPart (data : option string) (mimeType : string).

(** A [File], as far as the service looks at it: its [type] and what a
    [FileReader] holds in [result] once [readAsDataURL] has loaded it. *)
Record File := { type : string; readAsDataURL : string }.

Definition fileToGenerativePart (file : File) : Part :=
  let result := readAsDataURL file in
  InlineDataPart (split result "," !! 1%nat) (type file).

(** [const [meta, data] = base64DataUrl.split(',')]; calling [match] on a
    missing [meta] would be a [TypeError]. *)
Definition base64ToGenerativePart (base64DataUrl : string) : completion Part :=
  let pieces := split base64DataUrl "," in
  let meta := pieces !! 0%nat in
  let data := pieces !! 1%nat in
  match meta with
  | Some meta =>
      let mimeType := default "image/png" (matchColonSemicolon meta) in
      Normal (InlineDataPart data mimeType)
  | None => Throw "TypeError"
  end.

Record GenerateImageParams := {
  refImage1 : option File;
  refImage2 : option File;
  bgImage : option File;
  prompt1 : string;
  prompt2 : string;
  promptOverall : string;
  sketchImage : string
}.

Inductive Modality := IMAGE | TEXT.

(** The argument of [ai.models.generateContent]. *)
Record Request := {
  model : string;
  contents : list Part;
  responseModalities : list Modality
}.

(** The response, as far as [generateImage] reads it; every property is
    optional in the service's types. *)
Record Blob := { data : option string }.
Record ResponsePart := { inlineData : option Blob }.
Record Content := { parts : option (list ResponsePart) }.
Record Candidate := { content : option Content }.
Record Response := { candidates : option (list Candidate) }.

Definition quote : string := String "034" EmptyString.
Definition newline : string := String "010" EmptyString.

Definition combinedPrompt (promptOverall prompt1 prompt2 : string) : string :=
  String.concat newline
    [ EmptyString;
      "You are an expert AI image generator. Your task is to create a single, cohesive image based on the provided elements. Follow these instructions carefully:";
      EmptyString;
      "**Overall Composition Prompt:**";
      orElse promptOverall "A fantasy art scene.";
      EmptyString;
      "---";
      EmptyString;
      "**Character 1 (Associated with Reference Image 1 and RED sketch):**";
      "- **Description:** " +:+ orElse prompt1 "The character from reference image 1.";
      "- **Pose:** The pose for this character is indicated by the **RED** lines in the sketch image.";
      EmptyString;
      "**Character 2 (Associated with Reference Image 2 and BLUE sketch):**";
      "- **Description:** " +:+ orElse prompt2 "The character from reference image 2.";
      "- **Pose:** The pose for this character is indicated by the **BLUE** lines in the sketch image.";
      EmptyString;
      "---";
      EmptyString;
      "**Instructions:**";
      "1.  Use the provided reference images to understand the appearance of the characters.";
      "2.  Use the sketch image to determine the exact pose and placement of each character. The RED sketch is for Character 1, and the BLUE sketch is for Character 2.";
      "3.  Use the optional background image as the setting. If no background image is provided, create a background that fits the " +:+ quote +:+ "Overall Composition Prompt" +:+ quote +:+ ".";
      "4.  Synthesize all these elements into a single, high-quality image.";
      EmptyString ].

(** The inner loop over the parts of one candidate: the first part whose
    [inlineData.data] is a non-empty string. *)
Fixpoint firstInlineData (parts : list ResponsePart) : option string :=
  match parts with
  | [] => None
  | part :: rest =>
      match inlineData part with
      | Some blob =>
          match data blob with
          | Some EmptyString => firstInlineData rest
          | Some d => Some d
          | None => firstInlineData rest
          end
      | None => firstInlineData rest
      end
  end.

(** The outer loop: reading [candidate.content.parts] of a candidate
    without content, or iterating missing parts, is a [TypeError]. *)
Fixpoint firstImage (candidates : list Candidate) : completion (option string) :=
  match candidates with
  | [] => Normal None
  | candidate :: rest =>
      match content candidate with
      | Some content =>
          match parts content with
          | Some parts =>
              match firstInlineData parts with
              | Some d => Normal (Some d)
              | None => firstImage rest
              end
          | None => Throw "TypeError"
          end
      | None => Throw "TypeError"
      end
  end.

Definition andThen {A B} (c : completion A) (k : A -> completion B)
  : completion B :=
  match c with
  | Normal a => k a
  | Throw e => Throw e
  end.

Section Service.

(** [ai.models.generateContent]: the answer of the service, or the
    exception the call ends with. *)
Variable generateContent : Request -> completion Response.

(** The awaits are taken in program order; any exception of the [try]
    block is replaced by one fixed [Error]. *)
Definition generateImage (params : GenerateImageParams)
  : completion (option string) :=
  let attempt :=
    let model := "gemini-2.5-flash-image-preview" in
    let combinedPrompt :=
      combinedPrompt (promptOverall params) (prompt1 params) (prompt2 params) in
    let parts := [TextPart combinedPrompt] in
    let parts :=
      match refImage1 params with
      | Some refImage1 => parts ++ [fileToGenerativePart refImage1]
      | None => parts
      end in
    let parts :=
      match refImage2 params with
      | Some refImage2 => parts ++ [fileToGenerativePart refImage2]
      | None => parts
      end in
    let parts :=
      match bgImage params with
      | Some bgImage => parts ++ [fileToGenerativePart bgImage]
      | None => parts
      end in
    andThen (base64ToGenerativePart (sketchImage params)) (fun sketch =>
    let parts := parts ++ [sketch] in
    andThen (generateContent {| model := model; contents := parts;
                                responseModalities := [IMAGE; TEXT] |})
      (fun response =>
         firstImage (default [] (candidates response)))) in
  match attempt with
  | Normal result => Normal result
  | Throw _ =>
      Throw "Failed to generate image. Please check your inputs and API key."
  end.

End Service.

End GeminiService.

(* ===================================================================== *)
(** ** The generate action of [src/App.tsx] *)
(* ===================================================================== *)

Module App.

Import JS.

(** The slots [handleGenerate] writes. *)
Record State := {
  isLoading : bool;
  generatedImage : option string;
  error : option string
}.

Inductive Update :=
| setIsLoading (v : bool)
| setGeneratedImage (v : option string)
| setError (v : option string).

Definition applyUpdate (st : State) (u : Update) : State :=
  match u with
  | setIsLoading v =>
      {| isLoading := v; generatedImage := generatedImage st;
         error := error st |}
  | setGeneratedImage v =>
      {| isLoading := isLoading st; generatedImage := v; error := error st |}
  | setError v =>
      {| isLoading := isLoading st; generatedImage := generatedImage st;
         error := v |}
  end.

Definition applyUpdates (st : State) (queue : list Update) : State :=
  fold_left applyUpdate queue st.

(** The slots [handleGenerate] reads and hands to the service. *)
Record Inputs := {
  refImage1 : option GeminiService.File;
  refImage2 : option GeminiService.File;
  bgImage : option GeminiService.File;
  prompt1 : string;
  prompt2 : string;
  promptOverall : string
}.

(** [handleGenerate], given what [sketchPadRef.current?.getCanvasData()]
    answered and the [generateImage] it calls: the state setters it
    calls, in order, until it has run to its end. An exception of
    [generateImage] is an [Error] carrying the message. *)
Definition handleGenerate
    (generateImage : GeminiService.GenerateImageParams ->
                     completion (option string))
    (canvasData : option string) (inputs : Inputs) : list Update :=
  match canvasData with
  | None | Some EmptyString => [setError (Some "Could not get sketch data.")]
  | Some canvasData =>
      [setIsLoading true; setError None; setGeneratedImage None]
      ++ match generateImage
                 {| GeminiService.refImage1 := refImage1 inputs;
                    GeminiService.refImage2 := refImage2 inputs;
                    GeminiService.bgImage := bgImage inputs;
                    GeminiService.prompt1 := prompt1 inputs;
                    GeminiService.prompt2 := prompt2 inputs;
                    GeminiService.promptOverall := promptOverall inputs;
                    GeminiService.sketchImage := canvasData |} with
         | Normal (Some EmptyString) | Normal None =>
             [setError
                (Some "Failed to generate image. The model did not return an image.")]
         | Normal (Some result) =>
             [setGeneratedImage (Some ("data:image/png;base64," +:+ result))]
         | Throw message => [setError (Some message)]
         end
      ++ [setIsLoading false]
  end.

End App.

(* ===================================================================== *)
(** ** Vocabulary of the properties *)
(* ===================================================================== *)

Import JS DOM SketchPad.

(** The strokes a repaint goes through: the committed log, then the
    in-progress stroke when there is one. *)
Definition combined (strokes : list Stroke) (currentPath : option Stroke)
  : list Stroke :=
  strokes ++ option_list currentPath.

Definition compositeOf (t : Tool) : CompositeOp :=
  match t with
  | brush => SourceOver
  | eraser => DestinationOut
  end.

Definition vertex (p : Point) : number * number := (x p, y p).

(** One subpath from the first point through every point in order (the
    first point is thus visited twice, which gives a single-point stroke
    a line to paint). *)
Definition lineThrough (s : Stroke) : list Subpath :=
  match points s with
  | [] => []
  | first :: _ => [vertex first :: map vertex (points s)]
  end.

(** The colour a stroke's [color] denotes (black for a string that
    denotes none). *)
Definition strokeColor (s : Stroke) : RGBA :=
  default opaqueBlack (parseColor (color s)).

Definition strokePaint (s : Stroke) : PaintOp :=
  OpStroke (lineThrough s) (strokeColor s) (width s) CapRound JoinRound
    (compositeOf (tool s)).

Definition hasPoints (s : Stroke) : bool :=
  negb (length (points s) =? 0)%nat.

(** The paint a full repaint lays down after clearing. *)
Definition repaint (strokes : list Stroke) (currentPath : option Stroke)
  : list PaintOp :=
  map strokePaint (List.filter hasPoints (combined strokes currentPath)).

(** A stroke whose attributes the 2D context accepts: a colour that
    parses, a finite positive width, finite coordinates. *)
Definition finitePoint (p : Point) : bool := allFinite [x p; y p].

Definition drawable (s : Stroke) : bool :=
  bool_decide (is_Some (parseColor (color s)))
  && (isFinite (width s) && (0 <? width s)%float)
  && forallb finitePoint (points s).

(** The sizes the component gives its canvas. *)
Definition componentSized (cv : HTMLCanvasElement) : Prop :=
  exists ratio, DOM.width cv = canvasWidth ratio /\ height cv = canvasHeight.

Definition fullSurfaceClear (cv : HTMLCanvasElement) : PaintOp :=
  OpClearRect 0 0 (of_Z (DOM.width cv)) (of_Z (height cv)).

(** A canvas once its 2D context has been asked for. *)
Definition with2d (cv : HTMLCanvasElement) : HTMLCanvasElement :=
  match contextMode cv with
  | NoContext =>
      {| DOM.width := DOM.width cv; height := height cv;
         boundingClientRect := boundingClientRect cv;
         contextMode := Context2d defaultContext; bitmap := bitmap cv |}
  | _ => cv
  end.

Definition has2d (cv : HTMLCanvasElement) : Prop :=
  exists c, contextMode cv = Context2d c.

(** A canvas after one stroke of the repaint loop. *)
Definition paintedWith (s : Stroke) (cv : HTMLCanvasElement)
  : HTMLCanvasElement :=
  match contextMode cv with
  | Context2d c =>
      {| DOM.width := DOM.width cv; height := height cv;
         boundingClientRect := boundingClientRect cv;
         contextMode := Context2d
           {| strokeStyle := strokeColor s; fillStyle := fillStyle c;
              lineWidth := width s; lineCap := CapRound;
              lineJoin := JoinRound;
              globalCompositeOperation := compositeOf (tool s);
              path := lineThrough s |};
         bitmap := bitmap cv ++ [strokePaint s] |}
  | _ => cv
  end.

Definition afterStroke (o : option Stroke) (cv : HTMLCanvasElement)
  : HTMLCanvasElement :=
  match o with
  | Some s => if hasPoints s then paintedWith s cv else cv
  | None => cv
  end.

Definition drawableItem (o : option Stroke) : Prop :=
  match o with
  | Some s => drawable s = true
  | None => True
  end.

(** What painting never changes of a canvas: its size, where it is, and
    whether it is bound to a context of another type than 2D. *)
Definition boundElsewhere (m : ContextMode) : bool :=
  match m with
  | ContextOther => true
  | _ => false
  end.

Definition frame (cv : HTMLCanvasElement) : Z * Z * DOMRect * bool :=
  (DOM.width cv, height cv, boundingClientRect cv,
   boundElsewhere (contextMode cv)).

Definition sameFrame (σ σ' : Store) : Prop :=
  forall id, frame <$> σ !! id = frame <$> σ' !! id.

Definition keepsFrame {A} (m : Dom A) : Prop :=
  forall σ, sameFrame σ (m σ).2.

(** Everything but the committed log is the same in both states. *)
Definition sameExceptStrokes (st st' : State) : Prop :=
  aspectRatio st' = aspectRatio st
  /\ isDrawing st' = isDrawing st
  /\ currentPath st' = currentPath st
  /\ activeTool st' = activeTool st
  /\ brushColor st' = brushColor st
  /\ brushSize st' = brushSize st
  /\ eraserSize st' = eraserSize st.

(** The stroke a pointer-begin opens at [p] under the configuration of
    [st], and a stroke with further points appended. *)
Definition opened (st : State) (p : Point) : Stroke :=
  {| points := [p];
     color := brushColor st;
     width := match activeTool st with
              | brush => brushSize st
              | eraser => eraserSize st
              end;
     tool := activeTool st |}.

Definition extended (s : Stroke) (ps : list Point) : Stroke :=
  {| points := points s ++ ps; color := color s; width := width s;
     tool := tool s |}.

(** The begin and move events that deliver a given pointer input. *)
Definition beginOf (e : PointerInput) : Event :=
  match e with
  | MouseEvent cx cy => onMouseDown cx cy
  | TouchEvent touches => onTouchStart touches
  end.

Definition moveOf (e : PointerInput) : Event :=
  match e with
  | MouseEvent cx cy => onMouseMove cx cy
  | TouchEvent touches => onTouchMove touches
  end.

Definition pointerEnd (ev : Event) : Prop :=
  ev = onMouseUp \/ ev = onMouseLeave \/ ev = onTouchEnd.

(** The position the component computes for an input in a world. *)
Definition positionIn (w : World) (e : PointerInput) : completion Point :=
  getCanvasCoordinates (current w) e.

(** A width that is a whole number between the bounds. *)
Definition integerIn (lo hi : Z) (v : number) : Prop :=
  exists z, lo <= z <= hi /\ v = of_Z z.

(** A width between the bounds in the order of numbers ([NaN] is not). *)
Definition withinBounds (lo hi : Z) (v : number) : Prop :=
  (of_Z lo <=? v)%float = true /\ (v <=? of_Z hi)%float = true.

(** The bounds of the slider that sets the width of each tool. *)
Definition maxWidth (t : Tool) : Z :=
  match t with
  | brush => 50
  | eraser => 100
  end.

Definition paletteColor (c : string) : Prop :=
  exists entry, In entry colors /\ c = value entry.

Definition soundStroke (s : Stroke) : Prop :=
  (1 <= length (points s))%nat
  /\ paletteColor (color s)
  /\ integerIn 1 (maxWidth (tool s)) (width s).

Definition soundState (st : State) : Prop :=
  integerIn 1 50 (brushSize st)
  /\ integerIn 1 100 (eraserSize st)
  /\ paletteColor (brushColor st)
  /\ Forall soundStroke (combined (strokes st) (currentPath st)).

(** The canvas of a world is there, has the size its aspect ratio asks
    for, and is free for a 2D context. *)
Definition sizedFor (w : World) : Prop :=
  exists canvas cv,
    canvasRef w = Some canvas /\ store w !! canvas = Some cv
    /\ DOM.width cv = canvasWidth (aspectRatio (state w))
    /\ height cv = canvasHeight
    /\ contextMode cv <> ContextOther.

(** The claim that a pointer-begin arriving while a stroke is open is
    ignored. *)
Definition secondBeginIgnored (w : World) (e : PointerInput) : Prop :=
  isDrawing (state w) = true ->
  is_Some (currentPath (state w)) ->
  state (step w (beginOf e)) = state w.

(** The background the export paints under the sketch, and the exported
    picture of a canvas. *)
Definition background : RGBA :=
  {| red := 13; green := 17; blue := 23; alpha := 255 |}.

Definition flattened (cv : HTMLCanvasElement) : list PaintOp :=
  [ OpFillRect 0 0 (of_Z (DOM.width cv)) (of_Z (height cv)) background SourceOver;
    OpDrawImage (DOM.width cv) (height cv) (bitmap cv) 0 0 SourceOver ].

(** *** Sample data *)

Definition sampleRect : DOMRect := {| left := 10.5; top := 20 |}%float.

Definition sampleCanvas : HTMLCanvasElement :=
  {| DOM.width := 1200; height := 800; boundingClientRect := sampleRect;
     contextMode := NoContext; bitmap := [] |}.

Definition sampleStore : Store := {[ 0%nat := sampleCanvas ]}.

Definition sampleLog : list Stroke :=
  [ {| points := [ {| x := 10; y := 10 |}; {| x := 20; y := 10 |};
                   {| x := 30; y := 10 |} ];
       color := "#EF4444"; width := 5; tool := brush |};
    {| points := []; color := "#3B82F6"; width := 5; tool := brush |};
    {| points := [ {| x := 20; y := 10 |} ];
       color := "#EF4444"; width := 20; tool := eraser |} ]%float.

Definition sampleInProgress : Stroke :=
  {| points := [ {| x := 1; y := 2 |}; {| x := 3; y := 4 |} ];
     color := "#22C55E"; width := 7; tool := brush |}%float.

(** A world in which a stroke of two points is open. *)
Definition drawingWorld : World :=
  run (mounted sampleRect) [onMouseDown 15 30; onMouseMove 16 31]%float.

(** The stroke open in [drawingWorld], and where a further pointer-begin
    at (100, 100) lands. *)
Definition sampleOpen : Stroke :=
  {| points := [ {| x := 4.5; y := 10 |}; {| x := 5.5; y := 11 |} ];
     color := "#EF4444"; width := 5; tool := brush |}%float.

Definition sampleLanding : Point := {| x := 89.5; y := 80 |}%float.

(** The canvas of [drawingWorld], with what has been painted on it. *)
Definition paintedCanvas : HTMLCanvasElement :=
  default sampleCanvas (store drawingWorld !! 0%nat).

(** A world in which the eraser is the active tool. *)
Definition erasingWorld : World := run (mounted sampleRect) [clickEraser].

(** The inputs of a gesture that moves twice, by mouse and by touch, and
    the positions they are given on the mounted canvas. *)
Definition sampleMoves : list PointerInput :=
  [ MouseEvent 16 31; TouchEvent [ {| clientX := 17; clientY := 35 |} ] ]%float.

Definition sampleMovePositions : list Point :=
  [ {| x := 5.5; y := 11 |}; {| x := 6.5; y := 15 |} ]%float.

(** *** Vocabulary of the further properties *)

(** The toolbar and the page: the events that are neither a pointer
    event on the canvas nor undo nor clear. *)
Definition isConfig (ev : Event) : Prop :=
  match ev with
  | clickColor _ | clickEraser | clickRatio _
  | changeBrushSize _ | changeEraserSize _ | layout _ => True
  | _ => False
  end.


(** A world with the eraser active in which a stroke of one point is
    open, and a world with two committed strokes. *)
Definition erasingStrokeWorld : World :=
  run (mounted sampleRect) [clickEraser; onMouseDown 15 30]%float.


(** Code that completes normally, writes to no canvas of the store but
    [ctx], and leaves the frame of [ctx] as it was; [Q] is what is known
    of the value it returns. *)
Definition paintsOnly {A} (ctx : CanvasRef) (Q : A -> Prop) (m : Dom A)
  : Prop :=
  forall σ, exists a f,
    m σ = (Normal a, alter f ctx σ) /\ Q a
    /\ forall cv, frame (f cv) = frame cv.

(** Every coordinate of every stroke of a state is finite. *)
Definition finitePoints (st : State) : Prop :=
  Forall (fun s => forallb finitePoint (points s) = true)
    (combined (strokes st) (currentPath st)).

(** The live canvas shows the state: the last thing painted on it is a
    clear of the whole surface followed by the paint of the committed
    log and the in-progress stroke. *)
Definition shows (w : World) : Prop :=
  exists cv older,
    current w = Some cv
    /\ bitmap cv
       = older ++ fullSurfaceClear cv
                  :: repaint (strokes (state w)) (currentPath (state w)).

(** The events of [twoStrokeWorld]. *)
Definition twoStrokeEvents : list Event :=
  [onMouseDown 15 30; onMouseMove 16 31; onMouseUp;
   clickColor 1; onMouseDown 40 50; onMouseLeave]%float.

(** *** Vocabulary of scheduling *)

(** Nothing waits: the committed render holds every update. *)
Definition settled (f : Fiber) : Prop :=
  baseQueue f = [] /\ baseState f = state (committed f).

(** The state once everything that waits is rendered. *)
Definition eventual (f : Fiber) : State :=
  applyUpdates (baseState f) (map snd (baseQueue f)).

(** The committed state is the base state with the updates that were
    rendered and kept, and no update of a discrete event waits. *)
Definition consistent (f : Fiber) : Prop :=
  state (committed f)
  = applyUpdates (baseState f)
      (map snd (filter (fun e => isSubsetOfLanes SyncLane e.1 = true)
                  (baseQueue f)))
  /\ Forall (fun e => e.1 <> SyncLane) (baseQueue f).

(** The schedule in which every event is rendered before the next. *)
Definition rendered (evs : list Event) : list Task :=
  flat_map (fun ev => [handle ev; scheduledRender]) evs.

(** The updater function [handleMouseMove] queues for a position. *)
Definition appendPoint (point : Point) (prev : option Stroke) : option Stroke :=
  match prev with
  | Some prev =>
      Some {| points := points prev ++ [point]; color := color prev;
              width := width prev; tool := tool prev |}
  | None => None
  end.

(** What happens between a pointer-begin and a pointer-end: moves, and
    renders of the moves that wait ([None]). *)
Definition duringStroke (l : list (option PointerInput)) : list Task :=
  map (fun o => match o with
                | Some e => handle (moveOf e)
                | None => scheduledRender
                end) l.

(** A stroke is in progress only while the drawing flag is set. *)
Definition openMeansDrawing (st : State) : Prop :=
  currentPath st = None \/ isDrawing st = true.

(** What holds of a fiber under every schedule. *)
Definition scheduleInvariant (f : Fiber) : Prop :=
  consistent f
  /\ soundState (state (committed f)) /\ soundState (eventual f)
  /\ openMeansDrawing (state (committed f)) /\ openMeansDrawing (eventual f).

(** A fiber with two committed strokes and a third stroke open, nothing
    waiting, and the stroke that is open. *)
Definition openStrokeFiber : Fiber :=
  schedule (mountedFiber sampleRect)
    (rendered (twoStrokeEvents ++ [onMouseDown 5 5]%float)).

Definition sampleThird : Stroke :=
  {| points := [ {| x := -5.5; y := -15 |} ];
     color := "#3B82F6"; width := 5; tool := brush |}%float.

(** A press, a move and a release, the release handled before the move
    is rendered; and a press, the two moves of [sampleMoves] and a
    release, both moves rendered before the release. *)
Definition hastyGesture : list Task :=
  [handle (onMouseDown 15 30); scheduledRender;
   handle (onMouseMove 16 31);
   handle onMouseUp; scheduledRender]%float.

Definition patientGesture : list Task :=
  [handle (onMouseDown 15 30);
   handle (onMouseMove 16 31);
   handle (onTouchMove [ {| clientX := 17; clientY := 35 |} ]);
   scheduledRender;
   handle onMouseUp; scheduledRender]%float.

(** *** Vocabulary of the image service *)

(** Whether a code unit occurs in a string, and whether a string holds a
    line terminator. *)
Fixpoint occurs (c : ascii) (s : string) : bool :=
  match s with
  | EmptyString => false
  | String d s' => Ascii.eqb d c || occurs c s'
  end.

Fixpoint hasLineTerminator (s : string) : bool :=
  match s with
  | EmptyString => false
  | String d s' => GeminiService.isLineTerminator d || hasLineTerminator s'
  end.

(** The image a part of a response carries: its inline data when that is
    a non-empty string. *)
Definition partImage (p : GeminiService.ResponsePart) : option string :=
  match GeminiService.inlineData p with
  | Some blob =>
      match GeminiService.data blob with
      | Some EmptyString => None
      | d => d
      end
  | None => None
  end.

(** The parts of a candidate, when it has content with parts. *)
Definition partsOf (c : GeminiService.Candidate)
  : option (list GeminiService.ResponsePart) :=
  match GeminiService.content c with
  | Some content => GeminiService.parts content
  | None => None
  end.

(** Every image of a list of candidates, in the order of the candidates
    and of their parts. *)
Definition imagesOf (cs : list GeminiService.Candidate) : list string :=
  flat_map (fun c => omap partImage (default [] (partsOf c))) cs.

Definition failureMessage : string :=
  "Failed to generate image. Please check your inputs and API key.".

(** The request [generateImage] is to send: the prompt, then the files
    that are there in the order reference 1, reference 2, background,
    then the sketch. *)
Definition sketchPart (sketchImage : string) : GeminiService.Part :=
  GeminiService.InlineDataPart
    (GeminiService.split sketchImage "," !! 1%nat)
    (default "image/png"
       (GeminiService.matchColonSemicolon
          (default EmptyString (GeminiService.split sketchImage "," !! 0%nat)))).

Definition filesOf (params : GeminiService.GenerateImageParams)
  : list GeminiService.File :=
  omap id [ GeminiService.refImage1 params; GeminiService.refImage2 params;
            GeminiService.bgImage params ].

Definition requestFor (params : GeminiService.GenerateImageParams)
  : GeminiService.Request :=
  {| GeminiService.model := "gemini-2.5-flash-image-preview";
     GeminiService.contents :=
       GeminiService.TextPart
         (GeminiService.combinedPrompt (GeminiService.promptOverall params)
            (GeminiService.prompt1 params) (GeminiService.prompt2 params))
       :: map GeminiService.fileToGenerativePart (filesOf params)
       ++ [sketchPart (GeminiService.sketchImage params)];
     GeminiService.responseModalities :=
       [GeminiService.IMAGE; GeminiService.TEXT] |}.

(** Sample data of the image service. *)
Definition sampleFile : GeminiService.File :=
  {| GeminiService.type := "image/jpeg";
     GeminiService.readAsDataURL := "data:image/jpeg;base64,AAECAw==" |}.

Definition sampleParams : GeminiService.GenerateImageParams :=
  {| GeminiService.refImage1 := Some sampleFile;
     GeminiService.refImage2 := None;
     GeminiService.bgImage := Some sampleFile;
     GeminiService.prompt1 := "a knight";
     GeminiService.prompt2 := EmptyString;
     GeminiService.promptOverall := EmptyString;
     GeminiService.sketchImage := "data:image/png;base64,iVBORw0KGgo=" |}.

Definition imagePart (d : string) : GeminiService.ResponsePart :=
  {| GeminiService.inlineData := Some {| GeminiService.data := Some d |} |}.

Definition textOnlyPart : GeminiService.ResponsePart :=
  {| GeminiService.inlineData := None |}.

Definition candidateOf (ps : list GeminiService.ResponsePart)
  : GeminiService.Candidate :=
  {| GeminiService.content := Some {| GeminiService.parts := Some ps |} |}.

Definition sampleCandidates : list GeminiService.Candidate :=
  [ candidateOf [textOnlyPart; imagePart EmptyString];
    candidateOf [textOnlyPart; imagePart "QUJD"; imagePart "REVG"] ].

Definition sampleService (req : GeminiService.Request)
  : completion GeminiService.Response :=
  Normal {| GeminiService.candidates := Some sampleCandidates |}.

(** Further sample data: events between a pointer-begin and its end
    that change the whole configuration, events that never shorten the
    log, a store with a second canvas, and a service that fails. *)
Definition sampleConfigEvents : list Event :=
  [clickColor 2; changeEraserSize 40; clickRatio Ratio_1_1; clickEraser].

Definition sampleGrowingEvents : list Event :=
  [onMouseDown 1 2; clickEraser; onMouseUp; clickColor 3]%float.

Definition twoCanvasStore : Store :=
  <[ 1%nat := {| DOM.width := 300; height := 150;
                 boundingClientRect := sampleRect;
                 contextMode := ContextOther; bitmap := [] |} ]> sampleStore.

Definition failingService (req : GeminiService.Request)
  : completion GeminiService.Response :=
  Throw "503".

Definition blockedService (req : GeminiService.Request)
  : completion GeminiService.Response :=
  Normal {| GeminiService.candidates :=
              Some [ {| GeminiService.content := None |};
                     candidateOf [imagePart "QUJD"] ] |}.

Definition sampleInputs : App.Inputs :=
  {| App.refImage1 := Some sampleFile; App.refImage2 := None;
     App.bgImage := None; App.prompt1 := "a knight";
     App.prompt2 := EmptyString; App.promptOverall := EmptyString |}.

Definition sampleAppState : App.State :=
  {| App.isLoading := false; App.generatedImage := None;
     App.error := Some "Could not get sketch data." |}.

(* ===================================================================== *)
(** ** The DOM store *)
(* ===================================================================== *)

Lemma update_at (σ : Store) ctx cv f :
  update ctx f (<[ctx := cv]> σ) = (Normal tt, <[ctx := f cv]> σ).
Proof. unfold update. by rewrite alter_insert_eq. Qed.

Lemma bind_normal {A B} (m : Dom A) (k : A -> Dom B) σ a σ' :
  m σ = (Normal a, σ') -> bind m k σ = k a σ'.
Proof. unfold bind. by intros ->. Qed.

Lemma forEach_app {A} (l1 l2 : list A) f σ σ' :
  forEach l1 f σ = (Normal tt, σ') ->
  forEach (l1 ++ l2) f σ = forEach l2 f σ'.
Proof.
  revert σ. induction l1 as [|a l1 IH]; intros σ; simpl.
  - unfold ret. by intros [= ->].
  - unfold bind. destruct (f a σ) as [[[]|e] σ1]; [|done]. apply IH.
Qed.

Lemma componentSized_finite cv :
  componentSized cv ->
  allFinite [0%float; 0%float; of_Z (DOM.width cv); of_Z (height cv)] = true
  /\ is_zero (of_Z (DOM.width cv)) = false
  /\ is_zero (of_Z (height cv)) = false
  /\ (DOM.width cv =? 0) = false /\ (height cv =? 0) = false.
Proof.
  intros [ratio [-> ->]]. destruct ratio; vm_compute; auto.
Qed.

(** *** The line of one stroke *)

Lemma lineTo_extends (pts : list Point) ctx (σ : Store) w h r b c sp :
  forallb finitePoint pts = true ->
  path c = [sp] ->
  forEach pts (fun point => lineTo ctx (x point) (y point))
    (<[ctx := {| DOM.width := w; height := h; boundingClientRect := r;
                 contextMode := Context2d c; bitmap := b |}]> σ)
  = (Normal tt,
     <[ctx := {| DOM.width := w; height := h; boundingClientRect := r;
                 contextMode := Context2d (setPath [sp ++ map vertex pts] c);
                 bitmap := b |}]> σ).
Proof.
  revert c sp. induction pts as [|p pts IH]; intros c sp Hfin Hpath; simpl.
  - rewrite app_nil_r. unfold ret, setPath. destruct c; simpl in *. by subst.
  - simpl in Hfin. apply andb_prop in Hfin as [Hp Hfin].
    unfold lineTo at 1. unfold finitePoint in Hp. rewrite Hp.
    erewrite bind_normal; [|apply update_at].
    unfold withContext; simpl. rewrite Hpath; simpl.
    rewrite (IH _ (sp ++ [vertex p])); [|done|done].
    unfold setPath; simpl. by rewrite <- app_assoc.
Qed.

Lemma stroke_body ctx (σ : Store) cv (s : Stroke) first rest :
  has2d cv -> drawable s = true -> points s = first :: rest ->
  (beginPath ctx ;;
   set_strokeStyle ctx (color s) ;;
   set_lineWidth ctx (width s) ;;
   set_lineCap ctx CapRound ;;
   set_lineJoin ctx JoinRound ;;
   set_globalCompositeOperation ctx
     (match tool s with
      | eraser => DestinationOut
      | brush => SourceOver
      end) ;;
   moveTo ctx (x first) (y first) ;;
   forEach (points s) (fun point => lineTo ctx (x point) (y point)) ;;
   DOM.stroke ctx)%dom (<[ctx := cv]> σ)
  = (Normal tt, <[ctx := paintedWith s cv]> σ).
Proof.
  intros [c Hc] Hd Hpts.
  unfold drawable in Hd.
  apply andb_prop in Hd as [Hd Hfin]. apply andb_prop in Hd as [Hcol Hw].
  apply bool_decide_eq_true in Hcol as [rgba Hcol].
  assert (Hfirst : allFinite [x first; y first] = true).
  { rewrite Hpts in Hfin. simpl in Hfin. by apply andb_prop in Hfin as [? _]. }
  destruct cv as [w h r m b]. simpl in Hc. subst m.
  unfold beginPath. erewrite bind_normal; [|apply update_at].
  unfold set_strokeStyle. rewrite Hcol.
  erewrite bind_normal; [|apply update_at].
  unfold set_lineWidth. rewrite Hw.
  erewrite bind_normal; [|apply update_at].
  unfold set_lineCap. erewrite bind_normal; [|apply update_at].
  unfold set_lineJoin. erewrite bind_normal; [|apply update_at].
  unfold set_globalCompositeOperation.
  erewrite bind_normal; [|apply update_at].
  unfold moveTo. rewrite Hfirst.
  erewrite bind_normal; [|apply update_at].
  unfold withContext, setPath; simpl.
  erewrite bind_normal;
    [|apply (lineTo_extends _ _ _ _ _ _ _ _ [(x first, y first)]); [done|done]].
  unfold DOM.stroke. rewrite update_at.
  unfold paint, paintedWith, setPath, strokePaint, lineThrough, strokeColor;
    simpl.
  rewrite Hcol, Hpts; simpl.
  rewrite filter_cons, filter_nil.
  destruct (decide _) as [_|Hn]; [|simpl in Hn; lia].
  by destruct (tool s).
Qed.

Lemma paintedWith_has2d s cv : has2d cv -> has2d (paintedWith s cv).
Proof. intros [c Hc]. unfold paintedWith. rewrite Hc. by eexists. Qed.

Lemma afterStroke_has2d o cv : has2d cv -> has2d (afterStroke o cv).
Proof.
  intros H. destruct o as [s|]; simpl; [|done].
  destruct (hasPoints s); [by apply paintedWith_has2d|done].
Qed.

Lemma fold_afterStroke_has2d items cv :
  has2d cv -> has2d (fold_left (fun cv o => afterStroke o cv) items cv).
Proof.
  revert cv. induction items as [|o items IH]; intros cv H; [done|].
  simpl. apply IH. by apply afterStroke_has2d.
Qed.

(** *** The loop over the strokes *)

Lemma repaint_loop (items : list (option Stroke)) ctx (σ : Store) cv :
  has2d cv -> Forall drawableItem items ->
  forEach items (fun stroke =>
    match stroke with
    | None => ret tt
    | Some stroke =>
        match points stroke with
        | [] => ret tt
        | first :: _ =>
            beginPath ctx ;;
            set_strokeStyle ctx (color stroke) ;;
            set_lineWidth ctx (width stroke) ;;
            set_lineCap ctx CapRound ;;
            set_lineJoin ctx JoinRound ;;
            set_globalCompositeOperation ctx
              (match tool stroke with
               | eraser => DestinationOut
               | brush => SourceOver
               end) ;;
            moveTo ctx (x first) (y first) ;;
            forEach (points stroke) (fun point =>
              lineTo ctx (x point) (y point)) ;;
            DOM.stroke ctx
        end
    end)%dom (<[ctx := cv]> σ)
  = (Normal tt,
     <[ctx := fold_left (fun cv o => afterStroke o cv) items cv]> σ).
Proof.
  intros H2d Hall. revert cv H2d.
  induction Hall as [|o items Ho _ IH]; intros cv H2d; [done|].
  cbn [forEach fold_left].
  erewrite bind_normal; [apply IH; by apply afterStroke_has2d|].
  destruct o as [s|]; [|done]. cbn [afterStroke]. unfold hasPoints.
  simpl in Ho.
  destruct (points s) as [|first rest] eqn:Hpts; [done|].
  cbn [length Nat.eqb negb]. cbv beta iota. rewrite <- Hpts.
  by eapply stroke_body.
Qed.

Lemma fold_afterStroke_geometry items cv :
  let cv' := fold_left (fun cv o => afterStroke o cv) items cv in
  DOM.width cv' = DOM.width cv /\ height cv' = height cv
  /\ boundingClientRect cv' = boundingClientRect cv.
Proof.
  revert cv. induction items as [|o items IH]; intros cv; simpl; [done|].
  destruct (IH (afterStroke o cv)) as (-> & -> & ->).
  destruct o as [s|]; simpl; [|done].
  destruct (hasPoints s); [|done].
  unfold paintedWith. by destruct (contextMode cv).
Qed.

Lemma fold_afterStroke_bitmap items cv :
  has2d cv ->
  bitmap (fold_left (fun cv o => afterStroke o cv) items cv)
  = bitmap cv ++ map strokePaint (List.filter hasPoints (omap id items)).
Proof.
  revert cv. induction items as [|o items IH]; intros cv H2d; simpl.
  - by rewrite app_nil_r.
  - rewrite IH by by apply afterStroke_has2d.
    destruct o as [s|]; simpl; [|done].
    destruct (hasPoints s); [|done].
    destruct H2d as [c Hc]. unfold paintedWith. rewrite Hc. simpl.
    by rewrite <- app_assoc.
Qed.

Lemma omap_items strokes currentPath :
  omap id (map Some strokes ++ [currentPath]) = combined strokes currentPath.
Proof.
  unfold combined. rewrite omap_app. f_equal.
  induction strokes as [|s strokes IH]; [done|].
  cbn. by rewrite IH.
Qed.

Lemma drawable_items strokes currentPath :
  forallb drawable (combined strokes currentPath) = true ->
  Forall drawableItem (map Some strokes ++ [currentPath]).
Proof.
  unfold combined. rewrite forallb_app. intros [Hs Hc]%andb_prop.
  apply Forall_app. split.
  - apply Forall_map. apply Forall_forall. intros s Hin. simpl.
    eapply forallb_forall in Hs; [done|]. by apply list_elem_of_In.
  - constructor; [|constructor]. destruct currentPath as [s|]; simpl; [|done].
    simpl in Hc. by apply andb_prop in Hc as [? _].
Qed.

Lemma getContext2d_at (σ : Store) canvas cv :
  σ !! canvas = Some cv -> contextMode cv <> ContextOther ->
  getContext2d canvas σ = (Normal (Some canvas), <[canvas := with2d cv]> σ)
  /\ has2d (with2d cv).
Proof.
  intros Hcv Hmode. unfold getContext2d, with2d, has2d. rewrite Hcv.
  destruct (contextMode cv) eqn:Hm; [| |done].
  - split; [done|]. by eexists.
  - rewrite insert_id by done. split; [done|]. by eexists.
Qed.

Lemma getWidth_at (σ : Store) canvas cv :
  getWidth canvas (<[canvas := cv]> σ)
  = (Normal (DOM.width cv), <[canvas := cv]> σ).
Proof. unfold getWidth. by rewrite lookup_insert_eq. Qed.

Lemma getHeight_at (σ : Store) canvas cv :
  getHeight canvas (<[canvas := cv]> σ)
  = (Normal (height cv), <[canvas := cv]> σ).
Proof. unfold getHeight. by rewrite lookup_insert_eq. Qed.

Lemma with2d_geometry cv :
  DOM.width (with2d cv) = DOM.width cv /\ height (with2d cv) = height cv
  /\ boundingClientRect (with2d cv) = boundingClientRect cv
  /\ bitmap (with2d cv) = bitmap cv.
Proof. unfold with2d. by destruct (contextMode cv). Qed.

(** C1. On a mounted canvas of the component, for every committed log
    and every optional in-progress stroke whose attributes the context
    accepts, [draw] completes and leaves the canvas with: first a clear
    of the whole surface, then one [OpStroke] per stroke that has points,
    committed strokes in insertion order and the in-progress stroke last;
    each is a single subpath through the stroke's points in order, with
    round caps and joins, the stroke's width and colour, source-over for
    the brush and destination-out for the eraser; the compositing
    attribute ends as source-over. *)
Theorem draw_repaints (σ : Store) canvas cv strokes currentPath :
  σ !! canvas = Some cv ->
  contextMode cv <> ContextOther ->
  componentSized cv ->
  forallb drawable (combined strokes currentPath) = true ->
  exists cv',
    draw (Some canvas) strokes currentPath σ
      = (Normal tt, <[canvas := cv']> σ)
    /\ bitmap cv'
       = bitmap cv ++ fullSurfaceClear cv :: repaint strokes currentPath
    /\ (exists c, contextMode cv' = Context2d c
                  /\ globalCompositeOperation c = SourceOver)
    /\ DOM.width cv' = DOM.width cv /\ height cv' = height cv.
Proof.
  intros Hcv Hmode Hsize Hdraw.
  destruct (getContext2d_at σ canvas cv Hcv Hmode) as [Hctx H2d].
  destruct (with2d_geometry cv) as (Hw & Hh & Hr & Hb).
  destruct (componentSized_finite cv Hsize) as (Hfin & _).
  set (cleared := paint (fun _ => fullSurfaceClear cv) (with2d cv)).
  assert (Hcl2d : has2d cleared).
  { destruct H2d as [c Hc]. unfold cleared, paint. rewrite Hc. by eexists. }
  set (items := map Some strokes ++ [currentPath]).
  set (final := fold_left (fun cv o => afterStroke o cv) items cleared).
  exists (withContext (fun s =>
    {| strokeStyle := strokeStyle s; fillStyle := fillStyle s;
       lineWidth := lineWidth s; lineCap := lineCap s; lineJoin := lineJoin s;
       globalCompositeOperation := SourceOver; path := path s |}) final).
  assert (Hfinal2d : has2d final).
  { by apply fold_afterStroke_has2d. }
  split; [|split; [|split]].
  - unfold draw. cbv beta iota. erewrite bind_normal by exact Hctx.
    cbv beta iota.
    erewrite bind_normal by apply getWidth_at.
    erewrite bind_normal by apply getHeight_at.
    rewrite Hw, Hh. unfold clearRect. rewrite Hfin.
    erewrite bind_normal by apply update_at.
    erewrite bind_normal
      by (apply repaint_loop; [exact Hcl2d|by apply drawable_items]).
    unfold set_globalCompositeOperation. by rewrite update_at.
  - destruct Hfinal2d as [c Hc]. unfold withContext. rewrite Hc. simpl.
    unfold final. rewrite fold_afterStroke_bitmap by done.
    unfold items. rewrite omap_items.
    destruct H2d as [c0 Hc0]. unfold cleared, paint. rewrite Hc0. simpl.
    rewrite Hb, <- app_assoc. done.
  - destruct Hfinal2d as [c Hc]. unfold withContext. rewrite Hc. simpl.
    by eexists.
  - destruct Hfinal2d as [c Hc]. unfold withContext. rewrite Hc. simpl.
    destruct (fold_afterStroke_geometry items cleared) as (Hfw & Hfh & _).
    fold final in Hfw, Hfh. rewrite Hfw, Hfh.
    destruct H2d as [c0 Hc0]. unfold cleared, paint. rewrite Hc0. simpl.
    done.
Qed.

(* ===================================================================== *)
(** ** Painting leaves the frame of every canvas alone *)
(* ===================================================================== *)

Create HintDb frame discriminated.

Lemma sameFrame_refl σ : sameFrame σ σ.
Proof. by intros id. Qed.

Lemma sameFrame_trans σ1 σ2 σ3 :
  sameFrame σ1 σ2 -> sameFrame σ2 σ3 -> sameFrame σ1 σ3.
Proof. intros H12 H23 id. by rewrite H12. Qed.

Lemma keeps_ret {A} (a : A) : keepsFrame (ret a).
Proof. intros σ. apply sameFrame_refl. Qed.

Lemma keeps_bind {A B} (m : Dom A) (k : A -> Dom B) :
  keepsFrame m -> (forall a, keepsFrame (k a)) -> keepsFrame (bind m k).
Proof.
  intros Hm Hk σ. unfold bind. specialize (Hm σ).
  destruct (m σ) as [[a|e] σ1]; simpl in *; [|done].
  eapply sameFrame_trans; [exact Hm|apply Hk].
Qed.

Lemma keeps_forEach {A} (l : list A) (f : A -> Dom unit) :
  (forall a, keepsFrame (f a)) -> keepsFrame (forEach l f).
Proof.
  intros Hf. induction l as [|a l IH]; simpl.
  - apply keeps_ret.
  - apply keeps_bind; [apply Hf|by intros _].
Qed.

Lemma keeps_update ctx f :
  (forall cv, frame (f cv) = frame cv) -> keepsFrame (update ctx f).
Proof.
  intros Hf σ id. unfold update; simpl.
  destruct (decide (ctx = id)) as [->|Hne].
  - rewrite lookup_alter_eq. destruct (σ !! id); simpl; [|done].
    by rewrite Hf.
  - by rewrite lookup_alter_ne.
Qed.

Lemma frame_withContext f cv : frame (withContext f cv) = frame cv.
Proof.
  unfold withContext, frame. destruct (contextMode cv) eqn:Hm; simpl;
    by rewrite ?Hm.
Qed.

Lemma frame_paint mk cv : frame (paint mk cv) = frame cv.
Proof.
  unfold paint, frame. destruct (contextMode cv) eqn:Hm; simpl;
    by rewrite ?Hm.
Qed.

Lemma keeps_getContext2d canvas : keepsFrame (getContext2d canvas).
Proof.
  intros σ id. unfold getContext2d.
  destruct (σ !! canvas) as [cv|] eqn:Hcv; [|done].
  destruct (contextMode cv) eqn:Hm; simpl; [|done|done].
  destruct (decide (canvas = id)) as [Heq|Hne].
  - subst id. rewrite lookup_insert_eq, Hcv. simpl. unfold frame. simpl.
    by rewrite Hm.
  - by rewrite lookup_insert_ne.
Qed.

Lemma keeps_getWidth canvas : keepsFrame (getWidth canvas).
Proof. intros σ. apply sameFrame_refl. Qed.

Lemma keeps_getHeight canvas : keepsFrame (getHeight canvas).
Proof. intros σ. apply sameFrame_refl. Qed.

Lemma keeps_set_strokeStyle ctx v : keepsFrame (set_strokeStyle ctx v).
Proof.
  unfold set_strokeStyle. destruct (parseColor v); [|apply keeps_ret].
  apply keeps_update. intros cv. apply frame_withContext.
Qed.

Lemma keeps_set_lineWidth ctx v : keepsFrame (set_lineWidth ctx v).
Proof.
  unfold set_lineWidth. destruct (_ && _); [|apply keeps_ret].
  apply keeps_update. intros cv. apply frame_withContext.
Qed.

Lemma keeps_set_lineCap ctx v : keepsFrame (set_lineCap ctx v).
Proof. apply keeps_update. intros cv. apply frame_withContext. Qed.

Lemma keeps_set_lineJoin ctx v : keepsFrame (set_lineJoin ctx v).
Proof. apply keeps_update. intros cv. apply frame_withContext. Qed.

Lemma keeps_set_globalCompositeOperation ctx v :
  keepsFrame (set_globalCompositeOperation ctx v).
Proof. apply keeps_update. intros cv. apply frame_withContext. Qed.

Lemma keeps_beginPath ctx : keepsFrame (beginPath ctx).
Proof. apply keeps_update. intros cv. apply frame_withContext. Qed.

Lemma keeps_moveTo ctx a b : keepsFrame (moveTo ctx a b).
Proof.
  unfold moveTo. destruct (allFinite _); [|apply keeps_ret].
  apply keeps_update. intros cv. apply frame_withContext.
Qed.

Lemma keeps_lineTo ctx a b : keepsFrame (lineTo ctx a b).
Proof.
  unfold lineTo. destruct (allFinite _); [|apply keeps_ret].
  apply keeps_update. intros cv. apply frame_withContext.
Qed.

Lemma keeps_stroke ctx : keepsFrame (DOM.stroke ctx).
Proof. apply keeps_update. intros cv. apply frame_paint. Qed.

Lemma keeps_clearRect ctx a b c d : keepsFrame (clearRect ctx a b c d).
Proof.
  unfold clearRect. destruct (allFinite _); [|apply keeps_ret].
  apply keeps_update. intros cv. apply frame_paint.
Qed.

#[local] Hint Resolve keeps_ret keeps_bind keeps_forEach keeps_getContext2d
  keeps_getWidth keeps_getHeight keeps_set_strokeStyle keeps_set_lineWidth
  keeps_set_lineCap keeps_set_lineJoin keeps_set_globalCompositeOperation
  keeps_beginPath keeps_moveTo keeps_lineTo keeps_stroke keeps_clearRect
  : frame.

Ltac keeps_frame :=
  repeat first
    [ progress auto with frame
    | apply keeps_bind; [|intros ?]
    | apply keeps_forEach; intros ?
    | match goal with
      | |- keepsFrame (match ?o with _ => _ end) => destruct o
      end ].

Lemma keeps_draw canvasRef strokes currentPath :
  keepsFrame (draw canvasRef strokes currentPath).
Proof. unfold draw. keeps_frame. Qed.

(* ===================================================================== *)
(** ** The stroke log *)
(* ===================================================================== *)

Lemma state_step w ev :
  state (step w ev) = applyUpdates (state w) (handlerOf w ev).1.
Proof. done. Qed.

Lemma run_app w evs1 evs2 : run w (evs1 ++ evs2) = run (run w evs1) evs2.
Proof. unfold run. apply fold_left_app. Qed.

Lemma run_cons w ev evs : run w (ev :: evs) = run (step w ev) evs.
Proof. done. Qed.

Lemma slice_all_but_last {A} (l : list A) :
  slice l 0 (-1) = take (length l - 1) l.
Proof.
  unfold slice. cbn [Z.ltb Z.compare].
  replace (Z.to_nat (Z.min 0 (Z.of_nat (length l)))) with 0%nat by lia.
  rewrite drop_0. f_equal. lia.
Qed.

Lemma undo_strokes w :
  strokes (state (step w clickUndo))
  = take (length (strokes (state w)) - 1) (strokes (state w)).
Proof. rewrite state_step. simpl. apply slice_all_but_last. Qed.

Lemma undo_run_length w n :
  strokes (state (run w (replicate n clickUndo)))
  = take (length (strokes (state w)) - n) (strokes (state w)).
Proof.
  revert w. induction n as [|n IH]; intros w.
  - simpl. rewrite take_ge; [done|lia].
  - rewrite replicate_S, run_cons, IH, undo_strokes.
    rewrite length_take, take_take. f_equal. lia.
Qed.


(** C10. Undo and clear leave every slot other than the committed log
    as it was: the aspect ratio, the drawing flag, the in-progress
    stroke, the tool, the colour and both widths. *)
Theorem undo_clear_touch_only_log (w : World) :
  sameExceptStrokes (state w) (state (step w clickUndo))
  /\ sameExceptStrokes (state w) (state (step w clickClear))
  /\ strokes (state (step w clickClear)) = [].
Proof. by repeat split. Qed.

(** C9. Clicking a colour button makes that colour the brush colour and
    the brush the active tool, whatever the tool was. *)
Theorem color_click_selects_brush (w : World) index entry :
  colors !! index = Some entry ->
  activeTool (state (step w (clickColor index))) = brush
  /\ brushColor (state (step w (clickColor index))) = value entry.
Proof. intros H. rewrite state_step. simpl. by rewrite H. Qed.

(* ===================================================================== *)
(** ** The input tracker *)
(* ===================================================================== *)

Lemma begin_state w e p :
  positionIn w e = Normal p ->
  state (step w (beginOf e))
  = withCurrentPath (Some (opened (state w) p))
      (applyUpdate (state w) (setIsDrawing true)).
Proof.
  unfold positionIn. intros H. rewrite state_step.
  destruct e; simpl; unfold handleMouseDown; simpl; by rewrite H.
Qed.

Lemma begin_state_throw w e err :
  positionIn w e = Throw err ->
  state (step w (beginOf e)) = applyUpdate (state w) (setIsDrawing true).
Proof.
  unfold positionIn. intros H. rewrite state_step.
  destruct e; simpl; unfold handleMouseDown; simpl; by rewrite H.
Qed.

Lemma move_state w e s p :
  isDrawing (state w) = true ->
  currentPath (state w) = Some s ->
  positionIn w e = Normal p ->
  state (step w (moveOf e)) = withCurrentPath (Some (extended s [p])) (state w).
Proof.
  unfold positionIn. intros Hd Hc H. rewrite state_step.
  destruct e; simpl; unfold handleMouseMove; rewrite Hd, Hc; simpl;
    rewrite H; simpl; unfold withCurrentPath; simpl; by rewrite Hc.
Qed.

Lemma move_state_closed w e :
  isDrawing (state w) = false \/ currentPath (state w) = None ->
  state (step w (moveOf e)) = state w.
Proof.
  intros H. rewrite state_step.
  destruct e; simpl; unfold handleMouseMove;
    destruct H as [-> | ->]; simpl; try done;
    by destruct (isDrawing (state w)).
Qed.

Lemma end_state w ev :
  pointerEnd ev ->
  state (step w ev)
  = applyUpdate
      (withCurrentPath None
         (withStrokes (strokes (state w) ++ option_list (currentPath (state w)))
            (state w)))
      (setIsDrawing false).
Proof.
  intros [-> | [-> | ->]]; rewrite state_step; simpl; unfold handleMouseUp;
    destruct (currentPath (state w)); simpl; unfold withStrokes; simpl;
    by rewrite ?app_nil_r.
Qed.

Lemma ratio_eqb_refl r : ratio_eqb r r = true.
Proof. by destruct r. Qed.

Lemma ratio_eqb_eq a b : ratio_eqb a b = true -> a = b.
Proof. by destruct a, b. Qed.

Lemma aspectRatio_step w ev :
  (forall r, ev <> clickRatio r) ->
  aspectRatio (state (step w ev)) = aspectRatio (state w).
Proof.
  intros Hne. rewrite state_step.
  destruct ev; simpl; try done.
  - unfold handleMouseDown. simpl. by destruct (getCanvasCoordinates _ _).
  - unfold handleMouseMove. destruct (_ || _); [done|].
    simpl. by destruct (getCanvasCoordinates _ _).
  - unfold handleMouseUp. by destruct (currentPath (state w)).
  - unfold handleMouseUp. by destruct (currentPath (state w)).
  - unfold handleMouseDown. simpl. by destruct (getCanvasCoordinates _ _).
  - unfold handleMouseMove. destruct (_ || _); [done|].
    simpl. by destruct (getCanvasCoordinates _ _).
  - unfold handleMouseUp. by destruct (currentPath (state w)).
  - by destruct (colors !! index).
  - by destruct (Hne ratio).
Qed.

Lemma step_keeps_frame w ev :
  (forall rect, ev <> layout rect) ->
  (forall r, ev <> clickRatio r) ->
  canvasRef (step w ev) = canvasRef w
  /\ sameFrame (store w) (store (step w ev)).
Proof.
  intros Hlay Hratio. split; [done|].
  pose proof (aspectRatio_step w ev Hratio) as Har.
  rewrite state_step in Har.
  unfold step. cbn [store]. rewrite Har, ratio_eqb_refl.
  assert (Hσ0 : match ev, canvasRef w with
                | layout rect, Some canvas =>
                    alter (moveCanvas rect) canvas (store w)
                | _, _ => store w
                end = store w).
  { destruct ev; try done. by destruct (Hlay rect). }
  rewrite Hσ0.
  assert (Hσ1 : match canvasRef w with
                | Some _ => store w
                | None => store w
                end = store w) by by destruct (canvasRef w).
  rewrite Hσ1.
  destruct (drawInputChanged _ _); [apply keeps_draw|apply sameFrame_refl].
Qed.

Lemma position_frame c1 c2 e :
  boundingClientRect <$> c1 = boundingClientRect <$> c2 ->
  getCanvasCoordinates c1 e = getCanvasCoordinates c2 e.
Proof.
  destruct c1 as [a|], c2 as [b|]; simpl; intros H; try done.
  injection H as Hrect.
  unfold getCanvasCoordinates, getBoundingClientRect. by rewrite Hrect.
Qed.

Lemma position_step w ev e :
  (forall rect, ev <> layout rect) ->
  (forall r, ev <> clickRatio r) ->
  positionIn (step w ev) e = positionIn w e.
Proof.
  intros Hlay Hratio.
  destruct (step_keeps_frame w ev Hlay Hratio) as [Href Hgeo].
  revert Href Hgeo. generalize (step w ev). intros w' Href Hgeo.
  unfold positionIn. apply position_frame.
  unfold current. rewrite Href.
  destruct (canvasRef w) as [canvas|]; simpl; [|done].
  specialize (Hgeo canvas).
  destruct (store w !! canvas), (store w' !! canvas); try done.
  unfold frame in Hgeo. simpl in *. congruence.
Qed.

Lemma extended_extended s ps qs :
  extended (extended s ps) qs = extended s (ps ++ qs).
Proof. unfold extended; simpl. by rewrite <- app_assoc. Qed.

Lemma moves_extend es : forall ps w s,
  isDrawing (state w) = true ->
  currentPath (state w) = Some s ->
  Forall2 (fun e p => positionIn w e = Normal p) es ps ->
  state (run w (map moveOf es))
  = withCurrentPath (Some (extended s ps)) (state w).
Proof.
  induction es as [|e es IH]; intros ps w s Hd Hc Hpos.
  - apply Forall2_nil_inv_l in Hpos as ->. simpl.
    unfold extended, withCurrentPath. rewrite app_nil_r.
    destruct (state w) as [r d l c t bc bs es]; simpl in *. subst c.
    by destruct s.
  - apply Forall2_cons_inv_l in Hpos as (p & ps' & Hp & Hps & ->).
    cbn [map]. rewrite run_cons.
    pose proof (move_state w e s p Hd Hc Hp) as Hst.
    assert (Hne1 : forall rect, moveOf e <> layout rect) by by destruct e.
    assert (Hne2 : forall r, moveOf e <> clickRatio r) by by destruct e.
    rewrite (IH ps' (step w (moveOf e)) (extended s [p])).
    + rewrite Hst, extended_extended. done.
    + by rewrite Hst.
    + by rewrite Hst.
    + eapply Forall2_impl; [exact Hps|]. intros e' p' He'. simpl in He'.
      by rewrite position_step.
Qed.

(* ===================================================================== *)
(** ** What every reachable state satisfies *)
(* ===================================================================== *)

Lemma parseInt_small (n : nat) :
  (n < 100)%nat ->
  parseInt (integerToString (1 + Z.of_nat n)) = of_Z (1 + Z.of_nat n).
Proof.
  intros H.
  do 100 (destruct n as [|n]; [vm_compute; reflexivity|]).
  lia.
Qed.

Lemma small_width_accepted (n : nat) :
  (n < 100)%nat ->
  isFinite (of_Z (1 + Z.of_nat n)) = true
  /\ (0 <? of_Z (1 + Z.of_nat n))%float = true
  /\ (of_Z 1 <=? of_Z (1 + Z.of_nat n))%float = true
  /\ (of_Z (1 + Z.of_nat n) <=? of_Z 100)%float = true.
Proof.
  intros H.
  do 100 (destruct n as [|n]; [vm_compute; auto|]).
  lia.
Qed.

Lemma brush_width_below_50 (n : nat) :
  (n < 50)%nat ->
  (of_Z (1 + Z.of_nat n) <=? of_Z 50)%float = true.
Proof.
  intros H.
  do 50 (destruct n as [|n]; [vm_compute; auto|]).
  lia.
Qed.

Lemma integerIn_nat lo hi v :
  integerIn lo hi v -> 1 <= lo -> hi <= 100 ->
  exists n, (n < Z.to_nat hi)%nat /\ (n < 100)%nat /\ v = of_Z (1 + Z.of_nat n).
Proof.
  intros (z & Hz & ->) Hlo Hhi. exists (Z.to_nat (z - 1)).
  repeat split; [lia|lia|]. f_equal. lia.
Qed.

Lemma integerIn_withinBounds t v :
  integerIn 1 (maxWidth t) v -> withinBounds 1 (maxWidth t) v.
Proof.
  intros H. destruct (integerIn_nat _ _ _ H) as (n & Hn & Hn' & ->);
    [done|by destruct t|].
  destruct (small_width_accepted n Hn') as (_ & _ & Hlo & Hhi).
  split; [done|]. destruct t; [|done].
  apply brush_width_below_50. simpl in Hn. lia.
Qed.

Lemma integerIn_accepted v :
  integerIn 1 100 v -> isFinite v && (0 <? v)%float = true.
Proof.
  intros H. destruct (integerIn_nat _ _ _ H) as (n & _ & Hn & ->); [done..|].
  destruct (small_width_accepted n Hn) as (-> & -> & _). done.
Qed.

Lemma integerIn_weaken lo hi hi' v :
  integerIn lo hi v -> hi <= hi' -> integerIn lo hi' v.
Proof. intros (z & Hz & ->) H. exists z. split; [lia|done]. Qed.

Lemma slider_integer hi requested :
  hi = 50 \/ hi = 100 ->
  integerIn 1 hi (parseInt (RangeInput.value 1 hi requested)).
Proof.
  intros Hhi. unfold RangeInput.value.
  replace (hi <? 1) with false by (symmetry; apply Z.ltb_ge; lia).
  set (z := Z.max 1 (Z.min requested hi)).
  exists z. split; [lia|].
  replace z with (1 + Z.of_nat (Z.to_nat (z - 1))) by lia.
  apply parseInt_small. lia.
Qed.

Lemma palette_lookup index entry :
  colors !! index = Some entry -> paletteColor (value entry).
Proof.
  intros H. exists entry. split; [|done].
  apply list_elem_of_In. by eapply list_elem_of_lookup_2.
Qed.

Lemma palette_parses c : paletteColor c -> is_Some (parseColor c).
Proof.
  intros (entry & Hin & ->). simpl in Hin.
  destruct Hin as [<- | [<- | [<- | [<- | []]]]]; by eexists.
Qed.

Lemma sound_initial : soundState initialState.
Proof.
  repeat split.
  - exists 5. split; [lia|]. vm_compute. reflexivity.
  - exists 20. split; [lia|]. vm_compute. reflexivity.
  - exists {| name := "Red"; value := "#EF4444" |}. split; [by left|done].
  - constructor.
Qed.

Lemma sound_opened st p :
  soundState st -> soundStroke (opened st p).
Proof.
  intros (Hb & He & Hc & _). repeat split; [done|done|].
  unfold opened; simpl. by destruct (activeTool st).
Qed.

Lemma sound_extended s ps : soundStroke s -> soundStroke (extended s ps).
Proof.
  intros (Hl & Hc & Hw). repeat split; [|done|done].
  simpl. rewrite length_app. lia.
Qed.

Lemma sound_step w ev : soundState (state w) -> soundState (state (step w ev)).
Proof.
  intros Hs. pose proof Hs as (Hb & He & Hc & Hall).
  unfold combined in Hall. apply Forall_app in Hall as [Hlog Hcur].
  rewrite state_step.
  assert (Hbegin : forall e,
             soundState (applyUpdates (state w)
                           (handleMouseDown (current w) (state w) e).1)).
  { intros e. unfold handleMouseDown. simpl.
    destruct (getCanvasCoordinates (current w) e) as [p|err]; simpl.
    - repeat split; try done. unfold combined; simpl.
      apply Forall_app. split; [done|].
      constructor; [|constructor]. by apply (sound_opened (state w) p).
    - repeat split; try done. unfold combined; simpl.
      apply Forall_app. by split. }
  assert (Hmove : forall e,
             soundState (applyUpdates (state w)
                           (handleMouseMove (current w) (state w) e).1)).
  { intros e. unfold handleMouseMove.
    destruct (_ || _); [done|]. simpl.
    destruct (getCanvasCoordinates (current w) e) as [p|err]; simpl; [|done].
    repeat split; try done. unfold combined; simpl.
    apply Forall_app. split; [done|].
    destruct (currentPath (state w)) as [s|]; simpl; [|constructor].
    constructor; [|constructor].
    apply (sound_extended s [p]). by inversion Hcur. }
  assert (Hend : soundState (applyUpdates (state w)
                               (handleMouseUp (state w)).1)).
  { unfold handleMouseUp.
    destruct (currentPath (state w)) as [s|]; simpl.
    - repeat split; try done. unfold combined; simpl.
      rewrite app_nil_r. apply Forall_app. by split.
    - repeat split; try done. unfold combined; simpl.
      rewrite app_nil_r. done. }
  destruct ev; simpl; try done;
    try (repeat split; try done; by unfold combined).
  - repeat split; try done. unfold combined; simpl.
    apply Forall_app. split; [|done].
    rewrite slice_all_but_last. by apply Forall_take.
  - destruct (colors !! index) as [entry|] eqn:Hentry; simpl; [|done].
    repeat split; try done; try (by eapply palette_lookup);
      unfold combined; simpl; apply Forall_app; by split.
  - repeat split; try done; try (apply (slider_integer 50); by left);
      unfold combined; simpl; apply Forall_app; by split.
  - repeat split; try done; try (apply (slider_integer 100); by right);
      unfold combined; simpl; apply Forall_app; by split.
Qed.

Lemma sound_run evs : forall w, soundState (state w) -> soundState (state (run w evs)).
Proof.
  induction evs as [|ev evs IH]; intros w Hs; [done|].
  rewrite run_cons. apply IH. by apply sound_step.
Qed.

Lemma sound_reachable rect evs : soundState (state (run (mounted rect) evs)).
Proof. apply sound_run. apply sound_initial. Qed.

(** C4. In every state the mounted component can reach, every committed
    stroke - and the in-progress stroke - has at least one point. A
    pointer-begin that can be positioned opens a stroke of exactly that
    one point (one that cannot opens nothing), and a pointer-end,
    pointer-leave or touch-end appends to the log the in-progress stroke
    when there is one and nothing otherwise. *)
Theorem committed_strokes_have_points rect evs :
  Forall (fun s => 1 <= length (points s))%nat
    (combined (strokes (state (run (mounted rect) evs)))
       (currentPath (state (run (mounted rect) evs))))
  /\ (forall w e,
        match positionIn w e with
        | Normal p =>
            currentPath (state (step w (beginOf e)))
            = Some (opened (state w) p)
            /\ points (opened (state w) p) = [p]
        | Throw _ =>
            currentPath (state (step w (beginOf e))) = currentPath (state w)
        end)
  /\ (forall w,
        let committed :=
          strokes (state w) ++ option_list (currentPath (state w)) in
        strokes (state (step w onMouseUp)) = committed
        /\ strokes (state (step w onMouseLeave)) = committed
        /\ strokes (state (step w onTouchEnd)) = committed).
Proof.
  split; [|split].
  - destruct (sound_reachable rect evs) as (_ & _ & _ & Hall).
    eapply Forall_impl; [exact Hall|]. by intros s (Hl & _).
  - intros w e. destruct (positionIn w e) as [p|err] eqn:Hp.
    + by rewrite (begin_state w e p Hp).
    + by rewrite (begin_state_throw w e err Hp).
  - intros w committed.
    rewrite (end_state w onMouseUp), (end_state w onMouseLeave),
      (end_state w onTouchEnd); unfold pointerEnd; auto.
Qed.

(** C6. Whatever position a slider is asked for, the width its handler
    stores lies between the slider's bounds (1 to 50 for the brush, 1 to
    100 for the eraser); and in every state the mounted component can
    reach, both configured widths and the width of every committed and
    in-progress stroke lie between the bounds of the stroke's tool. *)
Theorem widths_stay_in_range rect evs :
  (forall st requested,
      withinBounds 1 50
        (brushSize (applyUpdates st
           (onChangeBrushSize (RangeInput.value 1 50 requested)).1))
      /\ withinBounds 1 100
           (eraserSize (applyUpdates st
              (onChangeEraserSize (RangeInput.value 1 100 requested)).1)))
  /\ withinBounds 1 50 (brushSize (state (run (mounted rect) evs)))
  /\ withinBounds 1 100 (eraserSize (state (run (mounted rect) evs)))
  /\ Forall (fun s => withinBounds 1 (maxWidth (tool s)) (width s))
       (combined (strokes (state (run (mounted rect) evs)))
          (currentPath (state (run (mounted rect) evs)))).
Proof.
  split; [|split; [|split]].
  - intros st requested. simpl. split.
    + apply (integerIn_withinBounds brush), (slider_integer 50). by left.
    + apply (integerIn_withinBounds eraser), (slider_integer 100). by right.
  - destruct (sound_reachable rect evs) as (Hb & _).
    by apply (integerIn_withinBounds brush).
  - destruct (sound_reachable rect evs) as (_ & He & _).
    by apply (integerIn_withinBounds eraser).
  - destruct (sound_reachable rect evs) as (_ & _ & _ & Hall).
    eapply Forall_impl; [exact Hall|]. intros s (_ & _ & Hw).
    by apply integerIn_withinBounds.
Qed.

(** C7 as stated fails: with a two-point stroke open, a second
    pointer-begin changes the state. *)
Lemma second_begin_not_ignored :
  ~ secondBeginIgnored drawingWorld (MouseEvent 100 100).
Proof.
  intros H.
  assert (Hopen : is_Some (currentPath (state drawingWorld)))
    by (vm_compute; eauto).
  specialize (H eq_refl Hopen).
  apply (f_equal (fun st => (fun s => length (points s)) <$> currentPath st))
    in H.
  vm_compute in H. discriminate H.
Qed.

(** C7, amended. A pointer-begin that arrives while a stroke is open, and
    that the component can position, replaces the open stroke by a new
    stroke of that one position under the current configuration; the
    drawing flag stays set, and the committed log and the configuration
    are unchanged (the points of the stroke that was open are in neither
    the log nor the new stroke). *)
Theorem second_begin_replaces_open_stroke w e s p :
  isDrawing (state w) = true ->
  currentPath (state w) = Some s ->
  positionIn w e = Normal p ->
  currentPath (state (step w (beginOf e))) = Some (opened (state w) p)
  /\ points (opened (state w) p) = [p]
  /\ isDrawing (state (step w (beginOf e))) = true
  /\ strokes (state (step w (beginOf e))) = strokes (state w)
  /\ aspectRatio (state (step w (beginOf e))) = aspectRatio (state w)
  /\ activeTool (state (step w (beginOf e))) = activeTool (state w)
  /\ brushColor (state (step w (beginOf e))) = brushColor (state w)
  /\ brushSize (state (step w (beginOf e))) = brushSize (state w)
  /\ eraserSize (state (step w (beginOf e))) = eraserSize (state w).
Proof.
  intros _ _ Hp. by rewrite (begin_state w e p Hp).
Qed.

(* ===================================================================== *)
(** ** Renders that wait *)
(* ===================================================================== *)

Lemma applyUpdates_app st q1 q2 :
  applyUpdates st (q1 ++ q2) = applyUpdates (applyUpdates st q1) q2.
Proof. apply fold_left_app. Qed.

Lemma applyUpdate_comm st u v :
  slotOf u <> slotOf v ->
  applyUpdate (applyUpdate st u) v = applyUpdate (applyUpdate st v) u.
Proof. destruct u, v; simpl; intros H; try done. Qed.

Lemma applyUpdates_comm u q : forall st,
  Forall (fun v => slotOf v <> slotOf u) q ->
  applyUpdates (applyUpdate st u) q = applyUpdate (applyUpdates st q) u.
Proof.
  induction q as [|v q IH]; intros st Hq; [done|].
  apply Forall_cons in Hq as [Hv Hq]. simpl.
  rewrite <- IH by done. f_equal. apply applyUpdate_comm. congruence.
Qed.

Lemma process_state L entries : forall acc,
  (fold_left (processUpdate L) entries acc).1.1
  = applyUpdates acc.1.1
      (map snd (filter (fun e => isSubsetOfLanes L e.1 = true) entries)).
Proof.
  induction entries as [|e entries IH]; intros acc; [done|].
  simpl. rewrite IH. unfold processUpdate.
  rewrite filter_cons.
  destruct (isSubsetOfLanes L e.1) eqn:HL.
  - rewrite decide_True by done.
    by destruct (existsb _ _).
  - rewrite decide_False by done. done.
Qed.

Lemma not_skipped q u :
  existsb (fun e : Lane * Update => bool_decide (slotOf e.2 = slotOf u)) q
  = false ->
  Forall (fun v => slotOf v <> slotOf u) (map snd q).
Proof.
  induction q as [|e q IH]; simpl; intros H; [constructor|].
  apply orb_false_iff in H as [He Hq]. constructor; [|by apply IH].
  by apply bool_decide_eq_false in He.
Qed.

Lemma Forall_map_filter {A B} (g : A -> B) (P : B -> Prop) (Q : A -> Prop)
    `{!forall a, Decision (Q a)} (l : list A) :
  Forall P (map g l) -> Forall P (map g (filter Q l)).
Proof.
  induction l as [|a l IH]; simpl; intros Hl; [done|].
  apply Forall_cons in Hl as [Ha Hl]. rewrite filter_cons.
  destruct (decide (Q a)); simpl; [constructor|]; auto.
Qed.

(** Base state and base queue together always replay every update. *)
Lemma process_replay L entries : forall acc,
  applyUpdates (fold_left (processUpdate L) entries acc).1.2
    (map snd (fold_left (processUpdate L) entries acc).2)
  = applyUpdates (applyUpdates acc.1.2 (map snd acc.2)) (map snd entries).
Proof.
  induction entries as [|e entries IH]; intros acc; [done|].
  simpl. rewrite IH. f_equal. unfold processUpdate.
  destruct (isSubsetOfLanes L e.1).
  - destruct (existsb _ _) eqn:Hq; simpl.
    + by rewrite map_app, applyUpdates_app.
    + apply applyUpdates_comm. by apply not_skipped.
  - simpl. by rewrite map_app, applyUpdates_app.
Qed.

(** In a render at [SyncLane], the new state is the new base state with
    the updates the render applied and kept. *)
Lemma process_sync entries : forall acc,
  acc.1.1
  = applyUpdates acc.1.2
      (map snd (filter (fun e => isSubsetOfLanes SyncLane e.1 = true) acc.2)) ->
  (fold_left (processUpdate SyncLane) entries acc).1.1
  = applyUpdates (fold_left (processUpdate SyncLane) entries acc).1.2
      (map snd (filter (fun e => isSubsetOfLanes SyncLane e.1 = true)
                  (fold_left (processUpdate SyncLane) entries acc).2)).
Proof.
  induction entries as [|e entries IH]; intros acc Hacc; [done|].
  simpl. apply IH. unfold processUpdate.
  destruct (isSubsetOfLanes SyncLane e.1) eqn:HL.
  - destruct (existsb _ _) eqn:Hq; simpl.
    + rewrite filter_app, map_app, applyUpdates_app, <- Hacc.
      rewrite filter_cons, decide_True by done. done.
    + rewrite Hacc. symmetry. apply applyUpdates_comm.
      apply Forall_map_filter. by apply not_skipped.
  - simpl. rewrite filter_app, filter_cons, decide_False by congruence.
    rewrite filter_nil, app_nil_r. done.
Qed.

Lemma process_lanes entries : forall acc,
  Forall (fun e : Lane * Update => e.1 <> SyncLane) acc.2 ->
  Forall (fun e : Lane * Update => e.1 <> SyncLane)
    (fold_left (processUpdate SyncLane) entries acc).2.
Proof.
  induction entries as [|e entries IH]; intros acc Hacc; [done|].
  simpl. apply IH. unfold processUpdate.
  destruct (isSubsetOfLanes SyncLane e.1) eqn:HL.
  - destruct (existsb _ _); simpl; [|done].
    apply Forall_app. split; [done|]. by repeat constructor.
  - simpl. apply Forall_app. split; [done|]. repeat constructor.
    intros E. rewrite E in HL. done.
Qed.

(** A render that skips nothing leaves nothing waiting. *)
Lemma process_all L entries : forall cur base,
  Forall (fun e : Lane * Update => isSubsetOfLanes L e.1 = true) entries ->
  fold_left (processUpdate L) entries (cur, base, [])
  = (applyUpdates cur (map snd entries),
     applyUpdates base (map snd entries), []).
Proof.
  induction entries as [|e entries IH]; intros cur base Hall; [done|].
  apply Forall_cons in Hall as [He Hall]. simpl.
  unfold processUpdate at 2. simpl. rewrite He. by apply IH.
Qed.

Lemma filter_queued L q :
  L <> NoLane ->
  filter (fun e : Lane * Update => isSubsetOfLanes L e.1 = true)
    (map (pair L) q) = map (pair L) q.
Proof.
  intros HL. induction q as [|u q IH]; [done|].
  simpl. rewrite filter_cons, decide_True, IH; [done|].
  simpl. by destruct L.
Qed.

Lemma map_snd_pair {A B} (a : A) (l : list B) : map snd (map (pair a) l) = l.
Proof. induction l; simpl; congruence. Qed.

Lemma settled_consistent f : settled f -> consistent f.
Proof. intros [Hq Hb]. split; rewrite Hq; [by rewrite Hb|constructor]. Qed.

Lemma mounted_settled rect : settled (mountedFiber rect).
Proof. done. Qed.

Lemma sync_state f q :
  consistent f ->
  state (committed (renderAt SyncLane f q))
  = applyUpdates (state (committed f)) q.
Proof.
  intros [Hst _]. unfold renderAt. cbn [committed state].
  unfold processQueue. rewrite process_state. cbn [fst].
  rewrite filter_app, map_app, applyUpdates_app, <- Hst.
  by rewrite filter_queued, map_snd_pair.
Qed.

Lemma sync_consistent f q :
  consistent f -> consistent (renderAt SyncLane f q).
Proof.
  intros [_ Hl]. unfold consistent, renderAt.
  cbn [committed state baseState baseQueue].
  unfold processQueue. split.
  - by apply process_sync.
  - apply process_lanes. constructor.
Qed.

Lemma eventual_renderAt L f q :
  eventual (renderAt L f q) = applyUpdates (eventual f) q.
Proof.
  unfold eventual, renderAt. cbn [baseState baseQueue].
  unfold processQueue. rewrite process_replay. cbn [fst snd map].
  cbn [applyUpdates fold_left].
  by rewrite map_app, applyUpdates_app, map_snd_pair.
Qed.

Lemma dispatch_sync f ev :
  (forall rect, ev <> layout rect) ->
  eventPriority ev = SyncLane ->
  dispatch f ev = match (handlerOf (committed f) ev).1 with
                  | [] => f
                  | q => renderAt SyncLane f q
                  end.
Proof.
  intros Hlay Hp. destruct ev; try done; unfold dispatch;
    try (by destruct (handlerOf _ _).1).
  by destruct (Hlay rect).
Qed.

Lemma dispatch_held f ev :
  eventPriority ev = InputContinuousLane ->
  dispatch f ev
  = match (handlerOf (committed f) ev).1 with
    | [] => f
    | q => {| committed := committed f;
              baseState := baseState f;
              baseQueue := baseQueue f ++ map (pair InputContinuousLane) q |}
    end.
Proof.
  intros Hp. destruct ev; try done; unfold dispatch;
    by destruct (handlerOf _ _).1.
Qed.

Lemma priority_cases ev :
  (exists rect, ev = layout rect)
  \/ ((forall rect, ev <> layout rect) /\ eventPriority ev = SyncLane)
  \/ eventPriority ev = InputContinuousLane.
Proof. destruct ev; eauto; right; left; by split. Qed.

(** A discrete event takes effect on the committed state at once,
    whatever waits. *)
Lemma dispatch_discrete_state f ev :
  consistent f ->
  eventPriority ev = SyncLane ->
  state (committed (dispatch f ev))
  = applyUpdates (state (committed f)) (handlerOf (committed f) ev).1.
Proof.
  intros Hc Hp.
  destruct (priority_cases ev) as [[rect ->]|[[Hlay _]|Hp']];
    [done| |congruence].
  rewrite dispatch_sync by done.
  destruct (handlerOf _ _).1 as [|u q] eqn:Hq; [done|].
  by apply sync_state.
Qed.

(** A continuous event leaves the committed render as it is. *)
Lemma dispatch_continuous_committed f ev :
  eventPriority ev = InputContinuousLane ->
  committed (dispatch f ev) = committed f.
Proof.
  intros Hp. rewrite dispatch_held by done.
  by destruct (handlerOf _ _).1.
Qed.

Lemma consistent_dispatch f ev : consistent f -> consistent (dispatch f ev).
Proof.
  intros Hc.
  destruct (priority_cases ev) as [[rect ->]|[[Hlay Hp]|Hp]].
  - exact Hc.
  - rewrite dispatch_sync by done.
    destruct (handlerOf _ _).1; [done|]. by apply sync_consistent.
  - rewrite dispatch_held by done.
    destruct (handlerOf _ _).1 as [|u q]; [done|].
    destruct Hc as [Hst Hl]. split; cbn [committed baseState baseQueue].
    + rewrite filter_app.
      replace (filter _ (map (pair InputContinuousLane) (u :: q)))
        with (@nil (Lane * Update)); [by rewrite app_nil_r|].
      generalize (u :: q). intros l. induction l as [|v l IH]; [done|].
      simpl. by rewrite filter_cons, decide_False.
    + apply Forall_app. split; [done|].
      generalize (u :: q). intros l. induction l; by constructor.
Qed.

(** What the state will be once everything is rendered: every handler's
    updates, in the order of the events. *)
Lemma eventual_dispatch f ev :
  eventual (dispatch f ev)
  = applyUpdates (eventual f) (handlerOf (committed f) ev).1.
Proof.
  destruct (priority_cases ev) as [[rect ->]|[[Hlay Hp]|Hp]].
  - done.
  - rewrite dispatch_sync by done.
    destruct (handlerOf _ _).1 as [|u q] eqn:Hq; [done|].
    apply eventual_renderAt.
  - rewrite dispatch_held by done.
    destruct (handlerOf _ _).1 as [|u q] eqn:Hq; [done|].
    unfold eventual. cbn [baseState baseQueue].
    by rewrite map_app, applyUpdates_app, map_snd_pair.
Qed.

Lemma flush_settles f :
  consistent f ->
  state (committed (flush f)) = eventual f /\ settled (flush f).
Proof.
  intros [Hst Hl]. unfold flush, eventual.
  destruct (baseQueue f) as [|e q] eqn:Hq.
  - simpl in Hst. by repeat split.
  - unfold renderAt, settled. cbn [committed state baseState baseQueue].
    rewrite Hq, app_nil_r. unfold processQueue. rewrite process_all; [done|].
    eapply Forall_impl; [exact Hl|]. intros [[] u] H; done.
Qed.

Lemma settled_flush f : settled f -> flush f = f.
Proof. intros [Hq _]. unfold flush. by rewrite Hq. Qed.

Lemma schedule_app f t1 t2 :
  schedule f (t1 ++ t2) = schedule (schedule f t1) t2.
Proof. apply fold_left_app. Qed.

Lemma consistent_schedule tasks : forall f,
  consistent f -> consistent (schedule f tasks).
Proof.
  induction tasks as [|t tasks IH]; intros f Hc; [done|].
  simpl. apply IH. destruct t; simpl.
  - by apply consistent_dispatch.
  - apply settled_consistent. by apply flush_settles.
Qed.

Lemma drawRebuilt_handler w ev L :
  L <> NoLane ->
  drawRebuilt (state w) (applyUpdates (state w) (handlerOf w ev).1)
    (map (pair L) (handlerOf w ev).1)
  = drawInputChanged (state w) (handlerOf w ev).1.
Proof.
  intros HL.
  assert (Hdown : forall e,
    drawRebuilt (state w)
      (applyUpdates (state w) (handleMouseDown (current w) (state w) e).1)
      (map (pair L) (handleMouseDown (current w) (state w) e).1)
    = drawInputChanged (state w) (handleMouseDown (current w) (state w) e).1).
  { intros e. unfold handleMouseDown. simpl.
    destruct (getCanvasCoordinates _ _); destruct L; try done;
      unfold drawRebuilt, lastWrite; simpl; rewrite ?orb_false_r; done. }
  assert (Hmove : forall e,
    drawRebuilt (state w)
      (applyUpdates (state w) (handleMouseMove (current w) (state w) e).1)
      (map (pair L) (handleMouseMove (current w) (state w) e).1)
    = drawInputChanged (state w) (handleMouseMove (current w) (state w) e).1).
  { intros e. unfold handleMouseMove.
    destruct (_ || _); [done|]. simpl.
    destruct (getCanvasCoordinates _ _); destruct L; try done;
      unfold drawRebuilt, lastWrite; simpl; rewrite ?orb_false_r; done. }
  assert (Hup :
    drawRebuilt (state w)
      (applyUpdates (state w) (handleMouseUp (state w)).1)
      (map (pair L) (handleMouseUp (state w)).1)
    = drawInputChanged (state w) (handleMouseUp (state w)).1).
  { unfold handleMouseUp.
    destruct (currentPath (state w)) eqn:Hc; destruct L; try done;
      unfold drawRebuilt, lastWrite; simpl; rewrite ?Hc; done. }
  destruct ev; simpl handlerOf; auto;
    try (destruct L; done).
  destruct (colors !! index); destruct L; done.
Qed.

Lemma step_idle w ev :
  (forall rect, ev <> layout rect) ->
  (handlerOf w ev).1 = [] ->
  step w ev = w.
Proof.
  intros Hlay Hq. unfold step. rewrite Hq. cbn [applyUpdates fold_left].
  rewrite ratio_eqb_refl. cbn [drawInputChanged].
  destruct w as [st ref σ]. cbn [state canvasRef store]. f_equal.
  destruct ev; try (by destruct ref). by destruct (Hlay rect).
Qed.

(** On a fiber with nothing waiting, the render of the updates of one
    event is the render [step] commits. *)
Lemma commit_is_step L f ev entries queued :
  L <> NoLane ->
  settled f ->
  (forall rect, ev <> layout rect) ->
  entries ++ map (pair L) queued = map (pair L) (handlerOf (committed f) ev).1 ->
  let g := renderAt L {| committed := committed f; baseState := baseState f;
                         baseQueue := entries |} queued in
  committed g = step (committed f) ev /\ settled g.
Proof.
  intros HL [Hq Hb] Hlay Hentries g. unfold g, renderAt, settled.
  cbn [committed baseState baseQueue state canvasRef store].
  rewrite Hentries, filter_queued by done.
  unfold processQueue. rewrite process_all.
  2:{ generalize ((handlerOf (committed f) ev).1). intros l.
      induction l; constructor; [by destruct L|done]. }
  cbn [fst snd]. rewrite map_snd_pair, Hb.
  split; [|done].
  unfold step. rewrite drawRebuilt_handler by done.
  f_equal.
  assert (Hσ0 : match ev, canvasRef (committed f) with
                | layout rect, Some canvas =>
                    alter (moveCanvas rect) canvas (store (committed f))
                | _, _ => store (committed f)
                end = store (committed f)).
  { destruct ev; try done. by destruct (Hlay rect). }
  by rewrite Hσ0.
Qed.

Lemma fiber_eta f :
  {| committed := committed f; baseState := baseState f;
     baseQueue := baseQueue f |} = f.
Proof. by destruct f. Qed.

(** [step] is an event followed by the render of its updates. *)
Lemma dispatch_flush_is_step f ev :
  settled f ->
  committed (flush (dispatch f ev)) = step (committed f) ev
  /\ settled (flush (dispatch f ev)).
Proof.
  intros Hs. pose proof Hs as [Hq Hb].
  destruct (priority_cases ev) as [[rect ->]|[[Hlay Hp]|Hp]].
  - assert (Hs' : settled (dispatch f (layout rect))) by done.
    rewrite settled_flush by done. split; [|done].
    unfold dispatch, step. simpl. rewrite ratio_eqb_refl.
    f_equal. by destruct (canvasRef (committed f)).
  - rewrite dispatch_sync by done.
    destruct (handlerOf _ _).1 as [|u q] eqn:Hh.
    + rewrite settled_flush by done. split; [|done].
      symmetry. by apply step_idle.
    + destruct (commit_is_step SyncLane f ev [] (u :: q)) as [Hc Hs'];
        try done.
      { by rewrite Hh. }
      rewrite <- Hq, fiber_eta in Hc, Hs'.
      by rewrite settled_flush.
  - assert (Hlay : forall rect, ev <> layout rect) by by destruct ev.
    rewrite dispatch_held by done.
    destruct (handlerOf _ _).1 as [|u q] eqn:Hh.
    + rewrite settled_flush by done. split; [|done].
      symmetry. by apply step_idle.
    + unfold flush. cbn [baseQueue]. rewrite Hq. cbn [app map].
      apply (commit_is_step InputContinuousLane f ev
               (map (pair InputContinuousLane) (u :: q)) []); try done.
      by rewrite Hh, app_nil_r.
Qed.

Lemma dispatch_discrete_is_step f ev :
  settled f ->
  eventPriority ev = SyncLane ->
  committed (dispatch f ev) = step (committed f) ev
  /\ settled (dispatch f ev).
Proof.
  intros Hs Hp.
  destruct (dispatch_flush_is_step f ev Hs) as [Hc Hs'].
  assert (H : settled (dispatch f ev)).
  { destruct (priority_cases ev) as [[rect ->]|[[Hlay _]|Hp']];
      [done| |congruence].
    rewrite dispatch_sync by done.
    destruct (handlerOf _ _).1 as [|u q] eqn:Hh; [done|].
    destruct (commit_is_step SyncLane f ev [] (u :: q)) as [_ Hs''];
      try done.
    { by rewrite Hh. }
    destruct Hs as [Hq _]. by rewrite <- Hq, fiber_eta in Hs''. }
  rewrite settled_flush in Hc by done. done.
Qed.

(** [run] is the schedule in which every event is rendered before the
    next one arrives. *)
Lemma rendered_is_run evs : forall f,
  settled f ->
  committed (schedule f (rendered evs)) = run (committed f) evs
  /\ settled (schedule f (rendered evs)).
Proof.
  induction evs as [|ev evs IH]; intros f Hs; [done|].
  destruct (dispatch_flush_is_step f ev Hs) as [Hc Hs'].
  cbn [rendered flat_map app]. cbn [schedule fold_left perform].
  destruct (IH _ Hs') as [Hc' Hs'']. split; [|exact Hs''].
  rewrite run_cons, <- Hc. exact Hc'.
Qed.

Lemma move_queue w e :
  Forall (fun u => slotOf u = CurrentPathSlot) (handlerOf w (moveOf e)).1.
Proof.
  destruct e; simpl; unfold handleMouseMove;
    (destruct (_ || _); [constructor|]); simpl;
    destruct (getCanvasCoordinates _ _); repeat constructor.
Qed.

Lemma end_queue w ev s :
  pointerEnd ev ->
  currentPath (state w) = Some s ->
  (handlerOf w ev).1
  = [setStrokesWith (fun prev => prev ++ [s]); setCurrentPath None;
     setIsDrawing false].
Proof.
  intros [-> | [-> | ->]] Hc; simpl; unfold handleMouseUp; by rewrite Hc.
Qed.

Lemma only_currentPath q : forall st,
  Forall (fun u => slotOf u = CurrentPathSlot) q ->
  withCurrentPath None (applyUpdates st q) = withCurrentPath None st.
Proof.
  induction q as [|u q IH]; intros st Hq; [done|].
  apply Forall_cons in Hq as [Hu Hq]. simpl.
  change (fold_left applyUpdate q (applyUpdate st u))
    with (applyUpdates (applyUpdate st u) q).
  rewrite IH by done. by destruct u.
Qed.

Lemma settled_eventual f : settled f -> eventual f = state (committed f).
Proof. intros [Hq Hb]. unfold eventual. by rewrite Hq, Hb. Qed.

(** Moves that wait: the committed render stays, their updates are of
    the in-progress stroke only. *)
Lemma held_moves held : forall f,
  consistent f ->
  let g := schedule f (map (fun e => handle (moveOf e)) held) in
  committed g = committed f
  /\ consistent g
  /\ exists q, eventual g = applyUpdates (eventual f) q
               /\ Forall (fun u => slotOf u = CurrentPathSlot) q.
Proof.
  induction held as [|e held IH]; intros f Hc; cbn zeta.
  - split; [done|]. split; [done|]. by exists [].
  - cbn [map schedule fold_left perform].
    assert (Hp : eventPriority (moveOf e) = InputContinuousLane) by by destruct e.
    destruct (IH (dispatch f (moveOf e))) as (Hw & Hc' & q & Hq & Hall).
    { by apply consistent_dispatch. }
    split; [|split; [done|]].
    + unfold schedule in Hw. rewrite Hw.
      by apply dispatch_continuous_committed.
    + exists ((handlerOf (committed f) (moveOf e)).1 ++ q). split.
      * unfold schedule in Hq. rewrite Hq, eventual_dispatch.
        by rewrite applyUpdates_app.
      * apply Forall_app. split; [apply move_queue|done].
Qed.

(** The end of a gesture, once everything is rendered: the stroke of the
    render that handled the end is committed, whatever moves waited. *)
Lemma end_after_held f held endEv s :
  settled f ->
  pointerEnd endEv ->
  currentPath (state (committed f)) = Some s ->
  let f' := schedule f (map (fun e => handle (moveOf e)) held
                        ++ [handle endEv; scheduledRender]) in
  state (committed f')
  = applyUpdate
      (withCurrentPath None
         (withStrokes (strokes (state (committed f)) ++ [s])
            (state (committed f))))
      (setIsDrawing false)
  /\ settled f'.
Proof.
  intros Hs Hend Hcp f'. unfold f'. rewrite schedule_app.
  destruct (held_moves held f (settled_consistent f Hs))
    as (Hw & Hc & q & Hq & Hall).
  revert Hw Hc Hq.
  generalize (schedule f (map (fun e => handle (moveOf e)) held)).
  intros g Hw Hc Hq.
  cbn [schedule fold_left perform].
  destruct (flush_settles (dispatch g endEv)) as [Hst Hs'].
  { by apply consistent_dispatch. }
  split; [|exact Hs'].
  rewrite Hst, eventual_dispatch, Hq, Hw, (end_queue _ endEv s Hend Hcp).
  rewrite (settled_eventual f Hs).
  cbn [applyUpdates fold_left applyUpdate].
  pose proof (only_currentPath q (state (committed f)) Hall) as Hq'.
  revert Hq'. generalize (applyUpdates (state (committed f)) q).
  intros st Hq'.
  unfold withCurrentPath, withStrokes in *. simpl in *.
  injection Hq' as H1 H2 H3 H4 H5 H6 H7. congruence.
Qed.

Lemma move_queue_open w e s p :
  isDrawing (state w) = true ->
  currentPath (state w) = Some s ->
  positionIn w e = Normal p ->
  (handlerOf w (moveOf e)).1 = [setCurrentPathWith (appendPoint p)].
Proof.
  unfold positionIn. intros Hd Hc Hp.
  destruct e; simpl; unfold handleMouseMove; rewrite Hd, Hc; simpl;
    by rewrite Hp.
Qed.

Lemma position_same w w' e :
  canvasRef w' = canvasRef w ->
  sameFrame (store w) (store w') ->
  positionIn w' e = positionIn w e.
Proof.
  intros Href Hgeo. unfold positionIn. apply position_frame.
  unfold current. rewrite Href.
  destruct (canvasRef w) as [canvas|]; simpl; [|done].
  specialize (Hgeo canvas).
  destruct (store w !! canvas), (store w' !! canvas); try done.
  unfold frame in Hgeo. simpl in *. congruence.
Qed.

(** The render of what waits leaves every input where it was, when the
    aspect ratio is not among what waits. *)
Lemma position_flush f e :
  consistent f ->
  aspectRatio (eventual f) = aspectRatio (state (committed f)) ->
  positionIn (committed (flush f)) e = positionIn (committed f) e.
Proof.
  intros Hc Har. destruct (flush_settles f Hc) as [Hst _].
  revert Hst. unfold flush.
  destruct (baseQueue f) as [|entry q] eqn:Hq; [done|].
  intros Hst. apply position_same; [done|].
  revert Hst. unfold renderAt. cbn [committed state canvasRef store].
  intros Hst. rewrite Hst, Har, ratio_eqb_refl.
  assert (Hσ1 : match canvasRef (committed f) with
                | Some _ => store (committed f)
                | None => store (committed f)
                end = store (committed f))
    by by destruct (canvasRef (committed f)).
  rewrite Hσ1.
  destruct (drawRebuilt _ _ _); [apply keeps_draw|apply sameFrame_refl].
Qed.

(** Between the begin and the end of a gesture: the committed render has
    a stroke open, and what waits extends it by the position of every
    move, in order. *)
Lemma during_stroke w0 base l : forall f s ps,
  isDrawing base = true ->
  consistent f ->
  (forall e, positionIn (committed f) e = positionIn w0 e) ->
  (exists s', state (committed f) = withCurrentPath (Some s') base) ->
  eventual f = withCurrentPath (Some s) base ->
  Forall2 (fun e p => positionIn w0 e = Normal p) (omap id l) ps ->
  let g := schedule f (duringStroke l) in
  consistent g
  /\ (forall e, positionIn (committed g) e = positionIn w0 e)
  /\ (exists s', state (committed g) = withCurrentPath (Some s') base)
  /\ eventual g = withCurrentPath (Some (extended s ps)) base.
Proof.
  induction l as [|[e|] l IH]; intros f s ps Hd Hc Hpos [s' Hst] Hev Hps;
    cbn zeta.
  - apply Forall2_nil_inv_l in Hps as ->. simpl.
    split; [done|]. split; [done|]. split; [by exists s'|].
    rewrite Hev. unfold extended. rewrite app_nil_r. by destruct s.
  - cbn [omap id] in Hps. simpl in Hps.
    apply Forall2_cons_inv_l in Hps as (p & ps' & Hp & Hps & ->).
    change (schedule f (duringStroke (Some e :: l)))
      with (schedule (dispatch f (moveOf e)) (duringStroke l)).
    assert (Hprio : eventPriority (moveOf e) = InputContinuousLane)
      by by destruct e.
    assert (Hq : (handlerOf (committed f) (moveOf e)).1
                 = [setCurrentPathWith (appendPoint p)]).
    { apply (move_queue_open _ e s' p); rewrite ?Hst; try done.
      by rewrite Hpos. }
    destruct (IH (dispatch f (moveOf e)) (extended s [p]) ps')
      as (Hc' & Hpos' & Hst' & Hev'); try done.
    + by apply consistent_dispatch.
    + intros e'. by rewrite dispatch_continuous_committed.
    + exists s'. by rewrite dispatch_continuous_committed.
    + by rewrite eventual_dispatch, Hq, Hev.
    + split; [done|]. split; [done|]. split; [done|].
      rewrite Hev'. by rewrite extended_extended.
  - cbn [omap id] in Hps. simpl in Hps.
    change (schedule f (duringStroke (None :: l)))
      with (schedule (flush f) (duringStroke l)).
    destruct (flush_settles f Hc) as [Hfl Hs].
    apply (IH (flush f) s ps); try done.
    + by apply settled_consistent.
    + intros e. rewrite position_flush; [done|done|].
      by rewrite Hev, Hst.
    + exists s. by rewrite Hfl.
    + by rewrite (settled_eventual _ Hs), Hfl.
Qed.

Lemma withCurrentPath_same st s :
  currentPath st = Some s -> withCurrentPath (Some s) st = st.
Proof. destruct st. simpl. by intros ->. Qed.

(** C5. The stroke a gesture commits holds the position of the
    pointer-begin and of the moves React had rendered when the
    pointer-end was handled, in order, however moves and renders were
    interleaved before: [handleMouseUp] commits the [currentPath] of its
    own render, so the [held] moves, which still wait for their render,
    are lost for good. The stroke has [k + 1] points only when no move
    waits; with [k] moves of which [j] wait it has [k + 1 - j]. Once
    rendered, every move made while a stroke is open has appended
    exactly its own position, whether rendered alone or with others;
    with no stroke open a move queues nothing. *)
Theorem end_commits_rendered_moves :
  (forall f e0 p0 l ps held endEv,
      settled f ->
      pointerEnd endEv ->
      positionIn (committed f) e0 = Normal p0 ->
      Forall2 (fun e p => positionIn (committed f) e = Normal p)
        (omap id l) ps ->
      let f' := schedule f (handle (beginOf e0) :: duringStroke l
                            ++ [scheduledRender]
                            ++ map (fun e => handle (moveOf e)) held
                            ++ [handle endEv; scheduledRender]) in
      strokes (state (committed f'))
        = strokes (state (committed f))
          ++ [extended (opened (state (committed f)) p0) ps]
      /\ points (extended (opened (state (committed f)) p0) ps) = p0 :: ps
      /\ length (p0 :: ps) = (length (omap id l) + 1)%nat
      /\ currentPath (state (committed f')) = None
      /\ settled f')
  /\ (forall f l ps s,
        settled f ->
        isDrawing (state (committed f)) = true ->
        currentPath (state (committed f)) = Some s ->
        Forall2 (fun e p => positionIn (committed f) e = Normal p)
          (omap id l) ps ->
        currentPath (state (committed
          (schedule f (duringStroke l ++ [scheduledRender]))))
        = Some (extended s ps)
        /\ length (points (extended s ps))
           = (length (points s) + length (omap id l))%nat)
  /\ (forall f e,
        currentPath (state (committed f)) = None ->
        dispatch f (moveOf e) = f).
Proof.
  split; [|split].
  - intros f e0 p0 l ps held endEv Hs Hend Hp0 Hps f'.
    assert (Hne1 : forall rect, beginOf e0 <> layout rect) by by destruct e0.
    assert (Hne2 : forall r, beginOf e0 <> clickRatio r) by by destruct e0.
    assert (Hprio : eventPriority (beginOf e0) = SyncLane) by by destruct e0.
    destruct (dispatch_discrete_is_step f (beginOf e0) Hs Hprio)
      as [Hstep Hs0].
    pose proof (begin_state (committed f) e0 p0 Hp0) as Hb.
    set (base := applyUpdate (state (committed f)) (setIsDrawing true)) in *.
    destruct (during_stroke (committed f) base l (dispatch f (beginOf e0))
                (opened (state (committed f)) p0) ps)
      as (Hc & _ & _ & Hev); try done.
    { by apply settled_consistent. }
    { intros e. rewrite Hstep. by apply position_step. }
    { exists (opened (state (committed f)) p0). by rewrite Hstep. }
    { by rewrite (settled_eventual _ Hs0), Hstep. }
    unfold f'.
    change (schedule f (handle (beginOf e0) :: ?t))
      with (schedule (dispatch f (beginOf e0)) t).
    rewrite schedule_app.
    revert Hc Hev.
    generalize (schedule (dispatch f (beginOf e0)) (duringStroke l)).
    intros g Hc Hev.
    change (schedule g ([scheduledRender] ++ ?t))
      with (schedule (flush g) t).
    destruct (flush_settles g Hc) as [Hfl Hs1].
    destruct (end_after_held (flush g) held endEv
                (extended (opened (state (committed f)) p0) ps) Hs1 Hend)
      as [Hst Hs2].
    { by rewrite Hfl, Hev. }
    rewrite Hst, Hfl, Hev.
    split; [done|]. split; [done|].
    split; [simpl; apply Forall2_length in Hps; lia|].
    split; [done|exact Hs2].
  - intros f l ps s Hs Hd Hcp Hps.
    destruct (during_stroke (committed f) (state (committed f)) l f s ps)
      as (Hc & _ & _ & Hev); try done.
    { by apply settled_consistent. }
    { exists s. by rewrite withCurrentPath_same. }
    { by rewrite (settled_eventual _ Hs), withCurrentPath_same. }
    rewrite schedule_app.
    change (schedule ?g [scheduledRender]) with (flush g).
    destruct (flush_settles _ Hc) as [Hfl _].
    rewrite Hfl, Hev. split; [done|].
    simpl. rewrite length_app. apply Forall2_length in Hps. lia.
  - intros f e Hc.
    assert (Hp : eventPriority (moveOf e) = InputContinuousLane) by by destruct e.
    rewrite dispatch_held by done.
    assert (Hq : (handlerOf (committed f) (moveOf e)).1 = []).
    { destruct e; simpl; unfold handleMouseMove; rewrite Hc; simpl;
        by rewrite orb_true_r. }
    by rewrite Hq.
Qed.

(** What a handler queues on a sound render keeps any sound state
    sound, also a state other than the one the handler has seen. *)
Lemma sound_handler w st ev :
  soundState (state w) -> soundState st ->
  soundState (applyUpdates st (handlerOf w ev).1).
Proof.
  intros Hw Hs. pose proof Hs as (Hb & He & Hc & Hall).
  pose proof Hw as (_ & _ & _ & Hwall).
  unfold combined in Hall, Hwall.
  apply Forall_app in Hall as [Hlog Hcur].
  apply Forall_app in Hwall as [Hwlog Hwcur].
  assert (Hbegin : forall e,
             soundState (applyUpdates st
                           (handleMouseDown (current w) (state w) e).1)).
  { intros e. unfold handleMouseDown. simpl.
    destruct (getCanvasCoordinates (current w) e) as [p|err]; simpl.
    - repeat split; try done. unfold combined; simpl.
      apply Forall_app. split; [done|].
      constructor; [|constructor]. by apply (sound_opened (state w) p).
    - repeat split; try done. unfold combined; simpl.
      apply Forall_app. by split. }
  assert (Hmove : forall e,
             soundState (applyUpdates st
                           (handleMouseMove (current w) (state w) e).1)).
  { intros e. unfold handleMouseMove.
    destruct (_ || _); [done|]. simpl.
    destruct (getCanvasCoordinates (current w) e) as [p|err]; simpl; [|done].
    repeat split; try done. unfold combined; simpl.
    apply Forall_app. split; [done|].
    destruct (currentPath st) as [s|]; simpl; [|constructor].
    constructor; [|constructor].
    apply (sound_extended s [p]). by inversion Hcur. }
  assert (Hend : soundState (applyUpdates st (handleMouseUp (state w)).1)).
  { unfold handleMouseUp.
    destruct (currentPath (state w)) as [s|]; simpl.
    - repeat split; try done. unfold combined; simpl.
      rewrite app_nil_r. apply Forall_app. split; [done|].
      constructor; [|constructor]. by inversion Hwcur.
    - repeat split; try done. unfold combined; simpl.
      rewrite app_nil_r. done. }
  destruct ev; simpl; try done;
    try (repeat split; try done; by unfold combined).
  - repeat split; try done. unfold combined; simpl.
    apply Forall_app. split; [|done].
    rewrite slice_all_but_last. by apply Forall_take.
  - destruct (colors !! index) as [entry|] eqn:Hentry; simpl; [|done].
    repeat split; try done; try (by eapply palette_lookup);
      unfold combined; simpl; apply Forall_app; by split.
  - repeat split; try done; try (apply (slider_integer 50); by left);
      unfold combined; simpl; apply Forall_app; by split.
  - repeat split; try done; try (apply (slider_integer 100); by right);
      unfold combined; simpl; apply Forall_app; by split.
Qed.

Lemma drawing_handler w st ev :
  openMeansDrawing st ->
  openMeansDrawing (applyUpdates st (handlerOf w ev).1).
Proof.
  unfold openMeansDrawing. intros H.
  assert (Hbegin : forall e,
    let st' := applyUpdates st (handleMouseDown (current w) (state w) e).1 in
    currentPath st' = None \/ isDrawing st' = true).
  { intros e. unfold handleMouseDown. simpl.
    destruct (getCanvasCoordinates _ _); simpl; by right. }
  assert (Hmove : forall e,
    let st' := applyUpdates st (handleMouseMove (current w) (state w) e).1 in
    currentPath st' = None \/ isDrawing st' = true).
  { intros e. unfold handleMouseMove. destruct (_ || _); [done|]. simpl.
    destruct (getCanvasCoordinates _ _); simpl; [|done].
    destruct H as [-> | H]; [by left|by right]. }
  assert (Hend :
    let st' := applyUpdates st (handleMouseUp (state w)).1 in
    currentPath st' = None \/ isDrawing st' = true).
  { unfold handleMouseUp. destruct (currentPath (state w)); simpl; by left. }
  destruct ev; simpl; auto.
  by destruct (colors !! index).
Qed.

Lemma scheduleInvariant_perform f task :
  scheduleInvariant f -> scheduleInvariant (perform f task).
Proof.
  intros (Hc & Hs & Hse & Hd & Hde). destruct task as [ev|]; simpl.
  - assert (Hst : state (committed (dispatch f ev)) = state (committed f)
                  \/ state (committed (dispatch f ev))
                     = applyUpdates (state (committed f))
                         (handlerOf (committed f) ev).1).
    { destruct (priority_cases ev) as [[rect ->]|[[Hlay Hp]|Hp]].
      - by left.
      - right. by apply dispatch_discrete_state.
      - left. by rewrite dispatch_continuous_committed. }
    split; [by apply consistent_dispatch|].
    rewrite eventual_dispatch.
    destruct Hst as [-> | ->];
      (split; [|split; [|split]]);
      try done; try (by apply sound_handler); by apply drawing_handler.
  - destruct (flush_settles f Hc) as [Hst Hsettled].
    split; [by apply settled_consistent|].
    by rewrite (settled_eventual _ Hsettled), Hst.
Qed.

Lemma scheduleInvariant_schedule tasks : forall f,
  scheduleInvariant f -> scheduleInvariant (schedule f tasks).
Proof.
  induction tasks as [|t tasks IH]; intros f Hf; [done|].
  simpl. apply IH. by apply scheduleInvariant_perform.
Qed.

Lemma scheduleInvariant_mounted rect : scheduleInvariant (mountedFiber rect).
Proof.
  split; [apply settled_consistent, mounted_settled|].
  split; [apply sound_initial|]. split; [apply sound_initial|].
  split; by left.
Qed.

(** X20. Under every schedule of React's renders - whatever events are
    handled before the updates of a move or a leave are rendered - the
    committed state of the mounted component keeps the invariants of the
    input tracker: every committed stroke and the in-progress stroke has
    at least one point, both configured widths and the width of every
    stroke lie within the bounds of its tool, and a stroke is in
    progress only while the drawing flag is set. *)
Theorem invariants_under_every_schedule rect tasks :
  let st := state (committed (schedule (mountedFiber rect) tasks)) in
  Forall (fun s => 1 <= length (points s))%nat
    (combined (strokes st) (currentPath st))
  /\ withinBounds 1 50 (brushSize st)
  /\ withinBounds 1 100 (eraserSize st)
  /\ Forall (fun s => withinBounds 1 (maxWidth (tool s)) (width s))
       (combined (strokes st) (currentPath st))
  /\ (currentPath st = None \/ isDrawing st = true).
Proof.
  intros st.
  destruct (scheduleInvariant_schedule tasks _ (scheduleInvariant_mounted rect))
    as (_ & (Hb & He & _ & Hall) & _ & Hd & _).
  fold st in Hb, He, Hall, Hd.
  split; [|split; [|split; [|split]]].
  - eapply Forall_impl; [exact Hall|]. by intros s (Hl & _).
  - by apply (integerIn_withinBounds brush).
  - by apply (integerIn_withinBounds eraser).
  - eapply Forall_impl; [exact Hall|]. intros s (_ & _ & Hw).
    by apply integerIn_withinBounds.
  - exact Hd.
Qed.

(** X21. [step] is what React does when nothing waits: an event
    followed by the render of its updates commits exactly the world of
    [step], so that [run] is the schedule in which every event is
    rendered before the next; the handler of a press, a release, a click
    or a change acts on the committed state as [step] says whatever
    waits; and under every schedule the committed state is the one
    React computes from the base state and the queue. *)
Theorem step_is_event_then_render :
  (forall f ev,
      settled f ->
      committed (schedule f [handle ev; scheduledRender])
      = step (committed f) ev
      /\ settled (schedule f [handle ev; scheduledRender]))
  /\ (forall f evs,
        settled f ->
        committed (schedule f (rendered evs)) = run (committed f) evs)
  /\ (forall f ev,
        consistent f ->
        eventPriority ev = SyncLane ->
        state (committed (dispatch f ev)) = state (step (committed f) ev))
  /\ (forall rect tasks, consistent (schedule (mountedFiber rect) tasks)).
Proof.
  split; [|split; [|split]].
  - intros f ev Hs. by apply dispatch_flush_is_step.
  - intros f evs Hs. by apply rendered_is_run.
  - intros f ev Hc Hp. rewrite state_step. by apply dispatch_discrete_state.
  - intros rect tasks. apply consistent_schedule.
    apply settled_consistent, mounted_settled.
Qed.

(* ===================================================================== *)
(** ** The surface controller *)
(* ===================================================================== *)

Lemma sameFrame_lookup σ σ' id cv :
  sameFrame σ σ' -> σ !! id = Some cv ->
  exists cv', σ' !! id = Some cv' /\ frame cv' = frame cv.
Proof.
  intros H Hcv. specialize (H id). rewrite Hcv in H.
  destruct (σ' !! id) as [cv'|]; [|done].
  exists cv'. split; [done|]. simpl in H. congruence.
Qed.

Lemma frame_free cv cv' :
  frame cv' = frame cv ->
  contextMode cv <> ContextOther -> contextMode cv' <> ContextOther.
Proof.
  unfold frame. intros [= _ _ _ Hk] Hm.
  destruct (contextMode cv), (contextMode cv'); done.
Qed.

Lemma sized_mounted rect : sizedFor (mounted rect).
Proof.
  set (cv0 := {| DOM.width := canvasWidth (aspectRatio initialState);
                 height := canvasHeight; boundingClientRect := rect;
                 contextMode := NoContext; bitmap := [] |}).
  destruct (sameFrame_lookup {[ 0%nat := cv0 ]}
              (store (mounted rect)) 0%nat cv0) as (cv' & Hcv' & Hfr).
  - apply keeps_draw.
  - apply lookup_singleton_eq.
  - exists 0%nat, cv'.
    pose proof (frame_free cv0 cv' Hfr) as Hfree.
    unfold frame in Hfr. injection Hfr as Hw Hh _ _.
    repeat split; [done|done|done|]. by apply Hfree.
Qed.

Lemma sized_step_other w ev :
  (forall rect, ev <> layout rect) ->
  (forall r, ev <> clickRatio r) ->
  sizedFor w -> sizedFor (step w ev).
Proof.
  intros Hlay Hratio (canvas & cv & Href & Hcv & Hw & Hh & Hfree).
  destruct (step_keeps_frame w ev Hlay Hratio) as [Href' Hgeo].
  destruct (sameFrame_lookup _ _ canvas cv Hgeo Hcv) as (cv' & Hcv' & Hfr).
  exists canvas, cv'. rewrite Href', aspectRatio_step by done.
  pose proof (frame_free cv cv' Hfr Hfree) as Hfree'.
  unfold frame in Hfr. injection Hfr as Hw' Hh' _ _.
  repeat split; [done|done|congruence|congruence|done].
Qed.

Lemma sized_step w ev : sizedFor w -> sizedFor (step w ev).
Proof.
  intros Hs.
  destruct ev; try (apply sized_step_other; [done|done|exact Hs]).
  - destruct Hs as (canvas & cv & Href & Hcv & Hw & Hh & Hfree).
    unfold step. cbn [handlerOf onClickRatio call fst applyUpdates fold_left
      applyUpdate aspectRatio drawInputChanged replacesDrawInput orb].
    rewrite Href.
    destruct (ratio_eqb ratio (aspectRatio (state w))) eqn:Heq.
    + apply ratio_eqb_eq in Heq. exists canvas, cv. simpl.
      rewrite Heq. by repeat split.
    + eexists canvas, _. simpl. split; [done|]. split.
      * unfold exec, setWidth, update. simpl.
        rewrite lookup_alter_eq, Hcv. done.
      * simpl. repeat split; [done|].
        by destruct (contextMode cv).
  - destruct Hs as (canvas & cv & Href & Hcv & Hw & Hh & Hfree).
    exists canvas, (moveCanvas rect cv). unfold step. simpl.
    rewrite Href, ratio_eqb_refl. simpl.
    rewrite lookup_alter_eq, Hcv. by repeat split.
Qed.

Lemma sized_reachable rect evs : sizedFor (run (mounted rect) evs).
Proof.
  generalize (sized_mounted rect). generalize (mounted rect).
  induction evs as [|ev evs IH]; intros w Hs; [done|].
  rewrite run_cons. apply IH. by apply sized_step.
Qed.

(** C8. From any reachable state, choosing an aspect ratio changes the
    aspect-ratio slot and nothing else of the state - the committed log,
    stroke by stroke and point by point, is the same - and the canvas
    then has the width the fixed table gives that ratio (800, 533 or
    1200) and the height 800. *)
Theorem ratio_change_keeps_strokes rect evs ratio :
  let w := run (mounted rect) evs in
  let w' := step w (clickRatio ratio) in
  state w' = applyUpdate (state w) (setAspectRatio ratio)
  /\ strokes (state w') = strokes (state w)
  /\ map points (strokes (state w')) = map points (strokes (state w))
  /\ currentPath (state w') = currentPath (state w)
  /\ (exists cv', current w' = Some cv'
                  /\ DOM.width cv' = canvasWidth ratio
                  /\ height cv' = canvasHeight)
  /\ canvasWidth Ratio_1_1 = 800 /\ canvasWidth Ratio_2_3 = 533
  /\ canvasWidth Ratio_3_2 = 1200 /\ canvasHeight = 800.
Proof.
  intros w w'. repeat split.
  pose proof (sized_step w (clickRatio ratio) (sized_reachable rect evs))
    as (canvas & cv' & Href & Hcv & Hw & Hh & _).
  exists cv'. fold w' in Href, Hcv, Hw, Hh. unfold current.
  rewrite Href. simpl. by repeat split.
Qed.

(* ===================================================================== *)
(** ** The exporter *)
(* ===================================================================== *)

Lemma createCanvas_fresh (σ : Store) :
  exists temp,
    σ !! temp = None
    /\ createCanvas σ
       = (Normal temp,
          <[temp := {| DOM.width := 300; height := 150;
                       boundingClientRect := {| left := 0; top := 0 |};
                       contextMode := NoContext; bitmap := [] |}]> σ).
Proof.
  exists (fresh (dom σ)). split; [|done].
  apply not_elem_of_dom. apply is_fresh.
Qed.

Lemma getWidth_other (σ : Store) canvas cv temp tcv :
  σ !! canvas = Some cv -> temp <> canvas ->
  getWidth canvas (<[temp := tcv]> σ)
  = (Normal (DOM.width cv), <[temp := tcv]> σ).
Proof. intros H Hne. unfold getWidth. by rewrite lookup_insert_ne, H. Qed.

Lemma getHeight_other (σ : Store) canvas cv temp tcv :
  σ !! canvas = Some cv -> temp <> canvas ->
  getHeight canvas (<[temp := tcv]> σ)
  = (Normal (height cv), <[temp := tcv]> σ).
Proof. intros H Hne. unfold getHeight. by rewrite lookup_insert_ne, H. Qed.

Lemma getContext2d_new (σ : Store) temp w h r b :
  getContext2d temp
    (<[temp := {| DOM.width := w; height := h; boundingClientRect := r;
                  contextMode := NoContext; bitmap := b |}]> σ)
  = (Normal (Some temp),
     <[temp := {| DOM.width := w; height := h; boundingClientRect := r;
                  contextMode := Context2d defaultContext; bitmap := b |}]> σ).
Proof.
  unfold getContext2d. rewrite lookup_insert_eq. simpl.
  by rewrite insert_insert_eq.
Qed.

(** C3. Without a canvas the export answers [null] and touches nothing.
    With the component's canvas it answers an image, never [null]: a new
    off-screen canvas of the same width and height is filled over its
    whole surface with the opaque colour [#0D1117], the live bitmap is
    drawn on it at the origin at its own size, and the PNG data URL of
    that canvas is returned; the live canvas is afterwards what it was,
    and the state of the component is not written. *)
Theorem export_flattens_live_surface (σ : Store) :
  getCanvasData None σ = (Normal None, σ)
  /\ (forall canvas cv,
        σ !! canvas = Some cv ->
        componentSized cv ->
        exists temp tempCanvas,
          σ !! temp = None
          /\ getCanvasData (Some canvas) σ
             = (Normal (Some (DataImage "image/png" (DOM.width cv) (height cv)
                                (flattened cv))),
                <[temp := tempCanvas]> σ)
          /\ DOM.width tempCanvas = DOM.width cv
          /\ height tempCanvas = height cv
          /\ bitmap tempCanvas = flattened cv
          /\ parseColor "#0D1117" = Some background
          /\ alpha background = 255
          /\ (<[temp := tempCanvas]> σ) !! canvas = Some cv)
  /\ (forall w, state (exportNow w).2 = state w).
Proof.
  split; [done|split].
  - intros canvas cv Hcv Hsize.
    destruct (createCanvas_fresh σ) as (temp & Hfresh & Hcreate).
    assert (Hne : temp <> canvas) by congruence.
    destruct (componentSized_finite cv Hsize) as (Hfin & Hzw & Hzh & Hw0 & Hh0).
    exists temp. eexists. split; [done|].
    split; [|split; [|split; [|split; [|split; [|split]]]]];
      [| | | |vm_compute; reflexivity|reflexivity
       |by rewrite lookup_insert_ne].
    + unfold getCanvasData.
      erewrite bind_normal by exact Hcreate.
      erewrite bind_normal by (by apply getWidth_other).
      unfold setWidth. erewrite bind_normal by apply update_at.
      cbn [DOM.width height boundingClientRect contextMode bitmap resetContext].
      erewrite bind_normal by (by apply getHeight_other).
      unfold setHeight. erewrite bind_normal by apply update_at.
      cbn [DOM.width height boundingClientRect contextMode bitmap resetContext].
      erewrite bind_normal by apply getContext2d_new.
      cbv beta iota.
      unfold set_fillStyle.
      replace (parseColor "#0D1117") with (Some background)
        by (vm_compute; reflexivity).
      erewrite bind_normal by apply update_at.
      erewrite bind_normal by apply getWidth_at.
      erewrite bind_normal by apply getHeight_at.
      unfold withContext.
      cbn [DOM.width height boundingClientRect contextMode bitmap].
      unfold fillRect. rewrite Hfin, Hzw, Hzh. cbn [negb andb].
      erewrite bind_normal by apply update_at.
      unfold paint.
      cbn [DOM.width height boundingClientRect contextMode bitmap
           fillStyle globalCompositeOperation defaultContext app].
      erewrite bind_normal.
      2:{ unfold drawImage. rewrite lookup_insert_ne, Hcv by done.
          rewrite Hw0, Hh0. cbn [orb].
          replace (allFinite [0%float; 0%float]) with true
            by (vm_compute; reflexivity).
          apply update_at. }
      unfold paint.
      cbn [DOM.width height boundingClientRect contextMode bitmap
           fillStyle globalCompositeOperation defaultContext app].
      erewrite bind_normal.
      2:{ unfold toDataURL. rewrite lookup_insert_eq.
          cbn [DOM.width height bitmap]. rewrite Hw0, Hh0. cbn [orb].
          reflexivity. }
      unfold ret, flattened. reflexivity.
    + reflexivity.
    + reflexivity.
    + reflexivity.
  - intros w. unfold exportNow.
    by destruct (getCanvasData (canvasRef w) (store w)).
Qed.

(* ===================================================================== *)
(** ** The renderer on reachable states *)
(* ===================================================================== *)

(** In every state the mounted component can reach, the canvas is there
    for [draw] with the component's size, and the 2D context accepts the
    colour and the width of every stroke [draw] is given. *)
Lemma reachable_ready_for_draw rect evs :
  let w := run (mounted rect) evs in
  (exists canvas cv,
      canvasRef w = Some canvas /\ store w !! canvas = Some cv
      /\ contextMode cv <> ContextOther /\ componentSized cv)
  /\ Forall (fun s => is_Some (parseColor (color s))
                      /\ isFinite (width s) && (0 <? width s)%float = true)
       (combined (strokes (state w)) (currentPath (state w))).
Proof.
  intros w. split.
  - destruct (sized_reachable rect evs)
      as (canvas & cv & Href & Hcv & Hw & Hh & Hfree).
    exists canvas, cv. repeat split; [done|done|done|].
    by exists (aspectRatio (state w)).
  - destruct (sound_reachable rect evs) as (_ & _ & _ & Hall).
    eapply Forall_impl; [exact Hall|]. intros s (_ & Hc & Hw).
    split; [by apply palette_parses|].
    apply integerIn_accepted. eapply integerIn_weaken; [exact Hw|].
    by destruct (tool s).
Qed.

(** A mouse input can always be positioned. *)
Lemma mouse_positioned w cx cy :
  exists p, positionIn w (MouseEvent cx cy) = Normal p.
Proof.
  unfold positionIn, getCanvasCoordinates.
  destruct (current w); by eexists.
Qed.

(* ===================================================================== *)
(** ** Examples *)
(* ===================================================================== *)

Example slice_drops_last : slice [1; 2; 3] 0 (-1) = [1; 2].
Proof. reflexivity. Qed.

Example slice_of_empty : slice (@nil Z) 0 (-1) = [].
Proof. reflexivity. Qed.

Example parseInt_digits : parseInt "37" = of_Z 37.
Proof. vm_compute. reflexivity. Qed.

Example parseInt_prefix : parseInt " -5px" = of_Z (-5).
Proof. vm_compute. reflexivity. Qed.

Example parseInt_hexadecimal : parseInt "0x1F" = of_Z 31.
Proof. vm_compute. reflexivity. Qed.

Example parseInt_of_nothing : PrimFloat.is_nan (parseInt "") = true.
Proof. vm_compute. reflexivity. Qed.

Example slider_below_minimum : RangeInput.value 1 50 (-5) = "1".
Proof. vm_compute. reflexivity. Qed.

Example slider_above_maximum : RangeInput.value 1 100 250 = "100".
Proof. vm_compute. reflexivity. Qed.

Example negative_width_not_stored :
  brushSize (state (step (mounted sampleRect) (changeBrushSize (-5)))) = of_Z 1.
Proof. vm_compute. reflexivity. Qed.

Example background_parses : parseColor "#0D1117" = Some background.
Proof. vm_compute. reflexivity. Qed.

Example drawing_world_state :
  state drawingWorld
  = applyUpdate (withCurrentPath (Some sampleOpen) initialState)
      (setIsDrawing true).
Proof. vm_compute. reflexivity. Qed.

(** Undo once a stroke is committed: the log is empty again and the
    canvas has been repainted. *)
Example commit_then_undo :
  strokes (state (run drawingWorld [onMouseUp])) = [sampleOpen]
  /\ strokes (state (run drawingWorld [onMouseUp; clickUndo])) = [].
Proof. split; vm_compute; reflexivity. Qed.

(* ===================================================================== *)
(** ** The theorems at sample inputs *)
(* ===================================================================== *)

Lemma draw_repaints_witness :
  sampleStore !! 0%nat = Some sampleCanvas
  /\ contextMode sampleCanvas <> ContextOther
  /\ componentSized sampleCanvas
  /\ forallb drawable (combined sampleLog (Some sampleInProgress)) = true
  /\ exists cv',
       draw (Some 0%nat) sampleLog (Some sampleInProgress) sampleStore
         = (Normal tt, <[0%nat := cv']> sampleStore)
       /\ bitmap cv'
          = bitmap sampleCanvas
            ++ fullSurfaceClear sampleCanvas
               :: repaint sampleLog (Some sampleInProgress)
       /\ (exists c, contextMode cv' = Context2d c
                     /\ globalCompositeOperation c = SourceOver)
       /\ DOM.width cv' = DOM.width sampleCanvas
       /\ height cv' = height sampleCanvas.
Proof.
  assert (H1 : sampleStore !! 0%nat = Some sampleCanvas)
    by (vm_compute; reflexivity).
  assert (H2 : contextMode sampleCanvas <> ContextOther)
    by (simpl; discriminate).
  assert (H3 : componentSized sampleCanvas)
    by (exists Ratio_3_2; split; vm_compute; reflexivity).
  assert (H4 : forallb drawable (combined sampleLog (Some sampleInProgress))
               = true)
    by (vm_compute; reflexivity).
  exact (conj H1 (conj H2 (conj H3 (conj H4
           (draw_repaints sampleStore 0%nat sampleCanvas sampleLog
              (Some sampleInProgress) H1 H2 H3 H4))))).
Defined.

Lemma color_click_selects_brush_witness :
  colors !! 1%nat = Some {| name := "Blue"; value := "#3B82F6" |}
  /\ activeTool (state erasingWorld) = eraser
  /\ activeTool (state (step erasingWorld (clickColor 1))) = brush
  /\ brushColor (state (step erasingWorld (clickColor 1))) = "#3B82F6".
Proof.
  assert (H1 : colors !! 1%nat = Some {| name := "Blue"; value := "#3B82F6" |})
    by reflexivity.
  split; [exact H1|]. split; [vm_compute; reflexivity|].
  exact (color_click_selects_brush erasingWorld 1%nat
           {| name := "Blue"; value := "#3B82F6" |} H1).
Defined.

Lemma second_begin_replaces_open_stroke_witness :
  isDrawing (state drawingWorld) = true
  /\ currentPath (state drawingWorld) = Some sampleOpen
  /\ positionIn drawingWorld (MouseEvent 100 100) = Normal sampleLanding
  /\ currentPath (state (step drawingWorld (onMouseDown 100 100)))
     = Some (opened (state drawingWorld) sampleLanding)
  /\ strokes (state (step drawingWorld (onMouseDown 100 100))) = [].
Proof.
  assert (H1 : isDrawing (state drawingWorld) = true)
    by (vm_compute; reflexivity).
  assert (H2 : currentPath (state drawingWorld) = Some sampleOpen)
    by (vm_compute; reflexivity).
  assert (H3 : positionIn drawingWorld (MouseEvent 100 100)
               = Normal sampleLanding)
    by (vm_compute; reflexivity).
  pose proof (second_begin_replaces_open_stroke drawingWorld
                (MouseEvent 100 100) sampleOpen sampleLanding H1 H2 H3)
    as (Hc & _ & _ & Hs & _).
  split; [exact H1|]. split; [exact H2|]. split; [exact H3|].
  split; [exact Hc|]. simpl beginOf in Hs. rewrite Hs.
  vm_compute. reflexivity.
Defined.

Lemma end_commits_rendered_moves_witness :
  settled (mountedFiber sampleRect)
  /\ pointerEnd onMouseUp
  /\ positionIn (committed (mountedFiber sampleRect)) (MouseEvent 15 30)
     = Normal {| x := 4.5; y := 10 |}
  /\ Forall2 (fun e p => positionIn (committed (mountedFiber sampleRect)) e
                         = Normal p)
       (omap id (map Some sampleMoves)) sampleMovePositions
  /\ map points
       (strokes (state (committed
          (schedule (mountedFiber sampleRect) hastyGesture))))
     = [ [ {| x := 4.5; y := 10 |} ] ]
  /\ map points
       (strokes (state (committed
          (schedule (mountedFiber sampleRect) patientGesture))))
     = [ {| x := 4.5; y := 10 |} :: sampleMovePositions ].
Proof.
  destruct end_commits_rendered_moves as (Hgesture & _ & _).
  assert (H0 : settled (mountedFiber sampleRect)) by (split; reflexivity).
  assert (H1 : pointerEnd onMouseUp) by (left; reflexivity).
  assert (H2 : positionIn (committed (mountedFiber sampleRect))
                 (MouseEvent 15 30)
               = Normal {| x := 4.5; y := 10 |})
    by (vm_compute; reflexivity).
  assert (H3 : Forall2 (fun e p =>
                  positionIn (committed (mountedFiber sampleRect)) e
                  = Normal p)
                 (omap id (map Some sampleMoves)) sampleMovePositions)
    by (repeat constructor).
  assert (H4 : Forall2 (fun e p =>
                  positionIn (committed (mountedFiber sampleRect)) e
                  = Normal p) (omap id []) [])
    by constructor.
  split; [exact H0|]. split; [exact H1|]. split; [exact H2|].
  split; [exact H3|]. split.
  - destruct (Hgesture (mountedFiber sampleRect) (MouseEvent 15 30)
                {| x := 4.5; y := 10 |} [] [] [MouseEvent 16 31] onMouseUp
                H0 H1 H2 H4) as (Hs & _).
    change (schedule (mountedFiber sampleRect) hastyGesture)
      with (schedule (mountedFiber sampleRect)
              (handle (beginOf (MouseEvent 15 30)) :: duringStroke []
               ++ [scheduledRender]
               ++ map (fun e => handle (moveOf e)) [MouseEvent 16 31]
               ++ [handle onMouseUp; scheduledRender])).
    rewrite Hs. reflexivity.
  - destruct (Hgesture (mountedFiber sampleRect) (MouseEvent 15 30)
                {| x := 4.5; y := 10 |} (map Some sampleMoves)
                sampleMovePositions [] onMouseUp
                H0 H1 H2 H3) as (Hs & _).
    change (schedule (mountedFiber sampleRect) patientGesture)
      with (schedule (mountedFiber sampleRect)
              (handle (beginOf (MouseEvent 15 30))
               :: duringStroke (map Some sampleMoves)
               ++ [scheduledRender]
               ++ map (fun e => handle (moveOf e)) []
               ++ [handle onMouseUp; scheduledRender])).
    rewrite Hs. reflexivity.
Defined.

Lemma export_flattens_live_surface_witness :
  store drawingWorld !! 0%nat = Some paintedCanvas
  /\ componentSized paintedCanvas
  /\ exists temp tempCanvas,
       store drawingWorld !! temp = None
       /\ getCanvasData (Some 0%nat) (store drawingWorld)
          = (Normal (Some (DataImage "image/png" 1200 800
                             (flattened paintedCanvas))),
             <[temp := tempCanvas]> (store drawingWorld))
       /\ bitmap tempCanvas = flattened paintedCanvas
       /\ (<[temp := tempCanvas]> (store drawingWorld)) !! 0%nat
          = Some paintedCanvas.
Proof.
  assert (H1 : store drawingWorld !! 0%nat = Some paintedCanvas)
    by (vm_compute; reflexivity).
  assert (H2 : componentSized paintedCanvas)
    by (exists Ratio_3_2; split; vm_compute; reflexivity).
  split; [exact H1|]. split; [exact H2|].
  destruct (proj1 (proj2 (export_flattens_live_surface (store drawingWorld)))
              0%nat paintedCanvas H1 H2)
    as (temp & tempCanvas & Hfresh & Hdata & _ & _ & Hbitmap & _ & _ & Hlive).
  exists temp, tempCanvas.
  split; [exact Hfresh|]. split; [exact Hdata|].
  split; [exact Hbitmap|exact Hlive].
Defined.

(* ===================================================================== *)
(** ** Further properties of the stroke log and the input tracker *)
(* ===================================================================== *)

Lemma open_means_drawing_step w ev :
  currentPath (state w) = None \/ isDrawing (state w) = true ->
  currentPath (state (step w ev)) = None
  \/ isDrawing (state (step w ev)) = true.
Proof.
  intros H. rewrite state_step.
  destruct ev; simpl; try done.
  - unfold handleMouseDown. simpl.
    destruct (getCanvasCoordinates _ _); simpl; by right.
  - unfold handleMouseMove.
    destruct (isDrawing (state w)) eqn:Hd; simpl;
      [|destruct H as [H|H]; [by left|congruence]].
    destruct (currentPath (state w)) as [s|] eqn:Hc; simpl; [|by left].
    destruct (getCanvasCoordinates _ _); simpl; by right.
  - unfold handleMouseUp. destruct (currentPath (state w)); simpl; by left.
  - unfold handleMouseUp. destruct (currentPath (state w)); simpl; by left.
  - unfold handleMouseDown. simpl.
    destruct (getCanvasCoordinates _ _); simpl; by right.
  - unfold handleMouseMove.
    destruct (isDrawing (state w)) eqn:Hd; simpl;
      [|destruct H as [H|H]; [by left|congruence]].
    destruct (currentPath (state w)) as [s|] eqn:Hc; simpl; [|by left].
    destruct (getCanvasCoordinates _ _); simpl; by right.
  - unfold handleMouseUp. destruct (currentPath (state w)); simpl; by left.
  - by destruct (colors !! index).
Qed.

(** X1. In every state the mounted component can reach, an open stroke
    comes with the drawing flag set: either no stroke is in progress or
    [isDrawing] holds. *)
Theorem open_stroke_means_drawing rect evs :
  currentPath (state (run (mounted rect) evs)) = None
  \/ isDrawing (state (run (mounted rect) evs)) = true.
Proof.
  assert (H : forall w, currentPath (state w) = None
                        \/ isDrawing (state w) = true ->
                        currentPath (state (run w evs)) = None
                        \/ isDrawing (state (run w evs)) = true).
  { induction evs as [|ev evs IH]; intros w Hw; [done|].
    rewrite run_cons. apply IH. by apply open_means_drawing_step. }
  apply H. by left.
Qed.



(** X3. Committing and undoing cancel out on the log when the commit is
    rendered before undo is clicked. With a stroke open, a pointer-up or
    touch-end followed by undo leaves the log exactly as it was,
    whatever waits, and no stroke in progress: React renders the release
    at once. So does a pointer-leave whose render came before the undo.
    A pointer-leave followed by undo before that render loses the last
    committed stroke as well: [handleUndo] shortens the log of its own
    render, which is still without the stroke the leave commits. *)
Theorem commit_then_undo_restores_log f s :
  consistent f ->
  currentPath (state (committed f)) = Some s ->
  (forall ev,
      ev = onMouseUp \/ ev = onTouchEnd ->
      strokes (state (committed (schedule f [handle ev; handle clickUndo])))
      = strokes (state (committed f))
      /\ currentPath
           (state (committed (schedule f [handle ev; handle clickUndo])))
         = None)
  /\ (settled f ->
      strokes (state (committed
        (schedule f [handle onMouseLeave; scheduledRender; handle clickUndo])))
      = strokes (state (committed f))
      /\ currentPath (state (committed
           (schedule f [handle onMouseLeave; scheduledRender;
                        handle clickUndo])))
         = None)
  /\ (settled f ->
      strokes (state (committed
        (schedule f [handle onMouseLeave; handle clickUndo; scheduledRender])))
      = slice (strokes (state (committed f))) 0 (-1)
      /\ currentPath (state (committed
           (schedule f [handle onMouseLeave; handle clickUndo;
                        scheduledRender])))
         = None).
Proof.
  intros Hc Hcp. split; [|split].
  - intros ev Hev.
    assert (Hend : pointerEnd ev) by (unfold pointerEnd; tauto).
    assert (Hp : eventPriority ev = SyncLane) by by destruct Hev as [-> | ->].
    cbn [schedule fold_left perform].
    pose proof (dispatch_discrete_state f ev Hc Hp) as H1.
    rewrite (end_queue _ ev s Hend Hcp) in H1.
    pose proof (dispatch_discrete_state (dispatch f ev) clickUndo
                  (consistent_dispatch f ev Hc) eq_refl) as H2.
    rewrite H2. cbn [handlerOf handleUndo call fst]. rewrite !H1. simpl.
    rewrite slice_all_but_last.
    split; [|done]. rewrite length_app. simpl.
    apply take_app_length'. lia.
  - intros Hs. cbn [schedule fold_left perform].
    destruct (dispatch_flush_is_step f onMouseLeave Hs) as [H1 Hs1].
    destruct (dispatch_discrete_is_step _ clickUndo Hs1 eq_refl) as [H2 _].
    rewrite H2, H1.
    assert (Hend : pointerEnd onMouseLeave) by (right; by left).
    split.
    + rewrite undo_strokes, (end_state _ onMouseLeave Hend), Hcp. simpl.
      rewrite length_app. simpl. apply take_app_length'. lia.
    + rewrite state_step.
      cbn [handlerOf handleUndo call fst applyUpdates fold_left applyUpdate].
      unfold withStrokes. cbn [currentPath].
      by rewrite (end_state _ onMouseLeave Hend).
  - intros Hs. cbn [schedule fold_left perform].
    assert (Hend : pointerEnd onMouseLeave) by (right; by left).
    assert (Hw : committed (dispatch f onMouseLeave) = committed f)
      by by apply dispatch_continuous_committed.
    destruct (flush_settles (dispatch (dispatch f onMouseLeave) clickUndo))
      as [Hst _].
    { by do 2 apply consistent_dispatch. }
    rewrite Hst, !eventual_dispatch, Hw, (end_queue _ _ s Hend Hcp).
    by rewrite (settled_eventual f Hs).
Qed.

(** X4. Clear cannot be undone: after a clear, any number of undos
    leaves the log empty. *)
Theorem clear_is_final w n :
  strokes (state (run w (clickClear :: replicate n clickUndo))) = [].
Proof.
  rewrite run_cons, undo_run_length.
  replace (strokes (state (step w clickClear))) with (@nil Stroke) by done.
  apply take_nil.
Qed.

Lemma config_step w ev :
  isConfig ev ->
  strokes (state (step w ev)) = strokes (state w)
  /\ currentPath (state (step w ev)) = currentPath (state w)
  /\ isDrawing (state (step w ev)) = isDrawing (state w).
Proof.
  intros H. rewrite state_step.
  destruct ev; simpl in *; try done.
  by destruct (colors !! index).
Qed.

Lemma config_run evs : forall w,
  Forall isConfig evs ->
  strokes (state (run w evs)) = strokes (state w)
  /\ currentPath (state (run w evs)) = currentPath (state w)
  /\ isDrawing (state (run w evs)) = isDrawing (state w).
Proof.
  induction evs as [|ev evs IH]; intros w Hall; [done|].
  apply Forall_cons in Hall as [Hev Hall].
  rewrite run_cons.
  destruct (IH (step w ev) Hall) as (-> & -> & ->).
  by apply config_step.
Qed.

(** X5. A stroke takes its tool, colour and width when it is opened and
    keeps them: whatever colour, tool, slider, aspect-ratio or layout
    events arrive between a pointer-begin and the pointer-end, the
    stroke that is committed is the one opened at the pointer-begin,
    with the configuration of that moment. *)
Theorem stroke_keeps_begin_configuration w e p cfg endEv :
  positionIn w e = Normal p ->
  Forall isConfig cfg ->
  pointerEnd endEv ->
  strokes (state (run w (beginOf e :: cfg ++ [endEv])))
  = strokes (state w) ++ [opened (state w) p].
Proof.
  intros Hp Hcfg Hend.
  rewrite run_cons, run_app.
  change (run ?a [endEv]) with (step a endEv).
  rewrite (end_state _ endEv Hend).
  destruct (config_run cfg (step w (beginOf e)) Hcfg) as (Hs & Hc & _).
  simpl. rewrite Hs, Hc, (begin_state w e p Hp). done.
Qed.

(* ===================================================================== *)
(** ** The footprint of the renderer *)
(* ===================================================================== *)

Lemma po_ret {A} ctx (Q : A -> Prop) a : Q a -> paintsOnly ctx Q (ret a).
Proof.
  intros HQ σ. exists a, id. split; [|by split].
  unfold ret. by rewrite alter_id.
Qed.

Lemma po_bind {A B} ctx (Q : A -> Prop) (R : B -> Prop) m (k : A -> Dom B) :
  paintsOnly ctx Q m ->
  (forall a, Q a -> paintsOnly ctx R (k a)) ->
  paintsOnly ctx R (bind m k).
Proof.
  intros Hm Hk σ. destruct (Hm σ) as (a & f & Hmσ & HQ & Hf).
  destruct (Hk a HQ (alter f ctx σ)) as (b & g & Hkσ & HR & Hg).
  exists b, (g ∘ f). unfold bind. rewrite Hmσ, Hkσ, alter_alter_eq.
  split; [done|]. split; [done|]. intros cv. simpl. by rewrite Hg.
Qed.

Lemma po_forEach {A} ctx (l : list A) (f : A -> Dom unit) :
  (forall a, paintsOnly ctx (fun _ => True) (f a)) ->
  paintsOnly ctx (fun _ => True) (forEach l f).
Proof.
  intros Hf. induction l as [|a l IH]; simpl.
  - by apply po_ret.
  - eapply po_bind; [apply Hf|]. by intros _ _.
Qed.

Lemma po_update ctx f :
  (forall cv, frame (f cv) = frame cv) ->
  paintsOnly ctx (fun _ => True) (update ctx f).
Proof. intros Hf σ. by exists tt, f. Qed.

Lemma po_getContext2d canvas :
  paintsOnly canvas (fun a => a = Some canvas \/ a = None)
    (getContext2d canvas).
Proof.
  intros σ. unfold getContext2d.
  destruct (σ !! canvas) as [cv|] eqn:Hcv.
  - destruct (contextMode cv) eqn:Hm.
    + exists (Some canvas), with2d. split; [|split; [by left|]].
      * rewrite (alter_alt_Some _ _ _ _ Hcv). unfold with2d. by rewrite Hm.
      * intros cv0. unfold with2d, frame.
        destruct (contextMode cv0) eqn:Hm0; simpl; by rewrite ?Hm0.
    + exists (Some canvas), id. split; [|split; [by left|done]].
      by rewrite alter_id.
    + exists None, id. split; [|split; [by right|done]].
      by rewrite alter_id.
  - exists None, id. split; [|split; [by right|done]].
    by rewrite alter_id.
Qed.

Lemma po_getWidth ctx canvas :
  paintsOnly ctx (fun _ => True) (getWidth canvas).
Proof.
  intros σ. eexists _, id. split; [|by split].
  unfold getWidth. by rewrite alter_id.
Qed.

Lemma po_getHeight ctx canvas :
  paintsOnly ctx (fun _ => True) (getHeight canvas).
Proof.
  intros σ. eexists _, id. split; [|by split].
  unfold getHeight. by rewrite alter_id.
Qed.

Lemma po_set_strokeStyle ctx v :
  paintsOnly ctx (fun _ => True) (set_strokeStyle ctx v).
Proof.
  unfold set_strokeStyle. destruct (parseColor v); [|by apply po_ret].
  apply po_update. intros cv. apply frame_withContext.
Qed.

Lemma po_set_lineWidth ctx v :
  paintsOnly ctx (fun _ => True) (set_lineWidth ctx v).
Proof.
  unfold set_lineWidth. destruct (_ && _); [|by apply po_ret].
  apply po_update. intros cv. apply frame_withContext.
Qed.

Lemma po_set_lineCap ctx v : paintsOnly ctx (fun _ => True) (set_lineCap ctx v).
Proof. apply po_update. intros cv. apply frame_withContext. Qed.

Lemma po_set_lineJoin ctx v :
  paintsOnly ctx (fun _ => True) (set_lineJoin ctx v).
Proof. apply po_update. intros cv. apply frame_withContext. Qed.

Lemma po_set_globalCompositeOperation ctx v :
  paintsOnly ctx (fun _ => True) (set_globalCompositeOperation ctx v).
Proof. apply po_update. intros cv. apply frame_withContext. Qed.

Lemma po_beginPath ctx : paintsOnly ctx (fun _ => True) (beginPath ctx).
Proof. apply po_update. intros cv. apply frame_withContext. Qed.

Lemma po_moveTo ctx a b : paintsOnly ctx (fun _ => True) (moveTo ctx a b).
Proof.
  unfold moveTo. destruct (allFinite _); [|by apply po_ret].
  apply po_update. intros cv. apply frame_withContext.
Qed.

Lemma po_lineTo ctx a b : paintsOnly ctx (fun _ => True) (lineTo ctx a b).
Proof.
  unfold lineTo. destruct (allFinite _); [|by apply po_ret].
  apply po_update. intros cv. apply frame_withContext.
Qed.

Lemma po_stroke ctx : paintsOnly ctx (fun _ => True) (DOM.stroke ctx).
Proof. apply po_update. intros cv. apply frame_paint. Qed.

Lemma po_clearRect ctx a b c d :
  paintsOnly ctx (fun _ => True) (clearRect ctx a b c d).
Proof.
  unfold clearRect. destruct (allFinite _); [|by apply po_ret].
  apply po_update. intros cv. apply frame_paint.
Qed.

Create HintDb paint discriminated.

#[local] Hint Resolve po_getWidth po_getHeight po_set_strokeStyle
  po_set_lineWidth po_set_lineCap po_set_lineJoin
  po_set_globalCompositeOperation po_beginPath po_moveTo po_lineTo po_stroke
  po_clearRect : paint.

Ltac paints_only :=
  cbv beta;
  first
    [ solve [auto with paint]
    | solve [by apply po_ret]
    | eapply po_bind; [paints_only|intros ? _; paints_only]
    | apply po_forEach; intros ?; paints_only
    | match goal with
      | |- paintsOnly _ _ (match ?o with _ => _ end) =>
          destruct o; paints_only
      end ].

Lemma po_draw canvas strokes currentPath :
  paintsOnly canvas (fun _ => True) (draw (Some canvas) strokes currentPath).
Proof.
  unfold draw. eapply po_bind; [apply po_getContext2d|].
  intros a [-> | ->]; [|by apply po_ret].
  paints_only.
Qed.

(** X6. Whatever strokes it is given - also strokes the context rejects
    - [draw] completes without throwing, leaves every canvas of the
    store other than its own exactly as it was, and leaves the size, the
    position and the kind of context of every canvas, its own included,
    unchanged; without a canvas it does nothing at all. *)
Theorem draw_footprint canvasRef strokes currentPath (σ : Store) :
  (draw canvasRef strokes currentPath σ).1 = Normal tt
  /\ (forall id, canvasRef <> Some id ->
        (draw canvasRef strokes currentPath σ).2 !! id = σ !! id)
  /\ sameFrame σ (draw canvasRef strokes currentPath σ).2
  /\ draw None strokes currentPath σ = (Normal tt, σ).
Proof.
  split; [|split; [|split]]; [| |apply keeps_draw|done].
  - destruct canvasRef as [canvas|]; [|done].
    destruct (po_draw canvas strokes currentPath σ) as ([] & f & -> & _).
    done.
  - intros id Hid. destruct canvasRef as [canvas|]; [|done].
    destruct (po_draw canvas strokes currentPath σ) as (a & f & -> & _).
    simpl. apply lookup_alter_ne. congruence.
Qed.

(* ===================================================================== *)
(** ** The live surface follows the state *)
(* ===================================================================== *)

Lemma draw_on_ready (σ : Store) canvas cv strokes currentPath :
  σ !! canvas = Some cv ->
  contextMode cv <> ContextOther ->
  componentSized cv ->
  forallb drawable (combined strokes currentPath) = true ->
  exists cv',
    exec (draw (Some canvas) strokes currentPath) σ = <[canvas := cv']> σ
    /\ bitmap cv'
       = bitmap cv ++ fullSurfaceClear cv' :: repaint strokes currentPath
    /\ frame cv' = frame cv.
Proof.
  intros Hcv Hmode Hsize Hdraw.
  destruct (getContext2d_at σ canvas cv Hcv Hmode) as [Hctx H2d].
  destruct (with2d_geometry cv) as (Hw & Hh & Hr & Hb).
  destruct (componentSized_finite cv Hsize) as (Hfin & _).
  set (cleared := paint (fun _ => fullSurfaceClear cv) (with2d cv)).
  assert (Hcl2d : has2d cleared).
  { destruct H2d as [c Hc]. unfold cleared, paint. rewrite Hc. by eexists. }
  set (items := map Some strokes ++ [currentPath]).
  set (final := fold_left (fun cv o => afterStroke o cv) items cleared).
  set (cv' := withContext (fun s =>
    {| strokeStyle := strokeStyle s; fillStyle := fillStyle s;
       lineWidth := lineWidth s; lineCap := lineCap s; lineJoin := lineJoin s;
       globalCompositeOperation := SourceOver; path := path s |}) final).
  assert (Hfinal2d : has2d final) by by apply fold_afterStroke_has2d.
  assert (Hexec : exec (draw (Some canvas) strokes currentPath) σ
                  = <[canvas := cv']> σ).
  { unfold exec, draw. cbv beta iota. erewrite bind_normal by exact Hctx.
    cbv beta iota.
    erewrite bind_normal by apply getWidth_at.
    erewrite bind_normal by apply getHeight_at.
    rewrite Hw, Hh. unfold clearRect. rewrite Hfin.
    erewrite bind_normal by apply update_at.
    erewrite bind_normal
      by (apply repaint_loop; [exact Hcl2d|by apply drawable_items]).
    unfold set_globalCompositeOperation. by rewrite update_at. }
  assert (Hframe : frame cv' = frame cv).
  { pose proof (keeps_draw (Some canvas) strokes currentPath σ canvas) as Hk.
    fold (exec (draw (Some canvas) strokes currentPath) σ) in Hk.
    rewrite Hexec, lookup_insert_eq, Hcv in Hk. simpl in Hk. congruence. }
  exists cv'. split; [done|]. split; [|done].
  assert (Hclear : fullSurfaceClear cv' = fullSurfaceClear cv).
  { unfold fullSurfaceClear. unfold frame in Hframe.
    injection Hframe as -> -> _ _. done. }
  rewrite Hclear.
  destruct Hfinal2d as [c Hc]. unfold cv', withContext. rewrite Hc. simpl.
  unfold final. rewrite fold_afterStroke_bitmap by done.
  unfold items. rewrite omap_items.
  destruct H2d as [c0 Hc0]. unfold cleared, paint. rewrite Hc0. simpl.
  by rewrite Hb, <- app_assoc.
Qed.

Lemma drawable_state st :
  soundState st -> finitePoints st ->
  forallb drawable (combined (strokes st) (currentPath st)) = true.
Proof.
  intros (_ & _ & _ & Hsound) Hfin. apply forallb_forall.
  intros s Hin%list_elem_of_In.
  pose proof (proj1 (Forall_forall _ _) Hsound s Hin) as (_ & Hc & Hw).
  pose proof (proj1 (Forall_forall _ _) Hfin s Hin) as Hp.
  unfold drawable. rewrite Hp, andb_true_r.
  rewrite (bool_decide_eq_true_2 _ (palette_parses _ Hc)). simpl.
  apply integerIn_accepted. eapply integerIn_weaken; [exact Hw|].
  by destruct (tool s).
Qed.

Lemma unchanged_queue queue : forall st,
  drawInputChanged st queue = false ->
  strokes (applyUpdates st queue) = strokes st
  /\ currentPath (applyUpdates st queue) = currentPath st.
Proof.
  induction queue as [|u queue IH]; intros st H; [done|].
  simpl in H. apply orb_false_elim in H as [Hu Hq].
  destruct (IH _ Hq) as [Hs Hc]. unfold applyUpdates in *. simpl.
  rewrite Hs, Hc. clear Hs Hc Hq IH.
  destruct u; simpl in *; try done.
  - apply orb_false_elim in Hu as [Hv Hold].
    apply bool_decide_eq_false in Hv. apply bool_decide_eq_false in Hold.
    split; [done|].
    destruct v; [by destruct Hv; eexists|].
    destruct (currentPath st); [by destruct Hold; eexists|done].
  - apply orb_false_elim in Hu as [Hv Hold].
    apply bool_decide_eq_false in Hv. apply bool_decide_eq_false in Hold.
    split; [done|].
    destruct (f (currentPath st)); [by destruct Hv; eexists|].
    destruct (currentPath st); [by destruct Hold; eexists|done].
Qed.

Lemma redraw_events w ev :
  drawInputChanged (state w) (handlerOf w ev).1 = true ->
  (forall rect, ev <> layout rect) /\ (forall r, ev <> clickRatio r).
Proof. intros H. split; intros ? ->; simpl in H; done. Qed.

Lemma step_store_redraw w ev :
  drawInputChanged (state w) (handlerOf w ev).1 = true ->
  store (step w ev)
  = exec (draw (canvasRef w) (strokes (state (step w ev)))
            (currentPath (state (step w ev)))) (store w).
Proof.
  intros Hflag. destruct (redraw_events w ev Hflag) as [Hlay Hratio].
  pose proof (aspectRatio_step w ev Hratio) as Har.
  rewrite state_step in Har.
  unfold step. cbn [store state]. rewrite Har, ratio_eqb_refl, Hflag.
  assert (Hσ0 : match ev, canvasRef w with
                | layout rect, Some canvas =>
                    alter (moveCanvas rect) canvas (store w)
                | _, _ => store w
                end = store w).
  { destruct ev; try done; exfalso; by eapply Hlay. }
  rewrite Hσ0. by destruct (canvasRef w).
Qed.

Lemma step_current_idle w ev :
  drawInputChanged (state w) (handlerOf w ev).1 = false ->
  (forall r, ev <> clickRatio r) ->
  current (step w ev) = current w
  \/ exists rect, current (step w ev) = moveCanvas rect <$> current w.
Proof.
  intros Hflag Hratio.
  pose proof (aspectRatio_step w ev Hratio) as Har.
  rewrite state_step in Har.
  unfold current, step. cbn [store state canvasRef].
  rewrite Har, ratio_eqb_refl, Hflag.
  destruct (canvasRef w) as [canvas|]; [|by left].
  destruct ev; try by left.
  right. exists rect. simpl. by rewrite lookup_alter_eq.
Qed.

Lemma shows_after_redraw rect evs ev :
  let w := run (mounted rect) evs in
  drawInputChanged (state w) (handlerOf w ev).1 = true ->
  finitePoints (state (step w ev)) ->
  shows (step w ev).
Proof.
  intros w Hflag Hfin.
  destruct (sized_reachable rect evs)
    as (canvas & cv & Href & Hcv & Hw & Hh & Hfree).
  fold w in Href, Hcv, Hw, Hh.
  assert (Hsound : soundState (state (step w ev))).
  { apply sound_step. apply sound_reachable. }
  destruct (draw_on_ready (store w) canvas cv
              (strokes (state (step w ev))) (currentPath (state (step w ev))))
    as (cv' & Hexec & Hbitmap & _); [done|done| |by apply drawable_state|].
  { by exists (aspectRatio (state w)). }
  exists cv', (bitmap cv). split; [|done].
  unfold current. rewrite step_store_redraw by done.
  change (canvasRef (step w ev)) with (canvasRef w).
  rewrite Href, Hexec. simpl. apply lookup_insert_eq.
Qed.

Lemma shows_mounted rect : shows (mounted rect).
Proof.
  set (cv0 := {| DOM.width := canvasWidth (aspectRatio initialState);
                 height := canvasHeight; boundingClientRect := rect;
                 contextMode := NoContext; bitmap := [] |}).
  destruct (draw_on_ready {[ 0%nat := cv0 ]} 0%nat cv0 [] None)
    as (cv' & Hexec & Hbitmap & _).
  - apply lookup_singleton_eq.
  - done.
  - by exists Ratio_3_2.
  - done.
  - exists cv', []. split; [|done].
    unfold current, mounted. cbn [canvasRef store]. fold cv0.
    rewrite Hexec. simpl. apply lookup_insert_eq.
Qed.

Lemma shows_reachable rect evs :
  Forall (fun ev => forall r, ev <> clickRatio r) evs ->
  finitePoints (state (run (mounted rect) evs)) ->
  shows (run (mounted rect) evs).
Proof.
  induction evs as [|ev evs IH] using rev_ind; intros Hall Hfin.
  - apply shows_mounted.
  - apply Forall_app in Hall as [Hall Hev].
    apply Forall_cons in Hev as [Hev _].
    rewrite run_app in *.
    change (run ?a [ev]) with (step a ev) in *.
    set (w := run (mounted rect) evs) in *.
    destruct (drawInputChanged (state w) (handlerOf w ev).1) eqn:Hflag.
    + by apply shows_after_redraw.
    + destruct (unchanged_queue _ _ Hflag) as [Hs Hc].
      rewrite <- state_step in Hs, Hc.
      assert (Hfin' : finitePoints (state w)).
      { unfold finitePoints in *. by rewrite Hs, Hc in Hfin. }
      destruct (IH Hall Hfin') as (cv & older & Hcur & Hbitmap).
      unfold shows. rewrite Hs, Hc.
      destruct (step_current_idle w ev Hflag Hev) as [-> | [r ->]].
      * by exists cv, older.
      * rewrite Hcur. by exists (moveCanvas r cv), older.
Qed.

(** X7. The live surface follows the state. From the mounted component,
    after any sequence of events without an aspect-ratio click and with
    finite coordinates in the resulting strokes, the last thing painted
    on the canvas is a clear of the whole surface followed by the paint
    of exactly the committed log and the in-progress stroke. *)
Theorem surface_shows_state rect evs :
  Forall (fun ev => forall r, ev <> clickRatio r) evs ->
  finitePoints (state (run (mounted rect) evs)) ->
  shows (run (mounted rect) evs).
Proof. intros Hall Hfin. by apply shows_reachable. Qed.

(** X8. Every event that changes the committed log or the in-progress
    stroke has the whole surface repainted: from any state the mounted
    component can reach - also one whose canvas an aspect-ratio change
    has blanked - the canvas afterwards ends with a clear of the whole
    surface followed by the paint of exactly the new log and the new
    in-progress stroke (their coordinates being finite). *)
Theorem change_repaints_surface rect evs ev :
  strokes (state (step (run (mounted rect) evs) ev))
    <> strokes (state (run (mounted rect) evs))
  \/ currentPath (state (step (run (mounted rect) evs) ev))
       <> currentPath (state (run (mounted rect) evs)) ->
  finitePoints (state (step (run (mounted rect) evs) ev)) ->
  shows (step (run (mounted rect) evs) ev).
Proof.
  intros Hchange Hfin.
  apply shows_after_redraw; [|done].
  destruct (drawInputChanged _ _) eqn:Hflag; [done|].
  destruct (unchanged_queue _ _ Hflag) as [Hs Hc].
  rewrite <- state_step in Hs, Hc. by destruct Hchange.
Qed.

Lemma ratio_eqb_neq a b : a <> b -> ratio_eqb a b = false.
Proof. by destruct a, b. Qed.

(** X9. An aspect-ratio change blanks the surface and nothing repaints
    it: from any state the mounted component can reach, clicking a ratio
    other than the current one leaves the canvas with an empty bitmap -
    whatever the committed log, which is itself unchanged - because the
    new width resets the canvas and [draw] depends on the strokes only;
    clicking the current ratio leaves the canvas as it is. *)
Theorem ratio_change_blanks_surface rect evs ratio :
  ratio <> aspectRatio (state (run (mounted rect) evs)) ->
  (exists cv',
      current (step (run (mounted rect) evs) (clickRatio ratio)) = Some cv'
      /\ bitmap cv' = [])
  /\ strokes (state (step (run (mounted rect) evs) (clickRatio ratio)))
     = strokes (state (run (mounted rect) evs))
  /\ store (step (run (mounted rect) evs)
              (clickRatio (aspectRatio (state (run (mounted rect) evs)))))
     = store (run (mounted rect) evs).
Proof.
  intros Hne. set (w := run (mounted rect) evs) in *.
  destruct (sized_reachable rect evs)
    as (canvas & cv & Href & Hcv & _). fold w in Href, Hcv.
  split; [|split; [done|]].
  - eexists. unfold current, step.
    cbn [handlerOf onClickRatio call fst applyUpdates fold_left
      applyUpdate aspectRatio drawInputChanged replacesDrawInput orb
      store canvasRef state].
    rewrite Href, (ratio_eqb_neq _ _ Hne). simpl.
    unfold exec, setWidth, update. simpl.
    rewrite lookup_alter_eq, Hcv. simpl. split; [reflexivity|done].
  - unfold step.
    cbn [handlerOf onClickRatio call fst applyUpdates fold_left
      applyUpdate aspectRatio drawInputChanged replacesDrawInput orb
      store canvasRef state].
    rewrite Href, ratio_eqb_refl. done.
Qed.

(* ===================================================================== *)
(** ** Further properties of the exporter *)
(* ===================================================================== *)

Lemma getCanvasData_ready (σ : Store) canvas cv :
  σ !! canvas = Some cv ->
  componentSized cv ->
  exists temp tempCanvas,
    temp <> canvas
    /\ getCanvasData (Some canvas) σ
       = (Normal (Some (DataImage "image/png" (DOM.width cv) (height cv)
                          (flattened cv))),
          <[temp := tempCanvas]> σ).
Proof.
  intros Hcv Hsize.
  destruct (createCanvas_fresh σ) as (temp & Hfresh & Hcreate).
  assert (Hne : temp <> canvas) by congruence.
  destruct (componentSized_finite cv Hsize) as (Hfin & Hzw & Hzh & Hw0 & Hh0).
  exists temp. eexists. split; [done|].
  unfold getCanvasData.
  erewrite bind_normal by exact Hcreate.
  erewrite bind_normal by (by apply getWidth_other).
  unfold setWidth. erewrite bind_normal by apply update_at.
  cbn [DOM.width height boundingClientRect contextMode bitmap resetContext].
  erewrite bind_normal by (by apply getHeight_other).
  unfold setHeight. erewrite bind_normal by apply update_at.
  cbn [DOM.width height boundingClientRect contextMode bitmap resetContext].
  erewrite bind_normal by apply getContext2d_new.
  cbv beta iota.
  unfold set_fillStyle.
  replace (parseColor "#0D1117") with (Some background)
    by (vm_compute; reflexivity).
  erewrite bind_normal by apply update_at.
  erewrite bind_normal by apply getWidth_at.
  erewrite bind_normal by apply getHeight_at.
  unfold withContext.
  cbn [DOM.width height boundingClientRect contextMode bitmap].
  unfold fillRect. rewrite Hfin, Hzw, Hzh. cbn [negb andb].
  erewrite bind_normal by apply update_at.
  unfold paint.
  cbn [DOM.width height boundingClientRect contextMode bitmap
       fillStyle globalCompositeOperation defaultContext app].
  erewrite bind_normal.
  2:{ unfold drawImage. rewrite lookup_insert_ne, Hcv by done.
      rewrite Hw0, Hh0. cbn [orb].
      replace (allFinite [0%float; 0%float]) with true
        by (vm_compute; reflexivity).
      apply update_at. }
  unfold paint.
  cbn [DOM.width height boundingClientRect contextMode bitmap
       fillStyle globalCompositeOperation defaultContext app].
  erewrite bind_normal.
  2:{ unfold toDataURL. rewrite lookup_insert_eq.
      cbn [DOM.width height bitmap]. rewrite Hw0, Hh0. cbn [orb].
      reflexivity. }
  unfold ret, flattened. reflexivity.
Qed.

Lemma exportNow_ready w canvas cv :
  canvasRef w = Some canvas ->
  store w !! canvas = Some cv ->
  componentSized cv ->
  (exportNow w).1
  = Normal (Some (DataImage "image/png" (DOM.width cv) (height cv)
                    (flattened cv)))
  /\ state (exportNow w).2 = state w
  /\ canvasRef (exportNow w).2 = Some canvas
  /\ store (exportNow w).2 !! canvas = Some cv.
Proof.
  intros Href Hcv Hsize.
  destruct (getCanvasData_ready _ canvas cv Hcv Hsize)
    as (temp & tempCanvas & Hne & Hdata).
  unfold exportNow. rewrite Href, Hdata. simpl.
  repeat split. by rewrite lookup_insert_ne.
Qed.

(** X10. In every state the mounted component can reach the export
    answers an image, never [null] and never an exception; it leaves the
    live canvas and the component state as they were, and an export
    repeated at once answers the same image. *)
Theorem export_is_repeatable rect evs :
  exists url,
    (exportNow (run (mounted rect) evs)).1 = Normal (Some url)
    /\ (exportNow (exportNow (run (mounted rect) evs)).2).1 = Normal (Some url)
    /\ current (exportNow (run (mounted rect) evs)).2
       = current (run (mounted rect) evs)
    /\ state (exportNow (run (mounted rect) evs)).2
       = state (run (mounted rect) evs).
Proof.
  set (w := run (mounted rect) evs).
  destruct (sized_reachable rect evs)
    as (canvas & cv & Href & Hcv & Hw & Hh & _). fold w in Href, Hcv, Hw, Hh.
  assert (Hsize : componentSized cv) by by exists (aspectRatio (state w)).
  destruct (exportNow_ready w canvas cv Href Hcv Hsize)
    as (Hurl & Hst & Href' & Hcv').
  destruct (exportNow_ready (exportNow w).2 canvas cv Href' Hcv' Hsize)
    as (Hurl' & _).
  eexists. split; [exact Hurl|]. split; [exact Hurl'|]. split; [|done].
  unfold current. rewrite Href', Href. simpl. by rewrite Hcv', Hcv.
Qed.

(** X11. The export is a picture of the state, in-progress stroke
    included: from the mounted component, after any sequence of events
    without an aspect-ratio click and with finite coordinates, the image
    exported is the background with the live bitmap over it, and that
    bitmap ends with a clear of the whole surface followed by the paint
    of the committed log and of the stroke in progress. *)
Theorem export_pictures_state rect evs :
  Forall (fun ev => forall r, ev <> clickRatio r) evs ->
  finitePoints (state (run (mounted rect) evs)) ->
  exists cv older,
    (exportNow (run (mounted rect) evs)).1
    = Normal (Some (DataImage "image/png" (DOM.width cv) (height cv)
                      (flattened cv)))
    /\ bitmap cv
       = older ++ fullSurfaceClear cv
                  :: repaint (strokes (state (run (mounted rect) evs)))
                       (currentPath (state (run (mounted rect) evs))).
Proof.
  intros Hall Hfin. set (w := run (mounted rect) evs) in *.
  destruct (shows_reachable rect evs Hall Hfin) as (cv & older & Hcur & Hb).
  fold w in Hcur, Hb.
  destruct (sized_reachable rect evs)
    as (canvas & cv0 & Href & Hcv & Hw & Hh & _). fold w in Href, Hcv, Hw, Hh.
  assert (cv0 = cv) as ->.
  { unfold current in Hcur. rewrite Href in Hcur. simpl in Hcur. congruence. }
  assert (Hsize : componentSized cv) by by exists (aspectRatio (state w)).
  destruct (exportNow_ready w canvas cv Href Hcv Hsize) as (Hurl & _).
  by exists cv, older.
Qed.

(* ===================================================================== *)
(** ** The image service *)
(* ===================================================================== *)

Lemma split_nonempty s sep : GeminiService.split s sep <> [].
Proof.
  destruct s as [|c s]; simpl; [done|].
  destruct (Ascii.eqb c sep); [done|].
  by destruct (GeminiService.split s sep).
Qed.

Lemma split_without s sep :
  occurs sep s = false -> GeminiService.split s sep = [s].
Proof.
  induction s as [|c s IH]; simpl; [done|].
  intros [Hc Hs]%orb_false_elim. rewrite Hc, (IH Hs). done.
Qed.

Lemma split_at_first a b sep :
  occurs sep a = false ->
  GeminiService.split (a +:+ String sep b) sep = a :: GeminiService.split b sep.
Proof.
  induction a as [|c a IH]; simpl.
  - intros _. by rewrite Ascii.eqb_refl.
  - intros [Hc Ha]%orb_false_elim. rewrite Hc, (IH Ha). done.
Qed.

Lemma lazyToSemicolon_capture capture rest :
  occurs ";" capture = false ->
  hasLineTerminator capture = false ->
  GeminiService.lazyToSemicolon (capture +:+ String ";" rest) = Some capture.
Proof.
  induction capture as [|c capture IH]; simpl; [done|].
  intros [Hc Hs]%orb_false_elim [Ht Hl]%orb_false_elim.
  rewrite Hc, Ht, (IH Hs Hl). done.
Qed.

Lemma matchColonSemicolon_without s :
  occurs ":" s = false -> GeminiService.matchColonSemicolon s = None.
Proof.
  induction s as [|c s IH]; simpl; [done|].
  intros [Hc Hs]%orb_false_elim. rewrite Hc. by apply IH.
Qed.

Lemma append_assoc (a b c : string) : (a +:+ b) +:+ c = a +:+ (b +:+ c).
Proof.
  induction a as [|d a IH]; [done|].
  change (String d ((a +:+ b) +:+ c) = String d (a +:+ (b +:+ c))).
  by f_equal.
Qed.

Lemma occurs_app c a b : occurs c (a +:+ b) = occurs c a || occurs c b.
Proof.
  induction a as [|d a IH]; simpl; [done|]. by rewrite IH, orb_assoc.
Qed.

(** X12. Splitting a data URL gives back what it was built from: for a
    media type without comma, semicolon or line break and a payload
    without comma, [base64ToGenerativePart] of
    [data:<type>;base64,<payload>] is the part with exactly that
    payload as data and that media type. *)
Theorem data_url_round_trip mime payload :
  occurs "," mime = false ->
  occurs ";" mime = false ->
  hasLineTerminator mime = false ->
  occurs "," payload = false ->
  GeminiService.base64ToGenerativePart
    ("data:" +:+ mime +:+ ";base64," +:+ payload)
  = Normal (GeminiService.InlineDataPart (Some payload) mime).
Proof.
  intros Hcomma Hsemi Hline Hpayload.
  unfold GeminiService.base64ToGenerativePart.
  replace ("data:" +:+ mime +:+ ";base64," +:+ payload)
    with (("data:" +:+ mime +:+ ";base64") +:+ String "," payload).
  2:{ by rewrite !append_assoc. }
  rewrite split_at_first.
  2:{ by rewrite !occurs_app, Hcomma. }
  rewrite (split_without payload) by done.
  change ("data:" +:+ mime +:+ ";base64")
    with (String "d" (String "a" (String "t" (String "a"
            (String ":" (mime +:+ String ";" "base64")))))).
  simpl.
  rewrite (lazyToSemicolon_capture mime "base64") by done. done.
Qed.

(** X13. [base64ToGenerativePart] never throws, whatever string it is
    given. A string without a comma gives a part whose data is
    [undefined], and a string without a colon gives the media type
    [image/png]. *)
Theorem data_url_edge_cases (s : string) :
  (exists d m, GeminiService.base64ToGenerativePart s
               = Normal (GeminiService.InlineDataPart d m))
  /\ (occurs "," s = false ->
      exists m, GeminiService.base64ToGenerativePart s
                = Normal (GeminiService.InlineDataPart None m))
  /\ (occurs ":" s = false ->
      exists d, GeminiService.base64ToGenerativePart s
                = Normal (GeminiService.InlineDataPart d "image/png")).
Proof.
  split; [|split].
  - unfold GeminiService.base64ToGenerativePart.
    pose proof (split_nonempty s ",") as Hne.
    destruct (GeminiService.split s ",") as [|meta pieces]; [done|].
    simpl. by eexists _, _.
  - intros H. unfold GeminiService.base64ToGenerativePart.
    rewrite (split_without s) by done. simpl. by eexists.
  - intros H. unfold GeminiService.base64ToGenerativePart.
    pose proof (split_nonempty s ",") as Hne.
    destruct (GeminiService.split s ",") as [|meta pieces] eqn:Hsplit; [done|].
    simpl. eexists. do 2 f_equal.
    rewrite matchColonSemicolon_without; [done|].
    clear Hne. revert meta pieces Hsplit.
    induction s as [|c s IH]; simpl; intros meta pieces Hsplit.
    + by injection Hsplit as <- _.
    + simpl in H. apply orb_false_elim in H as [Hc Hs].
      destruct (Ascii.eqb c ","); [by injection Hsplit as <- _|].
      destruct (GeminiService.split s ",") as [|m ps] eqn:Hs'.
      * injection Hsplit as <- _. simpl. by rewrite Hc.
      * injection Hsplit as <- _. simpl. rewrite Hc. by eapply IH.
Qed.

Lemma firstInlineData_head ps :
  GeminiService.firstInlineData ps = head (omap partImage ps).
Proof.
  induction ps as [|p ps IH]; [done|].
  cbn [GeminiService.firstInlineData]. rewrite IH.
  destruct p as [[[[[|c d]|]]|]]; reflexivity.
Qed.

Lemma firstImage_head cs :
  Forall (fun c => is_Some (partsOf c)) cs ->
  GeminiService.firstImage cs = Normal (head (imagesOf cs)).
Proof.
  induction 1 as [|c cs [ps Hps] _ IH]; [done|].
  unfold imagesOf. cbn [GeminiService.firstImage flat_map].
  rewrite Hps. unfold partsOf in Hps.
  destruct c as [[ct|]]; cbn [GeminiService.content] in *; [|done].
  rewrite Hps, firstInlineData_head. cbn [default].
  unfold id. destruct (omap partImage ps) as [|d ds]; simpl; [exact IH|done].
Qed.

Lemma base64_normal s :
  GeminiService.base64ToGenerativePart s = Normal (sketchPart s).
Proof.
  unfold GeminiService.base64ToGenerativePart, sketchPart.
  pose proof (split_nonempty s ",") as Hne.
  by destruct (GeminiService.split s ",").
Qed.

Lemma generateImage_request gc params :
  GeminiService.generateImage gc params
  = match GeminiService.andThen (gc (requestFor params))
            (fun response =>
               GeminiService.firstImage
                 (default [] (GeminiService.candidates response))) with
    | Normal result => Normal result
    | Throw _ => Throw failureMessage
    end.
Proof.
  destruct params as [r1 r2 bg p1 p2 po sketch].
  unfold GeminiService.generateImage, requestFor, filesOf.
  cbn [GeminiService.refImage1 GeminiService.refImage2 GeminiService.bgImage
       GeminiService.prompt1 GeminiService.prompt2
       GeminiService.promptOverall GeminiService.sketchImage].
  rewrite base64_normal. cbn [GeminiService.andThen].
  destruct r1, r2, bg; reflexivity.
Qed.

(** X14. When the service answers and every candidate of the answer has
    content with parts, [generateImage] returns the first non-empty
    inline data in the order of the candidates and of their parts, and
    [null] exactly when no part of any candidate carries any. *)
Theorem generateImage_returns_first_image gc params response :
  gc (requestFor params) = Normal response ->
  Forall (fun c => is_Some (partsOf c))
    (default [] (GeminiService.candidates response)) ->
  GeminiService.generateImage gc params
  = Normal (head (imagesOf (default [] (GeminiService.candidates response))))
  /\ (GeminiService.generateImage gc params = Normal None
      <-> imagesOf (default [] (GeminiService.candidates response)) = []).
Proof.
  intros Hgc Hwf.
  assert (H : GeminiService.generateImage gc params
              = Normal (head (imagesOf
                  (default [] (GeminiService.candidates response))))).
  { rewrite generateImage_request, Hgc. cbn [GeminiService.andThen].
    by rewrite (firstImage_head _ Hwf). }
  split; [exact H|]. rewrite H.
  destruct (imagesOf _) as [|d ds]; simpl; split; intros E; congruence.
Qed.

(** X15. Every failure of [generateImage] carries the same message: it
    never ends with another exception; an exception of the service is
    replaced by it; and an answer whose first candidate has no content
    or no parts ends with it too, rather than with [null]. *)
Theorem generateImage_failures_share_one_message gc params :
  (forall e, GeminiService.generateImage gc params = Throw e ->
             e = failureMessage)
  /\ (forall e, gc (requestFor params) = Throw e ->
                GeminiService.generateImage gc params = Throw failureMessage)
  /\ (forall response c rest,
        gc (requestFor params) = Normal response ->
        GeminiService.candidates response = Some (c :: rest) ->
        partsOf c = None ->
        GeminiService.generateImage gc params = Throw failureMessage).
Proof.
  split; [|split].
  - intros e. rewrite generateImage_request.
    destruct (GeminiService.andThen _ _); congruence.
  - intros e Hgc. by rewrite generateImage_request, Hgc.
  - intros response c rest Hgc Hcs Hc.
    rewrite generateImage_request, Hgc. cbn [GeminiService.andThen].
    rewrite Hcs. cbn [default from_option id GeminiService.firstImage].
    unfold partsOf in Hc.
    destruct c as [[ct|]]; cbn [GeminiService.content] in *; [|done].
    by rewrite Hc.
Qed.

Lemma filesOf_length params :
  length (filesOf params)
  = (length (option_list (GeminiService.refImage1 params))
     + length (option_list (GeminiService.refImage2 params))
     + length (option_list (GeminiService.bgImage params)))%nat.
Proof.
  unfold filesOf.
  by destruct (GeminiService.refImage1 params),
       (GeminiService.refImage2 params), (GeminiService.bgImage params).
Qed.

(** X16. [generateImage] asks the service one thing only: its outcome
    depends on the service through the answer to one request, whose
    parts are the prompt text first, then the files that are present in
    the order reference 1, reference 2, background, and the sketch last
    - two parts more than there are files. *)
Theorem generateImage_sends_one_request params :
  (forall gc gc',
      gc (requestFor params) = gc' (requestFor params) ->
      GeminiService.generateImage gc params
      = GeminiService.generateImage gc' params)
  /\ head (GeminiService.contents (requestFor params))
     = Some (GeminiService.TextPart
               (GeminiService.combinedPrompt
                  (GeminiService.promptOverall params)
                  (GeminiService.prompt1 params)
                  (GeminiService.prompt2 params)))
  /\ last (GeminiService.contents (requestFor params))
     = Some (sketchPart (GeminiService.sketchImage params))
  /\ length (GeminiService.contents (requestFor params))
     = (2 + length (option_list (GeminiService.refImage1 params))
        + length (option_list (GeminiService.refImage2 params))
        + length (option_list (GeminiService.bgImage params)))%nat.
Proof.
  split; [|split; [done|split]].
  - intros gc gc' H. by rewrite !generateImage_request, H.
  - unfold requestFor. cbn [GeminiService.contents].
    rewrite app_comm_cons. apply last_snoc.
  - unfold requestFor. cbn [GeminiService.contents length].
    rewrite length_app, length_map, filesOf_length. simpl. lia.
Qed.

(* ===================================================================== *)
(** ** The generate action *)
(* ===================================================================== *)

(** X17. With a sketch to send, [handleGenerate] first sets the loading
    flag and clears the error and the image, and once it has run to its
    end the state is determined by what [generateImage] did, whatever
    it was before: the loading flag is off; when a non-empty string was
    returned the image is that string as a PNG data URL and there is no
    error; when an empty string or [null] was returned there is no image
    and the error says that the model returned none; when it threw there
    is no image and the error is the message thrown. Without a sketch
    the one thing it does is set the error, and [generateImage] is not
    consulted. *)
Theorem handleGenerate_settles generateImage canvasData inputs st c rest :
  canvasData = Some (String c rest) ->
  let result :=
    generateImage
      {| GeminiService.refImage1 := App.refImage1 inputs;
         GeminiService.refImage2 := App.refImage2 inputs;
         GeminiService.bgImage := App.bgImage inputs;
         GeminiService.prompt1 := App.prompt1 inputs;
         GeminiService.prompt2 := App.prompt2 inputs;
         GeminiService.promptOverall := App.promptOverall inputs;
         GeminiService.sketchImage := String c rest |} in
  App.applyUpdates st (App.handleGenerate generateImage canvasData inputs)
  = {| App.isLoading := false;
       App.generatedImage :=
         match result with
         | Normal (Some (String d image)) =>
             Some ("data:image/png;base64," +:+ String d image)
         | _ => None
         end;
       App.error :=
         match result with
         | Normal (Some (String _ _)) => None
         | Normal _ =>
             Some "Failed to generate image. The model did not return an image."
         | Throw message => Some message
         end |}
  /\ (exists later,
        App.handleGenerate generateImage canvasData inputs
        = [App.setIsLoading true; App.setError None;
           App.setGeneratedImage None] ++ later
        /\ App.applyUpdates st
             [App.setIsLoading true; App.setError None;
              App.setGeneratedImage None]
           = {| App.isLoading := true; App.generatedImage := None;
                App.error := None |})
  /\ (forall empty other,
        empty = None \/ empty = Some EmptyString ->
        App.handleGenerate generateImage empty inputs
        = [App.setError (Some "Could not get sketch data.")]
        /\ App.handleGenerate other empty inputs
           = App.handleGenerate generateImage empty inputs).
Proof.
  intros -> result. unfold App.handleGenerate. fold result.
  split; [|split].
  - by destruct result as [[[|d image]|]|message].
  - eexists. split; reflexivity.
  - by intros empty other [-> | ->].
Qed.

(* ===================================================================== *)
(** ** Positions and sliders *)
(* ===================================================================== *)

Lemma position_run evs : forall w e,
  Forall (fun ev => (forall rect, ev <> layout rect)
                    /\ (forall r, ev <> clickRatio r)) evs ->
  positionIn (run w evs) e = positionIn w e.
Proof.
  induction evs as [|ev evs IH]; intros w e Hall; [done|].
  apply Forall_cons in Hall as [[Hlay Hratio] Hall].
  rewrite run_cons, IH by done. by apply position_step.
Qed.

(** X18. Where an input lands depends on the page layout only: no
    sequence of events without a layout or aspect-ratio event - drawing,
    undo, clear, tool, colour or width changes - changes the position
    the component computes for any input. A touch input is positioned
    by its first touch alone; with a canvas, a touch input without any
    touch is a [TypeError]; without a canvas, every input is at the
    origin. *)
Theorem position_depends_on_layout_only :
  (forall w evs e,
      Forall (fun ev => (forall rect, ev <> layout rect)
                        /\ (forall r, ev <> clickRatio r)) evs ->
      positionIn (run w evs) e = positionIn w e)
  /\ (forall canvas t rest,
        getCanvasCoordinates canvas (TouchEvent (t :: rest))
        = getCanvasCoordinates canvas (MouseEvent (clientX t) (clientY t)))
  /\ (forall cv, getCanvasCoordinates (Some cv) (TouchEvent [])
                 = Throw "TypeError")
  /\ (forall e, getCanvasCoordinates None e
                = Normal {| x := 0; y := 0 |}).
Proof.
  split; [|split; [|split]].
  - intros w evs e Hall. by apply position_run.
  - by intros [cv|] t rest.
  - done.
  - by intros [? ?|[|? ?]].
Qed.

(** X19. A slider stores the position asked for, brought within its
    bounds: after a change of the brush slider the brush width is the
    number of the position clamped to 1..50, after a change of the
    eraser slider the eraser width is the number of the position clamped
    to 1..100, and the log and the in-progress stroke are as before. *)
Theorem slider_stores_clamped_position w requested :
  brushSize (state (step w (changeBrushSize requested)))
  = of_Z (Z.max 1 (Z.min requested 50))
  /\ eraserSize (state (step w (changeEraserSize requested)))
     = of_Z (Z.max 1 (Z.min requested 100))
  /\ combined (strokes (state (step w (changeBrushSize requested))))
       (currentPath (state (step w (changeBrushSize requested))))
     = combined (strokes (state w)) (currentPath (state w))
  /\ combined (strokes (state (step w (changeEraserSize requested))))
       (currentPath (state (step w (changeEraserSize requested))))
     = combined (strokes (state w)) (currentPath (state w)).
Proof.
  assert (H : forall hi, 1 <= hi <= 100 ->
            parseInt (RangeInput.value 1 hi requested)
            = of_Z (Z.max 1 (Z.min requested hi))).
  { intros hi Hhi. unfold RangeInput.value.
    replace (hi <? 1) with false by (symmetry; apply Z.ltb_ge; lia).
    set (z := Z.max 1 (Z.min requested hi)).
    replace z with (1 + Z.of_nat (Z.to_nat (z - 1))) by lia.
    apply parseInt_small. lia. }
  split; [|split; [|done]].
  - rewrite state_step. simpl. apply H. lia.
  - rewrite state_step. simpl. apply H. lia.
Qed.

(* ===================================================================== *)
(** ** The further properties at sample inputs *)
(* ===================================================================== *)


Lemma commit_then_undo_restores_log_witness :
  consistent openStrokeFiber
  /\ settled openStrokeFiber
  /\ currentPath (state (committed openStrokeFiber)) = Some sampleThird
  /\ length (strokes (state (committed openStrokeFiber))) = 2%nat
  /\ length (strokes (state (committed
        (schedule openStrokeFiber [handle onMouseUp; handle clickUndo]))))
     = 2%nat
  /\ length (strokes (state (committed
        (schedule openStrokeFiber
           [handle onMouseLeave; scheduledRender; handle clickUndo]))))
     = 2%nat
  /\ length (strokes (state (committed
        (schedule openStrokeFiber
           [handle onMouseLeave; handle clickUndo; scheduledRender]))))
     = 1%nat.
Proof.
  assert (H0 : settled openStrokeFiber) by (split; vm_compute; reflexivity).
  assert (H1 : consistent openStrokeFiber).
  { split; [vm_compute; reflexivity|]. vm_compute. constructor. }
  assert (H2 : currentPath (state (committed openStrokeFiber))
               = Some sampleThird) by (vm_compute; reflexivity).
  destruct (commit_then_undo_restores_log openStrokeFiber sampleThird H1 H2)
    as (Hup & Hleave & Hlost).
  split; [exact H1|]. split; [exact H0|]. split; [exact H2|].
  split; [vm_compute; reflexivity|].
  split; [|split].
  - rewrite (proj1 (Hup onMouseUp (or_introl eq_refl))).
    vm_compute. reflexivity.
  - rewrite (proj1 (Hleave H0)). vm_compute. reflexivity.
  - rewrite (proj1 (Hlost H0)). vm_compute. reflexivity.
Defined.

Lemma stroke_keeps_begin_configuration_witness :
  positionIn (mounted sampleRect) (MouseEvent 15 30)
  = Normal {| x := 4.5; y := 10 |}
  /\ Forall isConfig sampleConfigEvents
  /\ pointerEnd onMouseUp
  /\ strokes (state (run (mounted sampleRect)
       (onMouseDown 15 30 :: sampleConfigEvents ++ [onMouseUp])))
     = [ {| points := [ {| x := 4.5; y := 10 |} ]; color := "#EF4444";
            width := 5; tool := brush |} ]
  /\ activeTool (state (run (mounted sampleRect)
       (onMouseDown 15 30 :: sampleConfigEvents ++ [onMouseUp]))) = eraser.
Proof.
  assert (H1 : positionIn (mounted sampleRect) (MouseEvent 15 30)
               = Normal {| x := 4.5; y := 10 |})
    by (vm_compute; reflexivity).
  assert (H2 : Forall isConfig sampleConfigEvents)
    by (repeat constructor).
  assert (H3 : pointerEnd onMouseUp) by (left; reflexivity).
  split; [exact H1|]. split; [exact H2|]. split; [exact H3|].
  split; [|vm_compute; reflexivity].
  exact (stroke_keeps_begin_configuration (mounted sampleRect)
           (MouseEvent 15 30) {| x := 4.5; y := 10 |} sampleConfigEvents
           onMouseUp H1 H2 H3).
Defined.

Lemma draw_footprint_witness :
  Some 0%nat <> Some 1%nat
  /\ (draw (Some 0%nat) sampleLog (Some sampleInProgress) twoCanvasStore).2
       !! 1%nat
     = twoCanvasStore !! 1%nat.
Proof.
  assert (H : Some 0%nat <> Some 1%nat) by discriminate.
  split; [exact H|].
  exact (proj1 (proj2 (draw_footprint (Some 0%nat) sampleLog
                         (Some sampleInProgress) twoCanvasStore)) 1%nat H).
Defined.

Lemma surface_shows_state_witness :
  Forall (fun ev => forall r, ev <> clickRatio r) twoStrokeEvents
  /\ finitePoints (state (run (mounted sampleRect) twoStrokeEvents))
  /\ shows (run (mounted sampleRect) twoStrokeEvents).
Proof.
  assert (H1 : Forall (fun ev => forall r, ev <> clickRatio r) twoStrokeEvents)
    by (repeat constructor; discriminate).
  assert (H2 : finitePoints (state (run (mounted sampleRect) twoStrokeEvents)))
    by (unfold finitePoints; vm_compute; repeat constructor).
  split; [exact H1|]. split; [exact H2|].
  exact (surface_shows_state sampleRect twoStrokeEvents H1 H2).
Defined.

Lemma change_repaints_surface_witness :
  (strokes (state (step (run (mounted sampleRect)
                           (twoStrokeEvents ++ [clickRatio Ratio_1_1]))
                        (onMouseDown 5 5)))
     <> strokes (state (run (mounted sampleRect)
                         (twoStrokeEvents ++ [clickRatio Ratio_1_1])))
   \/ currentPath (state (step (run (mounted sampleRect)
                                  (twoStrokeEvents ++ [clickRatio Ratio_1_1]))
                               (onMouseDown 5 5)))
        <> currentPath (state (run (mounted sampleRect)
                                 (twoStrokeEvents ++ [clickRatio Ratio_1_1]))))
  /\ finitePoints (state (step (run (mounted sampleRect)
                                  (twoStrokeEvents ++ [clickRatio Ratio_1_1]))
                               (onMouseDown 5 5)))
  /\ shows (step (run (mounted sampleRect)
                    (twoStrokeEvents ++ [clickRatio Ratio_1_1]))
              (onMouseDown 5 5)).
Proof.
  assert (H1 :
    strokes (state (step (run (mounted sampleRect)
                            (twoStrokeEvents ++ [clickRatio Ratio_1_1]))
                         (onMouseDown 5 5)))
      <> strokes (state (run (mounted sampleRect)
                          (twoStrokeEvents ++ [clickRatio Ratio_1_1])))
    \/ currentPath (state (step (run (mounted sampleRect)
                                   (twoStrokeEvents ++ [clickRatio Ratio_1_1]))
                                (onMouseDown 5 5)))
         <> currentPath (state (run (mounted sampleRect)
                                  (twoStrokeEvents ++ [clickRatio Ratio_1_1]))))
    by (right; vm_compute; discriminate).
  assert (H2 : finitePoints (state (step (run (mounted sampleRect)
                                  (twoStrokeEvents ++ [clickRatio Ratio_1_1]))
                               (onMouseDown 5 5))))
    by (unfold finitePoints; vm_compute; repeat constructor).
  split; [exact H1|]. split; [exact H2|].
  exact (change_repaints_surface sampleRect
           (twoStrokeEvents ++ [clickRatio Ratio_1_1]) (onMouseDown 5 5)
           H1 H2).
Defined.

Lemma ratio_change_blanks_surface_witness :
  Ratio_1_1 <> aspectRatio (state (run (mounted sampleRect) twoStrokeEvents))
  /\ length (strokes (state (run (mounted sampleRect) twoStrokeEvents)))
     = 2%nat
  /\ exists cv',
       current (step (run (mounted sampleRect) twoStrokeEvents)
                  (clickRatio Ratio_1_1)) = Some cv'
       /\ bitmap cv' = [].
Proof.
  assert (H : Ratio_1_1
              <> aspectRatio (state (run (mounted sampleRect) twoStrokeEvents)))
    by (vm_compute; discriminate).
  split; [exact H|]. split; [vm_compute; reflexivity|].
  exact (proj1 (ratio_change_blanks_surface sampleRect twoStrokeEvents
                  Ratio_1_1 H)).
Defined.

Lemma export_pictures_state_witness :
  Forall (fun ev => forall r, ev <> clickRatio r)
    [onMouseDown 15 30; onMouseMove 16 31]%float
  /\ finitePoints (state drawingWorld)
  /\ exists cv older,
       (exportNow drawingWorld).1
       = Normal (Some (DataImage "image/png" (DOM.width cv) (height cv)
                         (flattened cv)))
       /\ bitmap cv
          = older ++ fullSurfaceClear cv
                     :: repaint (strokes (state drawingWorld))
                          (currentPath (state drawingWorld)).
Proof.
  assert (H1 : Forall (fun ev => forall r, ev <> clickRatio r)
                 [onMouseDown 15 30; onMouseMove 16 31]%float)
    by (repeat constructor; discriminate).
  assert (H2 : finitePoints (state drawingWorld))
    by (unfold finitePoints; vm_compute; repeat constructor).
  split; [exact H1|]. split; [exact H2|].
  exact (export_pictures_state sampleRect
           [onMouseDown 15 30; onMouseMove 16 31]%float H1 H2).
Defined.

Lemma data_url_round_trip_witness :
  occurs "," "image/png" = false
  /\ occurs ";" "image/png" = false
  /\ hasLineTerminator "image/png" = false
  /\ occurs "," "iVBORw0KGgo=" = false
  /\ GeminiService.base64ToGenerativePart "data:image/png;base64,iVBORw0KGgo="
     = Normal (GeminiService.InlineDataPart (Some "iVBORw0KGgo=") "image/png").
Proof.
  assert (H1 : occurs "," "image/png" = false) by reflexivity.
  assert (H2 : occurs ";" "image/png" = false) by reflexivity.
  assert (H3 : hasLineTerminator "image/png" = false) by reflexivity.
  assert (H4 : occurs "," "iVBORw0KGgo=" = false) by reflexivity.
  split; [exact H1|]. split; [exact H2|]. split; [exact H3|].
  split; [exact H4|].
  exact (data_url_round_trip "image/png" "iVBORw0KGgo=" H1 H2 H3 H4).
Defined.

Lemma data_url_edge_cases_witness :
  occurs "," "sketch" = false
  /\ occurs ":" "sketch" = false
  /\ (exists m, GeminiService.base64ToGenerativePart "sketch"
                = Normal (GeminiService.InlineDataPart None m))
  /\ (exists d, GeminiService.base64ToGenerativePart "sketch"
                = Normal (GeminiService.InlineDataPart d "image/png")).
Proof.
  assert (H1 : occurs "," "sketch" = false) by reflexivity.
  assert (H2 : occurs ":" "sketch" = false) by reflexivity.
  destruct (data_url_edge_cases "sketch") as (_ & Hcomma & Hcolon).
  split; [exact H1|]. split; [exact H2|].
  split; [exact (Hcomma H1)|exact (Hcolon H2)].
Defined.

Lemma generateImage_returns_first_image_witness :
  sampleService (requestFor sampleParams)
  = Normal {| GeminiService.candidates := Some sampleCandidates |}
  /\ Forall (fun c => is_Some (partsOf c)) sampleCandidates
  /\ GeminiService.generateImage sampleService sampleParams
     = Normal (Some "QUJD").
Proof.
  assert (H1 : sampleService (requestFor sampleParams)
               = Normal {| GeminiService.candidates := Some sampleCandidates |})
    by reflexivity.
  assert (H2 : Forall (fun c => is_Some (partsOf c)) sampleCandidates)
    by (repeat constructor; eexists; reflexivity).
  split; [exact H1|]. split; [exact H2|].
  exact (proj1 (generateImage_returns_first_image sampleService sampleParams
                  {| GeminiService.candidates := Some sampleCandidates |}
                  H1 H2)).
Defined.

Lemma generateImage_failures_share_one_message_witness :
  failingService (requestFor sampleParams) = Throw "503"
  /\ GeminiService.generateImage failingService sampleParams
     = Throw failureMessage
  /\ GeminiService.generateImage blockedService sampleParams
     = Throw failureMessage.
Proof.
  assert (H1 : failingService (requestFor sampleParams) = Throw "503")
    by reflexivity.
  split; [exact H1|]. split.
  - exact (proj1 (proj2 (generateImage_failures_share_one_message
                           failingService sampleParams)) "503" H1).
  - exact (proj2 (proj2 (generateImage_failures_share_one_message
                           blockedService sampleParams))
             _ _ _ eq_refl eq_refl eq_refl).
Defined.

Lemma generateImage_sends_one_request_witness :
  sampleService (requestFor sampleParams)
  = (fun _ => sampleService (requestFor sampleParams)) (requestFor sampleParams)
  /\ GeminiService.generateImage sampleService sampleParams
     = GeminiService.generateImage
         (fun _ => sampleService (requestFor sampleParams)) sampleParams
  /\ length (GeminiService.contents (requestFor sampleParams)) = 4%nat.
Proof.
  assert (H : sampleService (requestFor sampleParams)
              = (fun _ => sampleService (requestFor sampleParams))
                  (requestFor sampleParams)) by reflexivity.
  split; [exact H|]. split; [|reflexivity].
  exact (proj1 (generateImage_sends_one_request sampleParams)
           sampleService (fun _ => sampleService (requestFor sampleParams)) H).
Defined.

Lemma handleGenerate_settles_witness :
  Some "data:image/png;base64,iVBORw0KGgo="
  = Some (String "d" "ata:image/png;base64,iVBORw0KGgo=")
  /\ App.applyUpdates sampleAppState
       (App.handleGenerate (GeminiService.generateImage sampleService)
          (Some "data:image/png;base64,iVBORw0KGgo=") sampleInputs)
     = {| App.isLoading := false;
          App.generatedImage := Some "data:image/png;base64,QUJD";
          App.error := None |}
  /\ App.applyUpdates sampleAppState
       (App.handleGenerate (GeminiService.generateImage failingService)
          (Some "data:image/png;base64,iVBORw0KGgo=") sampleInputs)
     = {| App.isLoading := false;
          App.generatedImage := None;
          App.error := Some failureMessage |}.
Proof.
  assert (H : Some "data:image/png;base64,iVBORw0KGgo="
              = Some (String "d" "ata:image/png;base64,iVBORw0KGgo="))
    by reflexivity.
  split; [exact H|]. split.
  - rewrite (proj1 (handleGenerate_settles
                      (GeminiService.generateImage sampleService)
                      (Some "data:image/png;base64,iVBORw0KGgo=") sampleInputs
                      sampleAppState "d" "ata:image/png;base64,iVBORw0KGgo="
                      H)).
    vm_compute. reflexivity.
  - rewrite (proj1 (handleGenerate_settles
                      (GeminiService.generateImage failingService)
                      (Some "data:image/png;base64,iVBORw0KGgo=") sampleInputs
                      sampleAppState "d" "ata:image/png;base64,iVBORw0KGgo="
                      H)).
    vm_compute. reflexivity.
Defined.

Lemma position_depends_on_layout_only_witness :
  Forall (fun ev => (forall rect, ev <> layout rect)
                    /\ (forall r, ev <> clickRatio r)) sampleGrowingEvents
  /\ positionIn (run drawingWorld sampleGrowingEvents) (MouseEvent 15 30)
     = positionIn drawingWorld (MouseEvent 15 30).
Proof.
  assert (H : Forall (fun ev => (forall rect, ev <> layout rect)
                                /\ (forall r, ev <> clickRatio r))
                sampleGrowingEvents)
    by (repeat constructor; discriminate).
  split; [exact H|].
  exact (proj1 position_depends_on_layout_only drawingWorld
           sampleGrowingEvents (MouseEvent 15 30) H).
Defined.

Lemma step_is_event_then_render_witness :
  settled (mountedFiber sampleRect)
  /\ committed (schedule (mountedFiber sampleRect)
                  [handle (onMouseMove 16 31); scheduledRender])
     = step (committed (mountedFiber sampleRect)) (onMouseMove 16 31)
  /\ committed openStrokeFiber
     = run (mounted sampleRect) (twoStrokeEvents ++ [onMouseDown 5 5]%float).
Proof.
  destruct step_is_event_then_render as (Hstep & Hrun & _ & _).
  assert (H : settled (mountedFiber sampleRect)) by (split; reflexivity).
  split; [exact H|]. split.
  - exact (proj1 (Hstep (mountedFiber sampleRect) (onMouseMove 16 31) H)).
  - exact (Hrun (mountedFiber sampleRect)
             (twoStrokeEvents ++ [onMouseDown 5 5]%float) H).
Defined.
